(** * zapcolors: the coloured text encoder (colored_text_encoder.go)

    A shallow embedding of the encoder and proofs of its specified
    behaviour.

    Conventions of the embedding.
    - A Go [string] and a Go [[]byte] are both sequences of bytes; both are
      modelled by [string], whose characters are the 8-bit [ascii].  The
      capacity of a slice has no observable effect and is not modelled.
    - Go's [int] is the 64-bit two's-complement integer of the amd64 and arm64
      ports; it is a [Z] kept in range by [int_wrap].
    - A method with a [*textEncoder] receiver that touches only its receiver
      is a function [textEncoder -> textEncoder] (the receiver is the state
      that is passed along).  The methods that involve a second encoder or the
      pool ([NewColorEncoder], [Free], [Clone], [WriteEntry]) run on a heap of
      encoders addressed by location, so that aliasing is visible.
    - Whether two encoders share buffer memory cannot be asked of buffers
      that are values.  For that question the methods are embedded a second
      time, in the module [Mem], on a memory in which a buffer is a slice
      (pointer, length, capacity) on a backing array and [append] writes in
      place or moves the bytes to a new array.  The last part of the file
      shows that the operations on this memory do what the operations on
      values do. *)

From Stdlib Require Import ZArith NArith Zpow_facts Ascii String Lia.
From stdpp Require Import base tactics option list gmap strings.

#[local] Open Scope Z_scope.
#[local] Arguments String.append : simpl nomatch.
#[local] Set Warnings "-register-all".

(** ** Byte strings *)

Module Bytes.

(** The escape character, written [\x1b] in the Go source. *)
Definition ESC : string := String "027"%char "".

(** The line feed, written ['\n']. *)
Definition LF : string := String "010"%char "".

(** [int(c)] for a byte [c]. *)
Definition byte_value (c : ascii) : Z := Z.of_N (N_of_ascii c).

Fixpoint spaces (n : nat) : string :=
  match n with
  | O => ""
  | S n' => String " "%char (spaces n')
  end.

(** A decimal digit or the minus sign. *)
Definition is_decimal_byte (c : ascii) : bool :=
  Ascii.eqb c "-" || ((48 <=? N_of_ascii c) && (N_of_ascii c <=? 57))%N.

(** Every byte of [s] satisfies the boolean test [p]. *)
Fixpoint all_bytes (p : ascii -> bool) (s : string) : bool :=
  match s with
  | EmptyString => true
  | String c s' => p c && all_bytes p s'
  end.

End Bytes.
Export Bytes.

(** ** The Go standard library, as far as the encoder uses it *)

Module strconv.

Definition digits : string := "0123456789abcdefghijklmnopqrstuvwxyz".

Definition digit (d : N) : ascii :=
  match String.get (N.to_nat d) digits with
  | Some c => c
  | None => "0"%char
  end.

(** The loop of [formatBits]: digits are produced from the least
    significant one and written in front of what was produced so far.
    [fuel] bounds the number of iterations. *)
Fixpoint formatBits (fuel : nat) (u base : N) (acc : string) : string :=
  match fuel with
  | O => acc
  | S fuel' =>
      if (u <? base)%N then String (digit u) acc
      else formatBits fuel' (u / base)%N base (String (digit (u mod base)%N) acc)
  end.

Definition FormatUint (u base : N) : string :=
  formatBits (S (N.size_nat u)) u base "".

Definition FormatInt (i : Z) (base : N) : string :=
  if i <? 0 then String "-"%char (FormatUint (Z.to_N (- i)) base)
  else FormatUint (Z.to_N i) base.

Definition FormatBool (b : bool) : string :=
  if b then "true" else "false".

Definition AppendUint (dst : string) (u base : N) : string :=
  dst +:+ FormatUint u base.

Definition AppendInt (dst : string) (i : Z) (base : N) : string :=
  dst +:+ FormatInt i base.

Definition AppendBool (dst : string) (b : bool) : string :=
  dst +:+ FormatBool b.

(** The value of a digit as [ParseUint] reads it. *)
Definition digit_value (c : ascii) : option N :=
  let n := N_of_ascii c in
  if ((48 <=? n) && (n <=? 57))%N then Some (n - 48)%N
  else if ((97 <=? n) && (n <=? 122))%N then Some (n - 97 + 10)%N
  else if ((65 <=? n) && (n <=? 90))%N then Some (n - 65 + 10)%N
  else None.

(** The loop of [ParseUint] for 64 bits: a byte that is no digit of the base
    is a syntax error, a value that leaves the 64 bits is a range error; both
    are [None]. *)
Fixpoint parse_digits (base : N) (s : string) (n : N) : option N :=
  match s with
  | EmptyString => Some n
  | String c s' =>
      match digit_value c with
      | Some d =>
          if (d <? base)%N then
            let n1 := (n * base + d)%N in
            if (n1 <? 2 ^ 64)%N then parse_digits base s' n1 else None
          else None
      | None => None
      end
  end.

(** [strconv.ParseUint(s, base, 64)] for an explicit base. *)
Definition ParseUint (s : string) (base : N) : option N :=
  match s with
  | EmptyString => None
  | _ => parse_digits base s 0
  end.

(** [strconv.ParseInt(s, 10, 64)] *)
Definition ParseInt (s : string) : option Z :=
  match s with
  | EmptyString => None
  | String c s' =>
      let neg := Ascii.eqb c "-" in
      let s0 := if Ascii.eqb c "+" || Ascii.eqb c "-" then s' else s in
      match ParseUint s0 10 with
      | None => None
      | Some un =>
          if negb neg && (2 ^ 63 <=? un)%N then None
          else if neg && (2 ^ 63 <? un)%N then None
          else Some (if neg then - Z.of_N un else Z.of_N un)
      end
  end.

(** [strconv.ParseBool(s)] *)
Definition ParseBool (s : string) : option bool :=
  if bool_decide (s ∈ ["1"; "t"; "T"; "TRUE"; "true"; "True"]) then Some true
  else if bool_decide (s ∈ ["0"; "f"; "F"; "FALSE"; "false"; "False"])
       then Some false
  else None.

(** A [float64] is opaque here: it is known by the text that
    [strconv.AppendFloat(_, val, 'f', -1, 64)] produces for it. *)
Record float64 : Type := Float64 { FormatFloat : string }.

Definition AppendFloat (dst : string) (val : float64) : string :=
  dst +:+ FormatFloat val.

End strconv.

Module utf8.

(** The table [first] of unicode/utf8 together with [acceptRanges]: for a
    leading byte, the length of the encoding it announces and the interval
    its second byte must lie in; [None] for a byte that cannot start an
    encoding of more than one byte. *)
Definition first (c : N) : option (nat * (N * N)) :=
  if (c <? 0xC2)%N then None
  else if (c <? 0xE0)%N then Some (2%nat, (0x80, 0xBF)%N)
  else if (c =? 0xE0)%N then Some (3%nat, (0xA0, 0xBF)%N)
  else if (c =? 0xED)%N then Some (3%nat, (0x80, 0x9F)%N)
  else if (c <? 0xF0)%N then Some (3%nat, (0x80, 0xBF)%N)
  else if (c =? 0xF0)%N then Some (4%nat, (0x90, 0xBF)%N)
  else if (c <? 0xF4)%N then Some (4%nat, (0x80, 0xBF)%N)
  else if (c =? 0xF4)%N then Some (4%nat, (0x80, 0x8F)%N)
  else None.

Definition between (lo hi : N) (c : ascii) : bool :=
  ((lo <=? N_of_ascii c) && (N_of_ascii c <=? hi))%N.

Definition byte_at (k : nat) (s : string) : ascii :=
  match String.get k s with
  | Some c => c
  | None => zero
  end.

(** The number of bytes the rune starting with [c] takes, [rest] being the
    bytes after [c]: an invalid or truncated encoding counts as one byte. *)
Definition rune_width (c : ascii) (rest : string) : nat :=
  match first (N_of_ascii c) with
  | None => 1
  | Some (size, (lo, hi)) =>
      if (String.length rest <? size - 1)%nat then 1%nat
      else if negb (between lo hi (byte_at 0 rest)) then 1%nat
      else if (size =? 2)%nat then 2%nat
      else if negb (between 0x80 0xBF (byte_at 1 rest)) then 1%nat
      else if (size =? 3)%nat then 3%nat
      else if negb (between 0x80 0xBF (byte_at 2 rest)) then 1%nat
      else 4%nat
  end.

Fixpoint skip (n : nat) (s : string) : string :=
  match n, s with
  | S n', String _ s' => skip n' s'
  | _, _ => s
  end.

(** The loop of [RuneCountInString]; one iteration per rune. *)
Fixpoint count_runes (fuel : nat) (s : string) : nat :=
  match fuel, s with
  | S fuel', String c rest =>
      S (count_runes fuel' (skip (rune_width c rest - 1) rest))
  | _, _ => O
  end.

Definition RuneCountInString (s : string) : nat :=
  count_runes (String.length s) s.

End utf8.

Module fmt.

(** [%d] and [%v] applied to an integer. *)
Definition verb_d (i : Z) : string := strconv.FormatInt i 10.

(** [fmt.Sprintf("%-25s", msg)]: the text, then spaces up to a width of 25
    runes; nothing is cut. *)
Definition Sprintf_left25 (msg : string) : string :=
  msg +:+ spaces (25 - utf8.RuneCountInString msg).

(** A value of type [interface{}] is opaque: it is known by the text that
    [fmt.Sprintf("%+v", obj)] produces for it. *)
Record object : Type := Object { Sprintf_plus_v : string }.

End fmt.

Module time.

Definition RFC3339 : string := "2006-01-02T15:04:05Z07:00".

(** A [time.Time] is opaque: it is known by the text its [Format] method
    produces for each layout. *)
Record Time : Type := MkTime { Format : string -> string }.

Definition AppendFormat (t : Time) (b : string) (layout : string) : string :=
  b +:+ Format t layout.

End time.

(** Go's [error] values.  [errorString] is what [errors.New] and [fmt.Errorf]
    build; [foreignError] stands for the errors of any other origin that a
    sink or a marshaler may return. *)
Inductive error : Type :=
| errorString (msg : string)
| foreignError (id : nat).

(** ** Machine integers *)

Definition intSize : Z := 64.
Definition MaxInt : Z := 2 ^ (intSize - 1) - 1.

(** Two's-complement wrap-around of an [int]. *)
Definition int_wrap (z : Z) : Z :=
  (z + 2 ^ (intSize - 1)) mod 2 ^ intSize - 2 ^ (intSize - 1).

(** ** The encoder *)

Record textEncoder : Type := mkTextEncoder {
  bytes : string;
  timeFmt : string;
  firstNested : bool
}.

Definition set_bytes (b : string) (enc : textEncoder) : textEncoder :=
  {| bytes := b; timeFmt := timeFmt enc; firstNested := firstNested enc |}.

Definition set_timeFmt (layout : string) (enc : textEncoder) : textEncoder :=
  {| bytes := bytes enc; timeFmt := layout; firstNested := firstNested enc |}.

Definition set_firstNested (b : bool) (enc : textEncoder) : textEncoder :=
  {| bytes := bytes enc; timeFmt := timeFmt enc; firstNested := b |}.

(** [enc.bytes = append(enc.bytes, s...)] *)
Definition append_bytes (s : string) (enc : textEncoder) : textEncoder :=
  set_bytes (bytes enc +:+ s) enc.

Definition truncate (enc : textEncoder) : textEncoder :=
  set_bytes "" enc.

(** The loop [for _, c := range []byte(key) { sum += int(c) }]. *)
Fixpoint sum_loop (sum : Z) (key : string) : Z :=
  match key with
  | EmptyString => sum
  | String c key' => sum_loop (int_wrap (sum + byte_value c)) key'
  end.

(** [color := (sum % 7) + 1]; Go's [%] truncates towards zero. *)
Definition key_color (key : string) : Z :=
  int_wrap (Z.rem (sum_loop 0 key) 7 + 1).

(** [fmt.Sprintf("\x1b[3%d;1m%s\x1b[0m", color, key)] *)
Definition Sprintf_key (color : Z) (key : string) : string :=
  ESC +:+ "[3" +:+ fmt.verb_d color +:+ ";1m" +:+ key +:+ ESC +:+ "[0m".

Definition addKey (key : string) (enc : textEncoder) : textEncoder :=
  let lastIdx := Z.of_nat (String.length (bytes enc)) - 1 in
  let enc :=
    if (0 <=? lastIdx) && negb (firstNested enc)
    then append_bytes " " enc
    else set_firstNested false enc in
  let color := key_color key in
  let enc := append_bytes (Sprintf_key color key) enc in
  append_bytes "=" enc.

Definition AddString (key val : string) (enc : textEncoder) : textEncoder :=
  let enc := addKey key enc in
  append_bytes val enc.

Definition AddBool (key : string) (val : bool) (enc : textEncoder) : textEncoder :=
  let enc := addKey key enc in
  set_bytes (strconv.AppendBool (bytes enc) val) enc.

Definition AddInt64 (key : string) (val : Z) (enc : textEncoder) : textEncoder :=
  let enc := addKey key enc in
  set_bytes (strconv.AppendInt (bytes enc) val 10) enc.

(** [int64(val)] of an [int] is the identity on a 64-bit port. *)
Definition AddInt (key : string) (val : Z) (enc : textEncoder) : textEncoder :=
  AddInt64 key val enc.

Definition AddUint64 (key : string) (val : N) (enc : textEncoder) : textEncoder :=
  let enc := addKey key enc in
  set_bytes (strconv.AppendUint (bytes enc) val 10) enc.

Definition AddUint (key : string) (val : N) (enc : textEncoder) : textEncoder :=
  AddUint64 key val enc.

Definition AddUintptr (key : string) (val : N) (enc : textEncoder) : textEncoder :=
  let enc := addKey key enc in
  let enc := append_bytes "0x" enc in
  set_bytes (strconv.AppendUint (bytes enc) val 16) enc.

Definition AddFloat64 (key : string) (val : strconv.float64) (enc : textEncoder)
  : textEncoder :=
  let enc := addKey key enc in
  set_bytes (strconv.AppendFloat (bytes enc) val) enc.

Definition AddObject (key : string) (obj : fmt.object) (enc : textEncoder)
  : textEncoder * option error :=
  let enc := AddString key (fmt.Sprintf_plus_v obj) enc in
  (enc, None).

(** ** Nested objects

    A [zap.LogMarshaler] is handed the encoder as a [zap.KeyValue] and calls
    its [Add...] methods.  Such a callback is a tree: it either returns, or
    makes one call and continues according to the error the call returned
    (the methods without a result hand back no error). *)
Inductive call : Type :=
| CallAddString (key val : string)
| CallAddBool (key : string) (val : bool)
| CallAddInt (key : string) (val : Z)
| CallAddInt64 (key : string) (val : Z)
| CallAddUint (key : string) (val : N)
| CallAddUint64 (key : string) (val : N)
| CallAddUintptr (key : string) (val : N)
| CallAddFloat64 (key : string) (val : strconv.float64)
| CallAddMarshaler (key : string) (obj : LogMarshaler)
| CallAddObject (key : string) (obj : fmt.object)
with LogMarshaler : Type :=
| Return (err : option error)
| Do (c : call) (k : option error -> LogMarshaler).

Scheme call_mut := Induction for call Sort Prop
  with LogMarshaler_mut := Induction for LogMarshaler Sort Prop.

Combined Scheme call_LogMarshaler_ind from call_mut, LogMarshaler_mut.

Definition call_key (c : call) : string :=
  match c with
  | CallAddString key _ | CallAddBool key _ | CallAddInt key _
  | CallAddInt64 key _ | CallAddUint key _ | CallAddUint64 key _
  | CallAddUintptr key _ | CallAddFloat64 key _ | CallAddMarshaler key _
  | CallAddObject key _ => key
  end.

(** [obj.MarshalLog(enc)], and the dynamic dispatch of one [Add...] call on
    the encoder; the case of [CallAddMarshaler] is the body of
    [AddMarshaler]. *)
Fixpoint MarshalLog (obj : LogMarshaler) (enc : textEncoder)
  : textEncoder * option error :=
  match obj with
  | Return err => (enc, err)
  | Do c k =>
      let (enc, r) := dispatch c enc in
      MarshalLog (k r) enc
  end
with dispatch (c : call) (enc : textEncoder) : textEncoder * option error :=
  match c with
  | CallAddString key val => (AddString key val enc, None)
  | CallAddBool key val => (AddBool key val enc, None)
  | CallAddInt key val => (AddInt key val enc, None)
  | CallAddInt64 key val => (AddInt64 key val enc, None)
  | CallAddUint key val => (AddUint key val enc, None)
  | CallAddUint64 key val => (AddUint64 key val enc, None)
  | CallAddUintptr key val => (AddUintptr key val enc, None)
  | CallAddFloat64 key val => (AddFloat64 key val enc, None)
  | CallAddMarshaler key obj =>
      let enc := addKey key enc in
      let enc := set_firstNested true enc in
      let enc := append_bytes "{" enc in
      let (enc, err) := MarshalLog obj enc in
      let enc := append_bytes "}" enc in
      let enc := set_firstNested false enc in
      (enc, err)
  | CallAddObject key obj => AddObject key obj enc
  end.

Definition AddMarshaler (key : string) (obj : LogMarshaler) (enc : textEncoder)
  : textEncoder * option error :=
  let enc := addKey key enc in
  let enc := set_firstNested true enc in
  let enc := append_bytes "{" enc in
  let (enc, err) := MarshalLog obj enc in
  let enc := append_bytes "}" enc in
  let enc := set_firstNested false enc in
  (enc, err).

(** ** Levels *)

(** [zap.Level] is an [int32]. *)
Definition Level : Type := Z.

(** Modelled from the spec: the level constants of the zap package, which is
    not part of this repository.  The spec gives them as the ordered values
    debug < info < warn < error < panic < fatal; they are numbered here from
    -1, the info level being the zero value. *)
Definition DebugLevel : Level := -1.
Definition InfoLevel : Level := 0.
Definition WarnLevel : Level := 1.
Definition ErrorLevel : Level := 2.
Definition PanicLevel : Level := 3.
Definition FatalLevel : Level := 4.

(** [enc.addLevel(final, lvl)], [enc.addTime(final, t)] and
    [enc.addMessage(final, msg)] as functions of the two encoders involved:
    they read [enc] and return the new [final]. *)
Definition addLevel (enc final : textEncoder) (lvl : Level) : textEncoder :=
  if lvl =? DebugLevel then
    append_bytes (ESC +:+ "[32;1m[DEBG]" +:+ ESC +:+ "[0m") final
  else if lvl =? InfoLevel then
    append_bytes (ESC +:+ "[34;1m[INFO]" +:+ ESC +:+ "[0m") final
  else if lvl =? WarnLevel then
    append_bytes (ESC +:+ "[33;1m[WARN]" +:+ ESC +:+ "[0m") final
  else if lvl =? ErrorLevel then
    append_bytes (ESC +:+ "[31;1m[ERRO]" +:+ ESC +:+ "[0m") final
  else if lvl =? PanicLevel then
    append_bytes (ESC +:+ "[31;1m[PANC]" +:+ ESC +:+ "[0m") final
  else if lvl =? FatalLevel then
    append_bytes (ESC +:+ "[31;1m[FATA]" +:+ ESC +:+ "[0m") final
  else
    set_bytes (strconv.AppendInt (bytes final) lvl 10) final.

Definition addTime (enc final : textEncoder) (t : time.Time) : textEncoder :=
  if String.eqb (timeFmt enc) "" then final
  else
    let final := append_bytes " " final in
    set_bytes (time.AppendFormat t (bytes final) (timeFmt enc)) final.

Definition addMessage (enc final : textEncoder) (msg : string) : textEncoder :=
  if negb (String.eqb msg "") then
    let final := append_bytes " " final in
    append_bytes (fmt.Sprintf_left25 msg) final
  else final.

(** ** Options *)

Definition TextOption : Type := textEncoder -> textEncoder.

Definition TextTimeFormat (layout : string) : TextOption :=
  fun enc => set_timeFmt layout enc.

Definition TextNoTime : TextOption := TextTimeFormat "".

(** ** The heap of encoders and the pool

    [*textEncoder] values are locations in a heap.  [textPool] holds the
    locations that were released with [Put] and not handed out again. *)

Definition loc : Type := nat.

Record world : Type := World {
  heap : gmap loc textEncoder;
  textPool : list loc
}.

(** Computations on the world; [None] stands for the dereference of a location
    that was never allocated, which no Go program can perform. *)
Definition M (A : Type) : Type := world -> option (A * world).

#[export] Instance M_ret : MRet M := fun A a w => Some (a, w).

#[export] Instance M_bind : MBind M := fun A B f m w =>
  match m w with
  | Some (a, w') => f a w'
  | None => None
  end.

Definition load (l : loc) : M textEncoder := fun w =>
  match heap w !! l with
  | Some e => Some (e, w)
  | None => None
  end.

Definition store (l : loc) (e : textEncoder) : M unit := fun w =>
  Some (tt, World (<[l := e]> (heap w)) (textPool w)).

(** An assignment to fields of [*l]. *)
Definition update (l : loc) (f : textEncoder -> textEncoder) : M unit :=
  e ← load l; store l (f e).

(** The [New] function of [textPool]. *)
Definition textPool_New : textEncoder :=
  {| bytes := ""; timeFmt := ""; firstNested := false |}.

(** [textPool.Get()].  A [sync.Pool] hands out any of its items, or ignores
    them and builds a new one: [pick] is the choice it makes, the index of a
    pooled item or nothing. *)
Definition Get (pick : option nat) : M loc := fun w =>
  match pick ≫= (fun i => textPool w !! i) with
  | Some l =>
      Some (l, World (heap w) (delete (default 0%nat pick) (textPool w)))
  | None =>
      let l := fresh (dom (heap w)) in
      Some (l, World (<[l := textPool_New]> (heap w)) (textPool w))
  end.

(** [textPool.Put(l)] *)
Definition Put (l : loc) : M unit := fun w =>
  Some (tt, World (heap w) (l :: textPool w)).

Fixpoint apply_options (enc : loc) (options : list TextOption) : M unit :=
  match options with
  | [] => mret tt
  | opt :: options' => update enc opt;; apply_options enc options'
  end.

Definition NewColorEncoder (pick : option nat) (options : list TextOption)
  : M loc :=
  enc ← Get pick;
  update enc truncate;;
  update enc (set_timeFmt time.RFC3339);;
  apply_options enc options;;
  mret enc.

Definition Free (enc : loc) : M unit := Put enc.

Definition Clone (pick : option nat) (enc : loc) : M loc :=
  clone ← Get pick;
  update clone truncate;;
  e ← load enc; update clone (append_bytes (bytes e));;
  e ← load enc; update clone (set_timeFmt (timeFmt e));;
  e ← load enc; update clone (set_firstNested (firstNested e));;
  mret clone.

(** An [io.Writer]: what its [Write] answers when handed a byte slice. *)
Record Writer : Type := MkWriter { Write : string -> Z * option error }.

(** [len(b)] as an [int]. *)
Definition len (b : string) : Z := Z.of_nat (String.length b).

(** [fmt.Errorf("incomplete write: only wrote %v of %v bytes", n, expectedBytes)] *)
Definition incomplete_write (n expectedBytes : Z) : error :=
  errorString ("incomplete write: only wrote " +:+ fmt.verb_d n +:+ " of "
               +:+ fmt.verb_d expectedBytes +:+ " bytes").

(** [WriteEntry] returns the byte slices it handed to [sink.Write], in order,
    next to its error result. *)
Definition WriteEntry (pick : option nat) (enc : loc) (sink : option Writer)
    (msg : string) (lvl : Level) (t : time.Time)
  : M (list string * option error) :=
  match sink with
  | None => mret ([], Some (errorString "NIL SINK ERR - wut"))
  | Some sink =>
      final ← Get pick;
      update final truncate;;
      e ← load enc; update final (fun f => addLevel e f lvl);;
      e ← load enc; update final (fun f => addTime e f t);;
      e ← load enc; update final (fun f => addMessage e f msg);;
      e ← load enc;
      (if 0 <? len (bytes e) then
         update final (append_bytes " ");;
         e ← load enc; update final (append_bytes (bytes e))
       else mret tt);;
      update final (append_bytes LF);;
      f ← load final;
      let expectedBytes := len (bytes f) in
      let '(n, err) := Write sink (bytes f) in
      Free final;;
      match err with
      | Some err => mret ([bytes f], Some err)
      | None =>
          if negb (n =? expectedBytes)
          then mret ([bytes f], Some (incomplete_write n expectedBytes))
          else mret ([bytes f], None)
      end
  end.

(** A method that touches only its receiver, run on the encoder at [enc]. *)
Definition on {A : Type} (enc : loc) (method : textEncoder -> textEncoder * A)
  : M A :=
  e ← load enc;
  let (e', r) := method e in
  store enc e';;
  mret r.

(** The operations of a [zap.Encoder]. *)
Inductive operation : Type :=
| OpAdd (c : call)
| OpClone (pick : option nat)
| OpWriteEntry (pick : option nat) (sink : option Writer) (msg : string)
    (lvl : Level) (t : time.Time)
| OpFree.

Definition perform (op : operation) (enc : loc) : M unit :=
  match op with
  | OpAdd c => on enc (dispatch c);; mret tt
  | OpClone pick => Clone pick enc;; mret tt
  | OpWriteEntry pick sink msg lvl t =>
      WriteEntry pick enc sink msg lvl t;; mret tt
  | OpFree => Free enc
  end.

Fixpoint perform_all (ops : list operation) (enc : loc) : M unit :=
  match ops with
  | [] => mret tt
  | op :: ops' => perform op enc;; perform_all ops' enc
  end.

(** The locations in the pool are allocated: they are encoders that were
    released.  Every world a Go program reaches is of this kind. *)
Definition pool_allocated (w : world) : Prop :=
  Forall (λ l, is_Some (heap w !! l)) (textPool w).

(** Moreover no encoder is in the pool twice: none was released twice. *)
Definition pool_ok (w : world) : Prop :=
  NoDup (textPool w) ∧ pool_allocated w.

(** ** What the specification says, in its own terms *)

(** The sum of the byte values of a key, as a mathematical integer. *)
Fixpoint byte_sum (key : string) : Z :=
  match key with
  | EmptyString => 0
  | String c key' => byte_value c + byte_sum key'
  end.

(** The palette index of a key: the sum modulo 7, plus 1. *)
Definition palette_index (key : string) : Z := byte_sum key mod 7 + 1.

(** The fields found in a buffer: a key with the text of its value, or a key
    with the frame of fields of a nested object. *)
Inductive emitted : Type :=
| Scalar (key text : string)
| Nested (key : string) (fields : list emitted).

(** The fields a callback emits, with the error it returns: the calls it
    makes in order, each value in its natural text form. *)
Fixpoint emitted_by (obj : LogMarshaler) : list emitted * option error :=
  match obj with
  | Return err => ([], err)
  | Do c k =>
      let (f, r) := emitted_by_call c in
      let (fs, err) := emitted_by (k r) in
      (f :: fs, err)
  end
with emitted_by_call (c : call) : emitted * option error :=
  match c with
  | CallAddString key val => (Scalar key val, None)
  | CallAddBool key val => (Scalar key (strconv.FormatBool val), None)
  | CallAddInt key val => (Scalar key (strconv.FormatInt val 10), None)
  | CallAddInt64 key val => (Scalar key (strconv.FormatInt val 10), None)
  | CallAddUint key val => (Scalar key (strconv.FormatUint val 10), None)
  | CallAddUint64 key val => (Scalar key (strconv.FormatUint val 10), None)
  | CallAddUintptr key val =>
      (Scalar key ("0x" +:+ strconv.FormatUint val 16), None)
  | CallAddFloat64 key val => (Scalar key (strconv.FormatFloat val), None)
  | CallAddMarshaler key obj =>
      let (fs, err) := emitted_by obj in (Nested key fs, err)
  | CallAddObject key obj => (Scalar key (fmt.Sprintf_plus_v obj), None)
  end.

(** The separator in front of a field: none in front of the first field of
    the buffer or of a frame, one space in front of any other. *)
Definition separator (first : bool) : string := if first then "" else " ".

(** The text of a field, [first] telling whether it is the first field of the
    buffer or of its frame; the key is coloured as [addKey] colours it. *)
Fixpoint render_field (first : bool) (f : emitted) : string :=
  match f with
  | Scalar key text =>
      separator first +:+ Sprintf_key (key_color key) key +:+ "=" +:+ text
  | Nested key fields =>
      separator first +:+ Sprintf_key (key_color key) key +:+ "=" +:+ "{"
      +:+ (fix frame (first : bool) (fs : list emitted) : string :=
             match fs with
             | [] => ""
             | f :: fs' => render_field first f +:+ frame false fs'
             end) true fields
      +:+ "}"
  end.

Fixpoint render_fields (first : bool) (fs : list emitted) : string :=
  match fs with
  | [] => ""
  | f :: fs' => render_field first f +:+ render_fields false fs'
  end.

(** The next field added to [enc] is the first of the buffer or of a frame. *)
Definition at_start (enc : textEncoder) : bool :=
  (String.length (bytes enc) =? 0)%nat || firstNested enc.

Definition emitted_key (f : emitted) : string :=
  match f with
  | Scalar key _ | Nested key _ => key
  end.

(** The text of a field after its [=]. *)
Definition emitted_value (f : emitted) : string :=
  match f with
  | Scalar _ text => text
  | Nested _ fields => "{" +:+ render_fields true fields +:+ "}"
  end.

(** The table of level tags as the code has it: the colour code and the
    bracketed abbreviation of each recognised level. *)
Definition level_table : list (Level * (string * string)) :=
  [ (DebugLevel, ("32", "[DEBG]"));
    (InfoLevel, ("34", "[INFO]"));
    (WarnLevel, ("33", "[WARN]"));
    (ErrorLevel, ("31", "[ERRO]"));
    (PanicLevel, ("31", "[PANC]"));
    (FatalLevel, ("31", "[FATA]")) ].

Fixpoint table_lookup (lvl : Level) (tbl : list (Level * (string * string)))
  : option (string * string) :=
  match tbl with
  | [] => None
  | (l, entry) :: tbl' => if lvl =? l then Some entry else table_lookup lvl tbl'
  end.

(** The tag of a level, as the table gives it. *)
Definition level_text (lvl : Level) : string :=
  match table_lookup lvl level_table with
  | Some (colour, tag) =>
      ESC +:+ "[" +:+ colour +:+ ";1m" +:+ tag +:+ ESC +:+ "[0m"
  | None => strconv.FormatInt lvl 10
  end.

(** The escape sequence that opens the tag of a level: the first seven bytes
    [addLevel] writes for it. *)
Definition tag_colour (lvl : Level) : string :=
  String.substring 0 7 (bytes (addLevel textPool_New textPool_New lvl)).

(** The five classes of recognised levels the specification speaks of; panic
    and fatal form the fatal class. *)
Definition level_class (lvl : Level) : option nat :=
  if lvl =? DebugLevel then Some 0%nat
  else if lvl =? InfoLevel then Some 1%nat
  else if lvl =? WarnLevel then Some 2%nat
  else if lvl =? ErrorLevel then Some 3%nat
  else if (lvl =? PanicLevel) || (lvl =? FatalLevel) then Some 4%nat
  else None.

(** The message, left-justified in a field of at least 25 characters. *)
Definition padded (msg : string) : string :=
  msg +:+ spaces (25 - utf8.RuneCountInString msg).

(** The line of an entry: the level tag; a space and the time, unless the
    layout is empty; a space and the padded message, unless the message is
    empty; a space and the fields, unless there are none; a line feed. *)
Definition entry_line (e : textEncoder) (msg : string) (lvl : Level)
    (t : time.Time) : string :=
  level_text lvl
  +:+ (if String.eqb (timeFmt e) "" then ""
       else " " +:+ time.Format t (timeFmt e))
  +:+ (if String.eqb msg "" then "" else " " +:+ padded msg)
  +:+ (if String.eqb (bytes e) "" then "" else " " +:+ bytes e)
  +:+ LF.

(** What [WriteEntry] returns once the sink has answered for [line]. *)
Definition write_outcome (sink : Writer) (line : string) : option error :=
  match Write sink line with
  | (_, Some err) => Some err
  | (n, None) =>
      if n =? len line then None else Some (incomplete_write n (len line))
  end.

(** ** The scenario of the specification and some instances *)

(** The login scenario: an encoder built with the default options receives
    the string field ["user" -> "alice"] and is rendered at the info level
    with the message ["login"]. *)
Definition login_scenario (pick1 pick2 : option nat) (sink : Writer)
    (t : time.Time) : M (list string * option error) :=
  enc ← NewColorEncoder pick1 [];
  on enc (λ e, (AddString "user" "alice" e, tt));;
  WriteEntry pick2 enc (Some sink) "login" InfoLevel t.

Definition login_line (t : time.Time) : string :=
  ESC +:+ "[34;1m[INFO]" +:+ ESC +:+ "[0m"
  +:+ " " +:+ time.Format t time.RFC3339
  +:+ " " +:+ "login" +:+ spaces 20
  +:+ " " +:+ ESC +:+ "[37;1muser" +:+ ESC +:+ "[0m" +:+ "=alice"
  +:+ LF.

(** An encoder in use that holds the field ["user" -> "alice"], next to a
    released encoder that waits in the pool. *)
Definition example_encoder : textEncoder :=
  AddString "user" "alice" (set_timeFmt time.RFC3339 textPool_New).

Definition example_world : world :=
  World (<[0%nat := example_encoder]> (<[1%nat := textPool_New]> ∅)) [1%nat].

(** A sink that claims to have written three bytes, and one that takes all. *)
Definition short_sink : Writer := MkWriter (λ _, (3, None)).
Definition full_sink : Writer := MkWriter (λ b, (len b, None)).

Definition example_time : time.Time :=
  time.MkTime (λ _, "2016-08-01T12:00:00Z").

(** A callback that emits one field and then fails. *)
Definition failing_marshaler : LogMarshaler :=
  Do (CallAddInt "n" 5) (λ _, Return (Some (foreignError 7))).

(** ** Notions used in the proofs *)

(** What a call and a callback leave in the encoder. *)
Definition call_post (c : call) (enc : textEncoder) : Prop :=
  dispatch c enc =
  ({| bytes := bytes enc +:+ render_field (at_start enc) (emitted_by_call c).1;
      timeFmt := timeFmt enc;
      firstNested := false |},
   (emitted_by_call c).2).

Definition callback_post (obj : LogMarshaler) (enc : textEncoder) : Prop :=
  let r := MarshalLog obj enc in
  bytes r.1 = bytes enc +:+ render_fields (at_start enc) (emitted_by obj).1
  ∧ timeFmt r.1 = timeFmt enc
  ∧ ((emitted_by obj).1 = [] → r.1 = enc)
  ∧ ((emitted_by obj).1 ≠ [] → firstNested r.1 = false)
  ∧ r.2 = (emitted_by obj).2.

(** The digits of a text read in a base, without any bound on the value. *)
Fixpoint digits_value (base : N) (s : string) (n : N) : option N :=
  match s with
  | EmptyString => Some n
  | String c s' =>
      match strconv.digit_value c with
      | Some d =>
          if (d <? base)%N then digits_value base s' (n * base + d)%N else None
      | None => None
      end
  end.

(** The assembly of the line in the encoder [f] taken from the pool. *)
Definition assemble (e f : textEncoder) (msg : string) (lvl : Level)
    (t : time.Time) : textEncoder :=
  let final := truncate f in
  let final := addLevel e final lvl in
  let final := addTime e final t in
  let final := addMessage e final msg in
  let final :=
    if 0 <? len (bytes e)
    then append_bytes (bytes e) (append_bytes " " final)
    else final in
  append_bytes LF final.

(** [m] runs to completion from [w], and [Q] holds of its result. *)
Definition wp {A : Type} (m : M A) (Q : A → world → Prop) (w : world) : Prop :=
  ∃ a w', m w = Some (a, w') ∧ Q a w'.

(** The encoder at [b] is [eb] and is not in the pool; the pooled locations
    and those of [L] are allocated. *)
Definition keeps (L : list loc) (b : loc) (eb : textEncoder) (w : world)
  : Prop :=
  heap w !! b = Some eb
  ∧ (b ∉ textPool w)
  ∧ (∀ l, l ∈ textPool w → is_Some (heap w !! l))
  ∧ (∀ l, l ∈ L → is_Some (heap w !! l)).

(** ** Further notions: whole runs of the encoder *)

(** A byte below 0x80. *)
Definition is_ascii (c : ascii) : bool := (N_of_ascii c <? 128)%N.

(** The sum of the values of a list of bytes. *)
Definition bytes_total (l : list ascii) : Z :=
  foldr (λ c total, byte_value c + total) 0 l.

(** The time format an encoder ends with when it is built with the options
    [TextTimeFormat layout] for the layouts of a list, in order: the last
    layout, or the default. *)
Definition final_layout (layouts : list string) : string :=
  default time.RFC3339 (last layouts).

(** One entry from start to end: an encoder is built with some options, a
    caller accumulates fields on it, and the entry is rendered. *)
Definition log_entry (pick1 pick2 : option nat) (options : list TextOption)
    (obj : LogMarshaler) (sink : Writer) (msg : string) (lvl : Level)
    (t : time.Time) : M (list string * option error) :=
  enc ← NewColorEncoder pick1 options;
  on enc (MarshalLog obj);;
  WriteEntry pick2 enc (Some sink) msg lvl t.

(** A call of [WriteEntry]: the choice of the pool, the sink, the message,
    the level and the time. *)
Definition request : Type := option nat * Writer * string * Level * time.Time.

(** Several entries rendered one after the other from the same encoder. *)
Fixpoint write_entries (enc : loc) (reqs : list request)
  : M (list (list string * option error)) :=
  match reqs with
  | [] => mret []
  | (pick, sink, msg, lvl, t) :: reqs' =>
      r ← WriteEntry pick enc (Some sink) msg lvl t;
      rs ← write_entries enc reqs';
      mret (r :: rs)
  end.

(** What a request is answered when the encoder holds [e]. *)
Definition answer (e : textEncoder) (req : request)
  : list string * option error :=
  let '(_, sink, msg, lvl, t) := req in
  ([entry_line e msg lvl t], write_outcome sink (entry_line e msg lvl t)).

(** A clone receives one more field; then the clone and the original are
    rendered.  The result is what the sink was handed for each. *)
Definition child_entries (pick1 pick2 pick3 : option nat) (enc : loc)
    (c : call) (sink : Writer) (msg : string) (lvl : Level) (t : time.Time)
  : M (list string * list string) :=
  clone ← Clone pick1 enc;
  on clone (dispatch c);;
  a ← WriteEntry pick2 clone (Some sink) msg lvl t;
  b ← WriteEntry pick3 enc (Some sink) msg lvl t;
  mret (a.1, b.1).

(** An encoder is released, and the pool hands it out again at once. *)
Definition recycle (enc : loc) (options : list TextOption) : M loc :=
  Free enc;; NewColorEncoder (Some 0%nat) options.

(** ** The buffers in memory

    In the embedding above the buffer of an encoder is a value.  Here it is
    a Go slice: a pointer to a backing array, a length and a capacity.
    [append] writes into the backing array when the capacity allows and moves
    to a new array otherwise, so that two slices on one array interfere.  The
    methods are embedded a second time on this memory, statement by
    statement; [growslice] stands for the capacity the runtime chooses when
    it has to move a slice. *)

(** The bytes of the encoder of the instances. *)
Definition example_bytes : list ascii :=
  list_ascii_of_string (bytes example_encoder).

Module Mem.

Definition addr : Type := nat.

Record slice : Type := Slice { ptr : addr; slen : nat; scap : nat }.

Record textEncoder : Type := mkTextEncoder {
  bytes : slice;
  timeFmt : string;
  firstNested : bool
}.

Record memory : Type := Memory {
  arrays : gmap addr (list ascii);
  heap : gmap loc textEncoder;
  textPool : list loc
}.

(** Computations on the memory; [None] stands for an access that no Go
    program can perform: a location or an array that was never allocated. *)
Definition M (A : Type) : Type := memory -> option (A * memory).

#[export] Instance M_ret : MRet M := fun A a m => Some (a, m).

#[export] Instance M_bind : MBind M := fun A B f c m =>
  match c m with
  | Some (a, m') => f a m'
  | None => None
  end.

Definition load (l : loc) : M textEncoder := fun m =>
  match heap m !! l with
  | Some e => Some (e, m)
  | None => None
  end.

Definition store (l : loc) (e : textEncoder) : M unit := fun m =>
  Some (tt, Memory (arrays m) (<[l := e]> (heap m)) (textPool m)).

Definition update (l : loc) (f : textEncoder -> textEncoder) : M unit :=
  e ← load l; store l (f e).

Definition read (a : addr) : M (list ascii) := fun m =>
  match arrays m !! a with
  | Some arr => Some (arr, m)
  | None => None
  end.

Definition write (a : addr) (arr : list ascii) : M unit := fun m =>
  Some (tt, Memory (<[a := arr]> (arrays m)) (heap m) (textPool m)).

(** A new backing array. *)
Definition alloc (arr : list ascii) : M addr := fun m =>
  let a := fresh (dom (arrays m)) in
  Some (a, Memory (<[a := arr]> (arrays m)) (heap m) (textPool m)).

(** The bytes [s[0:len(s)]]. *)
Definition contents (s : slice) : M (list ascii) :=
  arr ← read (ptr s); mret (take (slen s) arr).

(** [s[:0]] *)
Definition reslice0 (s : slice) : slice := Slice (ptr s) 0 (scap s).

(** [append(s, xs...)]: in place when the capacity allows, in a new array of
    the capacity the runtime chooses otherwise. *)
Definition append (growslice : nat -> nat -> nat) (s : slice) (xs : list ascii)
  : M slice :=
  let needed := (slen s + length xs)%nat in
  arr ← read (ptr s);
  if (needed <=? scap s)%nat then
    write (ptr s) (take (slen s) arr ++ xs ++ drop needed arr);;
    mret (Slice (ptr s) needed (scap s))
  else
    let newcap := Nat.max needed (growslice (scap s) needed) in
    a ← alloc (take (slen s) arr ++ xs ++ replicate (newcap - needed) zero);
    mret (Slice a needed newcap).

Definition set_bytes (s : slice) (enc : textEncoder) : textEncoder :=
  {| bytes := s; timeFmt := timeFmt enc; firstNested := firstNested enc |}.

Definition set_timeFmt (layout : string) (enc : textEncoder) : textEncoder :=
  {| bytes := bytes enc; timeFmt := layout; firstNested := firstNested enc |}.

Definition set_firstNested (b : bool) (enc : textEncoder) : textEncoder :=
  {| bytes := bytes enc; timeFmt := timeFmt enc; firstNested := b |}.

(** [enc.bytes = append(enc.bytes, xs...)] *)
Definition append_bytes (growslice : nat -> nat -> nat) (enc : loc)
    (xs : list ascii) : M unit :=
  e ← load enc;
  s ← append growslice (bytes e) xs;
  update enc (set_bytes s).

(** The same for a string or a literal. *)
Definition append_string (growslice : nat -> nat -> nat) (enc : loc)
    (xs : string) : M unit :=
  append_bytes growslice enc (list_ascii_of_string xs).

Definition truncate (enc : loc) : M unit :=
  update enc (fun e => set_bytes (reslice0 (bytes e)) e).

Definition initialBufSize : nat := 4096.

(** [textPool.Get()]: a pooled encoder at the choice of the pool, or the
    result of [New], an encoder on a new array of [initialBufSize] bytes. *)
Definition Get (pick : option nat) : M loc := fun m =>
  match pick ≫= (fun i => textPool m !! i) with
  | Some l =>
      Some (l, Memory (arrays m) (heap m)
                 (delete (default 0%nat pick) (textPool m)))
  | None =>
      let a := fresh (dom (arrays m)) in
      let l := fresh (dom (heap m)) in
      Some (l, Memory (<[a := replicate initialBufSize zero]> (arrays m))
                 (<[l := {| bytes := Slice a 0%nat initialBufSize;
                            timeFmt := ""; firstNested := false |}]> (heap m))
                 (textPool m))
  end.

Definition Put (l : loc) : M unit := fun m =>
  Some (tt, Memory (arrays m) (heap m) (l :: textPool m)).

Fixpoint apply_options (enc : loc) (options : list (loc -> M unit)) : M unit :=
  match options with
  | [] => mret tt
  | opt :: options' => opt enc;; apply_options enc options'
  end.

Definition TextTimeFormat (layout : string) : loc -> M unit :=
  fun enc => update enc (set_timeFmt layout).

Definition TextNoTime : loc -> M unit := TextTimeFormat "".

Definition NewColorEncoder (pick : option nat) (options : list (loc -> M unit))
  : M loc :=
  enc ← Get pick;
  truncate enc;;
  update enc (set_timeFmt time.RFC3339);;
  apply_options enc options;;
  mret enc.

Definition Free (enc : loc) : M unit := Put enc.

Definition addKey (growslice : nat -> nat -> nat) (enc : loc) (key : string)
  : M unit :=
  e ← load enc;
  let lastIdx := Z.of_nat (slen (bytes e)) - 1 in
  (if (0 <=? lastIdx) && negb (firstNested e)
   then append_string growslice enc " "
   else update enc (set_firstNested false));;
  let color := key_color key in
  append_string growslice enc (Sprintf_key color key);;
  append_string growslice enc "=".

Definition AddString (growslice : nat -> nat -> nat) (enc : loc)
    (key val : string) : M unit :=
  addKey growslice enc key;;
  append_string growslice enc val.

(** [strconv.AppendBool(dst, v)], [AppendInt], [AppendUint] and [AppendFloat]
    are [append(dst, s...)] for the text [s] that [FormatBool(v)] and so on
    return. *)
Definition AddBool (growslice : nat -> nat -> nat) (enc : loc) (key : string)
    (val : bool) : M unit :=
  addKey growslice enc key;;
  append_string growslice enc (strconv.FormatBool val).

Definition AddInt64 (growslice : nat -> nat -> nat) (enc : loc) (key : string)
    (val : Z) : M unit :=
  addKey growslice enc key;;
  append_string growslice enc (strconv.FormatInt val 10).

Definition AddInt (growslice : nat -> nat -> nat) (enc : loc) (key : string)
    (val : Z) : M unit :=
  AddInt64 growslice enc key val.

Definition AddUint64 (growslice : nat -> nat -> nat) (enc : loc) (key : string)
    (val : N) : M unit :=
  addKey growslice enc key;;
  append_string growslice enc (strconv.FormatUint val 10).

Definition AddUint (growslice : nat -> nat -> nat) (enc : loc) (key : string)
    (val : N) : M unit :=
  AddUint64 growslice enc key val.

Definition AddUintptr (growslice : nat -> nat -> nat) (enc : loc)
    (key : string) (val : N) : M unit :=
  addKey growslice enc key;;
  append_string growslice enc "0x";;
  append_string growslice enc (strconv.FormatUint val 16).

Definition AddFloat64 (growslice : nat -> nat -> nat) (enc : loc)
    (key : string) (val : strconv.float64) : M unit :=
  addKey growslice enc key;;
  append_string growslice enc (strconv.FormatFloat val).

Definition AddObject (growslice : nat -> nat -> nat) (enc : loc)
    (key : string) (obj : fmt.object) : M (option error) :=
  AddString growslice enc key (fmt.Sprintf_plus_v obj);;
  mret None.

(** [obj.MarshalLog(enc)] and the dispatch of one call, on the memory; the
    case of [CallAddMarshaler] is the body of [AddMarshaler]. *)
Fixpoint MarshalLog (growslice : nat -> nat -> nat) (obj : LogMarshaler)
    (enc : loc) : M (option error) :=
  match obj with
  | Return err => mret err
  | Do c k =>
      r ← dispatch growslice c enc;
      MarshalLog growslice (k r) enc
  end
with dispatch (growslice : nat -> nat -> nat) (c : call) (enc : loc)
  : M (option error) :=
  match c with
  | CallAddString key val => AddString growslice enc key val;; mret None
  | CallAddBool key val => AddBool growslice enc key val;; mret None
  | CallAddInt key val => AddInt growslice enc key val;; mret None
  | CallAddInt64 key val => AddInt64 growslice enc key val;; mret None
  | CallAddUint key val => AddUint growslice enc key val;; mret None
  | CallAddUint64 key val => AddUint64 growslice enc key val;; mret None
  | CallAddUintptr key val => AddUintptr growslice enc key val;; mret None
  | CallAddFloat64 key val => AddFloat64 growslice enc key val;; mret None
  | CallAddMarshaler key obj =>
      addKey growslice enc key;;
      update enc (set_firstNested true);;
      append_string growslice enc "{";;
      err ← MarshalLog growslice obj enc;
      append_string growslice enc "}";;
      update enc (set_firstNested false);;
      mret err
  | CallAddObject key obj => AddObject growslice enc key obj
  end.

Definition AddMarshaler (growslice : nat -> nat -> nat) (enc : loc)
    (key : string) (obj : LogMarshaler) : M (option error) :=
  addKey growslice enc key;;
  update enc (set_firstNested true);;
  append_string growslice enc "{";;
  err ← MarshalLog growslice obj enc;
  append_string growslice enc "}";;
  update enc (set_firstNested false);;
  mret err.

Definition Clone (growslice : nat -> nat -> nat) (pick : option nat)
    (enc : loc) : M loc :=
  clone ← Get pick;
  truncate clone;;
  e ← load enc; xs ← contents (bytes e); append_bytes growslice clone xs;;
  e ← load enc; update clone (set_timeFmt (timeFmt e));;
  e ← load enc; update clone (set_firstNested (firstNested e));;
  mret clone.

Definition addLevel (growslice : nat -> nat -> nat) (enc final : loc)
    (lvl : Level) : M unit :=
  if lvl =? DebugLevel then
    append_string growslice final (ESC +:+ "[32;1m[DEBG]" +:+ ESC +:+ "[0m")
  else if lvl =? InfoLevel then
    append_string growslice final (ESC +:+ "[34;1m[INFO]" +:+ ESC +:+ "[0m")
  else if lvl =? WarnLevel then
    append_string growslice final (ESC +:+ "[33;1m[WARN]" +:+ ESC +:+ "[0m")
  else if lvl =? ErrorLevel then
    append_string growslice final (ESC +:+ "[31;1m[ERRO]" +:+ ESC +:+ "[0m")
  else if lvl =? PanicLevel then
    append_string growslice final (ESC +:+ "[31;1m[PANC]" +:+ ESC +:+ "[0m")
  else if lvl =? FatalLevel then
    append_string growslice final (ESC +:+ "[31;1m[FATA]" +:+ ESC +:+ "[0m")
  else
    append_string growslice final (strconv.FormatInt lvl 10).

Definition addTime (growslice : nat -> nat -> nat) (enc final : loc)
    (t : time.Time) : M unit :=
  e ← load enc;
  if String.eqb (timeFmt e) "" then mret tt
  else
    append_string growslice final " ";;
    e ← load enc;
    append_string growslice final (time.Format t (timeFmt e)).

Definition addMessage (growslice : nat -> nat -> nat) (enc final : loc)
    (msg : string) : M unit :=
  if negb (String.eqb msg "") then
    append_string growslice final " ";;
    append_string growslice final (fmt.Sprintf_left25 msg)
  else mret tt.

Definition WriteEntry (growslice : nat -> nat -> nat) (pick : option nat)
    (enc : loc) (sink : option Writer) (msg : string) (lvl : Level)
    (t : time.Time) : M (list string * option error) :=
  match sink with
  | None => mret ([], Some (errorString "NIL SINK ERR - wut"))
  | Some sink =>
      final ← Get pick;
      truncate final;;
      addLevel growslice enc final lvl;;
      addTime growslice enc final t;;
      addMessage growslice enc final msg;;
      e ← load enc;
      (if (0 <? slen (bytes e))%nat then
         append_string growslice final " ";;
         e ← load enc; xs ← contents (bytes e);
         append_bytes growslice final xs
       else mret tt);;
      append_string growslice final LF;;
      f ← load final;
      let expectedBytes := Z.of_nat (slen (bytes f)) in
      line ← contents (bytes f);
      let '(n, err) := Write sink (string_of_list_ascii line) in
      Free final;;
      match err with
      | Some err => mret ([string_of_list_ascii line], Some err)
      | None =>
          if negb (n =? expectedBytes)
          then mret ([string_of_list_ascii line],
                     Some (incomplete_write n expectedBytes))
          else mret ([string_of_list_ascii line], None)
      end
  end.

Definition perform (growslice : nat -> nat -> nat) (op : operation) (enc : loc)
  : M unit :=
  match op with
  | OpAdd c => dispatch growslice c enc;; mret tt
  | OpClone pick => Clone growslice pick enc;; mret tt
  | OpWriteEntry pick sink msg lvl t =>
      WriteEntry growslice pick enc sink msg lvl t;; mret tt
  | OpFree => Free enc
  end.

Fixpoint perform_all (growslice : nat -> nat -> nat) (ops : list operation)
    (enc : loc) : M unit :=
  match ops with
  | [] => mret tt
  | op :: ops' => perform growslice op enc;; perform_all growslice ops' enc
  end.

(** What an encoder shows: the bytes of its buffer, its time format and its
    flag. *)
Definition snapshot (m : memory) (l : loc)
  : option (list ascii * string * bool) :=
  e ← heap m !! l;
  arr ← arrays m !! ptr (bytes e);
  Some (take (slen (bytes e)) arr, timeFmt e, firstNested e).

(** The slice lies within an allocated array. *)
Definition slice_ok (m : memory) (s : slice) : Prop :=
  ∃ arr, arrays m !! ptr s = Some arr
         ∧ (slen s <= scap s)%nat ∧ (scap s <= length arr)%nat.

(** Every encoder has a buffer within an allocated array, no two encoders
    have their buffers on the same array, and the pool holds allocated
    encoders.  Every memory a Go program reaches is of this kind. *)
Definition mem_ok (m : memory) : Prop :=
  (∀ l e, heap m !! l = Some e → slice_ok m (bytes e))
  ∧ (∀ l1 l2 e1 e2, heap m !! l1 = Some e1 → heap m !! l2 = Some e2 →
       ptr (bytes e1) = ptr (bytes e2) → l1 = l2)
  ∧ (∀ l, l ∈ textPool m → is_Some (heap m !! l)).

(** A computation runs to completion from [m], and [Q] holds of its result. *)
Definition wp {A : Type} (c : M A) (Q : A → memory → Prop) (m : memory)
  : Prop :=
  ∃ a m', c m = Some (a, m') ∧ Q a m'.

(** An encoder that is in use: its record, the array of its buffer. *)
Definition kept : Type := loc * textEncoder * list ascii.

(** The encoder at [b] is [eb] on the array [arrb]; it is not in the pool and
    is not one of [L]. *)
Definition untouched (L : list loc) (m : memory) (x : kept) : Prop :=
  let '(b, eb, arrb) := x in
  heap m !! b = Some eb
  ∧ arrays m !! ptr (bytes eb) = Some arrb
  ∧ (b ∉ textPool m)
  ∧ (b ∉ L).

(** The memory is well formed, the locations of [L] are allocated and the
    encoders of [P] are as [P] says. *)
Definition keeps (L : list loc) (P : list kept) (m : memory) : Prop :=
  mem_ok m
  ∧ (∀ l, l ∈ L → is_Some (heap m !! l))
  ∧ (∀ x, x ∈ P → untouched L m x).

(** Operations on two encoders in some order: [true] is a turn of the first
    encoder, [false] a turn of the second. *)
Fixpoint perform_turns (growslice : nat -> nat -> nat)
    (turns : list (bool * operation)) (enc clone : loc) : M unit :=
  match turns with
  | [] => mret tt
  | (first, op) :: turns' =>
      perform growslice op (if first then enc else clone);;
      perform_turns growslice turns' enc clone
  end.

(** An encoder in use that holds the field ["user" -> "alice"] in a buffer of
    64 bytes, next to a released encoder with a buffer of 4 bytes that waits
    in the pool. *)
Definition example_memory : memory :=
  Memory
    (<[0%nat := example_bytes ++ replicate (64 - length example_bytes) zero]>
       (<[1%nat := replicate 4 zero]> ∅))
    (<[0%nat := {| bytes := Slice 0%nat (length example_bytes) 64%nat;
                   timeFmt := time.RFC3339; firstNested := false |}]>
       (<[1%nat := {| bytes := Slice 1%nat 0%nat 4%nat;
                      timeFmt := ""; firstNested := false |}]> ∅))
    [1%nat].

(** A growth policy: twice the capacity. *)
Definition example_growslice (cap needed : nat) : nat := (2 * cap)%nat.

(** A memory that no run of the package reaches: the buffers of two encoders
    lie on one array, as after [clone.bytes = enc.bytes]; the first encoder
    has since received three more bytes. *)
Definition shared_memory : memory :=
  Memory
    (<[0%nat := list_ascii_of_string "ab" ++ list_ascii_of_string "cde"
                ++ replicate 59 zero]> ∅)
    (<[0%nat := {| bytes := Slice 0%nat 5%nat 64%nat;
                   timeFmt := time.RFC3339; firstNested := false |}]>
       (<[1%nat := {| bytes := Slice 0%nat 2%nat 64%nat;
                      timeFmt := time.RFC3339; firstNested := false |}]> ∅))
    [].

End Mem.

(** ** The world of values that a memory shows *)

(** The encoder of the first embedding that an encoder in memory shows: the
    bytes of its slice, its time format and its flag. *)
Definition view_enc (arrs : gmap Mem.addr (list ascii)) (e : Mem.textEncoder)
  : option textEncoder :=
  arr ← arrs !! Mem.ptr (Mem.bytes e);
  Some {| bytes := string_of_list_ascii (take (Mem.slen (Mem.bytes e)) arr);
          timeFmt := Mem.timeFmt e;
          firstNested := Mem.firstNested e |}.

Definition view (m : Mem.memory) : world :=
  World (omap (view_enc (Mem.arrays m)) (Mem.heap m)) (Mem.textPool m).

(** The computation [c] on the memory and the computation [c'] on the world
    that the memory shows run to results that [Q] relates, and the memory
    reached shows the world reached. *)
Definition sim {A B : Type} (c : Mem.M A) (c' : M B)
    (Q : A → B → Mem.memory → Prop) (m : Mem.memory) : Prop :=
  ∃ a b m', c m = Some (a, m') ∧ c' (view m) = Some (b, view m') ∧ Q a b m'.

(** The memory shows the world [w0], except that the encoder at [l] shows
    [ea]. *)
Definition tracks (L : list loc) (P : list Mem.kept) (l : loc)
    (ea : textEncoder) (w0 : world) (m : Mem.memory) : Prop :=
  Mem.keeps L P m ∧ l ∈ L
  ∧ view m = World (<[l := ea]> (heap w0)) (textPool w0).

(** * Proofs *)

(** ** Byte strings *)

Lemma app_empty_r (s : string) : s +:+ "" = s.
Proof. induction s as [|c s IH]; simpl; [reflexivity | now rewrite IH]. Qed.

Lemma app_empty_l (s : string) : "" +:+ s = s.
Proof. reflexivity. Qed.

Lemma app_assoc_s (s1 s2 s3 : string) :
  (s1 +:+ s2) +:+ s3 = s1 +:+ (s2 +:+ s3).
Proof. induction s1 as [|c s1 IH]; simpl; [reflexivity | now rewrite IH]. Qed.

Lemma length_app_s (s1 s2 : string) :
  String.length (s1 +:+ s2) = (String.length s1 + String.length s2)%nat.
Proof. induction s1 as [|c s1 IH]; simpl; [reflexivity | now rewrite IH]. Qed.

Lemma render_frame_eq (first : bool) (fs : list emitted) :
  (fix frame (first : bool) (fs : list emitted) : string :=
     match fs with
     | [] => ""
     | f :: fs' => render_field first f +:+ frame false fs'
     end) first fs = render_fields first fs.
Proof.
  revert first. induction fs as [|f fs IH]; intros first; [reflexivity|].
  simpl. now rewrite IH.
Qed.

Lemma render_field_Scalar (first : bool) (key text : string) :
  render_field first (Scalar key text) =
  separator first +:+ Sprintf_key (key_color key) key +:+ "=" +:+ text.
Proof. reflexivity. Qed.

Lemma render_field_Nested (first : bool) (key : string) (fs : list emitted) :
  render_field first (Nested key fs) =
  separator first +:+ Sprintf_key (key_color key) key +:+ "=" +:+ "{"
  +:+ render_fields true fs +:+ "}".
Proof. simpl. now rewrite render_frame_eq. Qed.

(** ** The colour of a key *)

Lemma byte_value_range (c : ascii) : 0 <= byte_value c <= 255.
Proof.
  unfold byte_value. pose proof (N_ascii_bounded c) as H. lia.
Qed.

Lemma int_wrap_small (z : Z) :
  - 2 ^ 63 <= z <= MaxInt -> int_wrap z = z.
Proof.
  unfold int_wrap, MaxInt, intSize. intros H.
  change (2 ^ (64 - 1)) with 9223372036854775808 in *.
  change (2 ^ 64) with 18446744073709551616.
  change (2 ^ 63) with 9223372036854775808 in H.
  rewrite Z.mod_small by lia. lia.
Qed.

Lemma MaxInt_eq : MaxInt = 9223372036854775807.
Proof. reflexivity. Qed.

Lemma sum_loop_exact (key : string) (acc : Z) :
  0 <= acc -> acc + 255 * len key <= MaxInt ->
  sum_loop acc key = acc + byte_sum key.
Proof.
  revert acc. induction key as [|c key IH]; intros acc Hacc Hfit; simpl.
  - lia.
  - pose proof (byte_value_range c) as Hc.
    unfold len in *. simpl String.length in Hfit.
    rewrite Nat2Z.inj_succ in Hfit.
    rewrite MaxInt_eq in *.
    rewrite int_wrap_small by (rewrite MaxInt_eq; lia).
    rewrite IH by lia. lia.
Qed.

Lemma byte_sum_nonneg (key : string) : 0 <= byte_sum key.
Proof.
  induction key as [|c key IH]; simpl; [lia|].
  pose proof (byte_value_range c). lia.
Qed.

Lemma key_color_palette (key : string) :
  255 * len key <= MaxInt -> key_color key = palette_index key.
Proof.
  intros Hfit. unfold key_color, palette_index.
  rewrite sum_loop_exact by lia. simpl.
  pose proof (byte_sum_nonneg key) as Hs.
  rewrite Z.rem_mod_nonneg by lia.
  pose proof (Z.mod_pos_bound (byte_sum key) 7 ltac:(lia)).
  apply int_wrap_small. rewrite MaxInt_eq. lia.
Qed.

Lemma palette_index_range (key : string) : 1 <= palette_index key <= 7.
Proof.
  unfold palette_index.
  pose proof (Z.mod_pos_bound (byte_sum key) 7 ltac:(lia)). lia.
Qed.

Lemma verb_d_palette (i : Z) :
  1 <= i <= 7 -> fmt.verb_d i = String (ascii_of_N (Z.to_N (48 + i))) "".
Proof.
  intros H.
  assert (i = 1 \/ i = 2 \/ i = 3 \/ i = 4 \/ i = 5 \/ i = 6 \/ i = 7) as Hi
    by lia.
  destruct Hi as [-> | [-> | [-> | [-> | [-> | [-> | ->]]]]]]; reflexivity.
Qed.

(** ** Field accumulation *)

Lemma at_start_test (enc : textEncoder) :
  (0 <=? Z.of_nat (String.length (bytes enc)) - 1) && negb (firstNested enc)
  = negb (at_start enc).
Proof.
  unfold at_start. rewrite negb_orb. f_equal.
  destruct (String.length (bytes enc)) as [|n]; simpl; [reflexivity|].
  apply Z.leb_le. lia.
Qed.

Lemma Sprintf_key_length (color : Z) (key : string) :
  (0 < String.length (Sprintf_key color key))%nat.
Proof. unfold Sprintf_key, ESC. simpl. lia. Qed.

#[local] Arguments Sprintf_key : simpl never.

Lemma addKey_spec (key : string) (enc : textEncoder) :
  addKey key enc =
  {| bytes := bytes enc +:+ separator (at_start enc)
              +:+ Sprintf_key (key_color key) key +:+ "=";
     timeFmt := timeFmt enc;
     firstNested := false |}.
Proof.
  unfold addKey. rewrite at_start_test.
  destruct (at_start enc) eqn:Hs; unfold append_bytes, set_bytes,
    set_firstNested, separator; cbn [negb bytes timeFmt firstNested].
  - rewrite app_empty_l. now rewrite !app_assoc_s.
  - unfold at_start in Hs. apply orb_false_elim in Hs as [_ ->].
    now rewrite !app_assoc_s.
Qed.

Lemma not_at_start (b : string) (layout : string) :
  (0 < String.length b)%nat ->
  at_start {| bytes := b; timeFmt := layout; firstNested := false |} = false.
Proof.
  intros H. unfold at_start. simpl. rewrite orb_false_r.
  apply Nat.eqb_neq. lia.
Qed.

Lemma at_start_frame (b : string) (layout : string) :
  at_start {| bytes := b; timeFmt := layout; firstNested := true |} = true.
Proof. unfold at_start. cbn [firstNested]. apply orb_true_r. Qed.

Lemma render_field_length (first : bool) (f : emitted) :
  (0 < String.length (render_field first f))%nat.
Proof.
  pose proof Sprintf_key_length as Hk.
  destruct f as [key text | key fs];
    [rewrite render_field_Scalar | rewrite render_field_Nested];
    rewrite !length_app_s; specialize (Hk (key_color key) key); lia.
Qed.

Lemma scalar_post (key text : string) (enc : textEncoder) :
  set_bytes (bytes (addKey key enc) +:+ text) (addKey key enc) =
  {| bytes := bytes enc +:+ render_field (at_start enc) (Scalar key text);
     timeFmt := timeFmt enc;
     firstNested := false |}.
Proof.
  rewrite addKey_spec, render_field_Scalar. unfold set_bytes.
  cbn [bytes timeFmt firstNested]. now rewrite !app_assoc_s.
Qed.

Ltac scalar_call :=
  intros; unfold call_post; cbn [dispatch emitted_by_call fst snd];
  unfold AddObject, AddInt, AddUint, AddString, AddBool, AddInt64,
    AddUint64, AddFloat64, append_bytes, strconv.AppendBool,
    strconv.AppendInt, strconv.AppendUint, strconv.AppendFloat;
  now rewrite scalar_post.

Lemma dispatch_MarshalLog_post :
  (∀ c enc, call_post c enc) ∧ (∀ obj enc, callback_post obj enc).
Proof.
  apply call_LogMarshaler_ind; try scalar_call.
  - (* AddUintptr *)
    intros key val enc. unfold call_post.
    cbn [dispatch emitted_by_call fst snd].
    unfold AddUintptr, append_bytes, strconv.AppendUint.
    rewrite <- scalar_post. unfold set_bytes.
    cbn [bytes timeFmt firstNested]. now rewrite !app_assoc_s.
  - (* AddMarshaler *)
    intros key obj IH enc. unfold call_post.
    cbn [dispatch emitted_by_call].
    destruct (IH (append_bytes "{" (set_firstNested true (addKey key enc))))
      as (Hb & Ht & _ & _ & He).
    destruct (MarshalLog obj _) as [enc' err].
    destruct (emitted_by obj) as [fs err'] eqn:Hem.
    cbn [fst snd] in *. subst err'.
    f_equal. unfold append_bytes, set_firstNested, set_bytes in *.
    cbn [bytes timeFmt firstNested] in *.
    rewrite Hb, Ht. rewrite addKey_spec. cbn [bytes timeFmt firstNested].
    rewrite render_field_Nested.
    rewrite at_start_frame.
    now rewrite !app_assoc_s.
  - (* Return *)
    intros err enc. unfold callback_post.
    cbn [MarshalLog emitted_by fst snd render_fields].
    rewrite app_empty_r. repeat split; try reflexivity. congruence.
  - (* Do *)
    intros c IHc k IHk enc. unfold callback_post.
    cbn [MarshalLog emitted_by].
    rewrite (IHc enc).
    destruct (emitted_by_call c) as [f r]. cbn [fst snd].
    set (enc1 := {| bytes := bytes enc +:+ render_field (at_start enc) f;
                    timeFmt := timeFmt enc; firstNested := false |}).
    destruct (IHk r enc1) as (Hb & Ht & Hnil & Hcons & He).
    destruct (emitted_by (k r)) as [fs err]. cbn [fst snd] in *.
    assert (at_start enc1 = false) as Hs.
    { apply not_at_start. rewrite length_app_s.
      pose proof (render_field_length (at_start enc) f). lia. }
    rewrite Hs in Hb.
    repeat split.
    + rewrite Hb. unfold enc1. cbn [bytes render_fields].
      now rewrite app_assoc_s.
    + rewrite Ht. reflexivity.
    + discriminate.
    + intros _. destruct fs as [|f' fs].
      * rewrite Hnil by reflexivity. reflexivity.
      * apply Hcons. discriminate.
    + exact He.
Qed.

Lemma dispatch_post (c : call) (enc : textEncoder) : call_post c enc.
Proof. apply dispatch_MarshalLog_post. Qed.

Lemma MarshalLog_post (obj : LogMarshaler) (enc : textEncoder) :
  callback_post obj enc.
Proof. apply dispatch_MarshalLog_post. Qed.

Lemma AddMarshaler_dispatch (key : string) (obj : LogMarshaler)
    (enc : textEncoder) :
  AddMarshaler key obj enc = dispatch (CallAddMarshaler key obj) enc.
Proof. reflexivity. Qed.

Lemma render_field_shape (first : bool) (f : emitted) :
  render_field first f =
  separator first +:+ Sprintf_key (key_color (emitted_key f)) (emitted_key f)
  +:+ "=" +:+ emitted_value f.
Proof.
  destruct f as [key text | key fs]; [reflexivity|].
  now rewrite render_field_Nested.
Qed.

Lemma emitted_key_call (c : call) :
  emitted_key (emitted_by_call c).1 = call_key c.
Proof.
  destruct c; try reflexivity.
  cbn [emitted_by_call]. now destruct (emitted_by obj).
Qed.

(** C1: every accumulation operation colours its key with the index
    [(sum of the bytes of the key) mod 7 + 1]; the index lies in [1,7], is a
    function of the key alone, and the key is written between the escape
    sequence of that index and the reset sequence, followed by [=]. *)
Theorem C1_key_colour (c : call) (enc : textEncoder) :
  255 * len (call_key c) <= MaxInt ->
  key_color (call_key c) = palette_index (call_key c)
  ∧ 1 <= palette_index (call_key c) <= 7
  ∧ bytes (dispatch c enc).1 =
      bytes enc +:+ separator (at_start enc)
      +:+ ESC +:+ "[3"
      +:+ String (ascii_of_N (Z.to_N (48 + palette_index (call_key c)))) ""
      +:+ ";1m" +:+ call_key c +:+ ESC +:+ "[0m"
      +:+ "=" +:+ emitted_value (emitted_by_call c).1.
Proof.
  intros Hfit.
  pose proof (palette_index_range (call_key c)) as Hr.
  split; [now apply key_color_palette|]. split; [exact Hr|].
  rewrite (dispatch_post c enc). cbn [fst bytes].
  rewrite render_field_shape, emitted_key_call.
  rewrite key_color_palette by exact Hfit.
  unfold Sprintf_key. rewrite verb_d_palette by exact Hr.
  now rewrite !app_assoc_s.
Qed.

(** C3: whatever calls are made on an encoder, the first field written into
    an empty buffer and the first field of a freshly opened frame have no
    space in front of them, and every other field has exactly one. *)
Theorem C3_separators (obj : LogMarshaler) (enc : textEncoder) :
  bytes (MarshalLog obj enc).1 =
  bytes enc +:+ render_fields (at_start enc) (emitted_by obj).1.
Proof. apply (MarshalLog_post obj enc). Qed.

(** C5: when the callback of a nested object returns an error, [AddMarshaler]
    returns that very error, and the buffer holds the coloured key, [=], the
    opening brace, the fields the callback emitted and the closing brace. *)
Theorem C5_nested_error (key : string) (obj : LogMarshaler)
    (enc : textEncoder) (err : error) :
  (MarshalLog obj
     (append_bytes "{" (set_firstNested true (addKey key enc)))).2 = Some err ->
  (AddMarshaler key obj enc).2 = Some err
  ∧ bytes (AddMarshaler key obj enc).1 =
      bytes enc +:+ separator (at_start enc)
      +:+ Sprintf_key (key_color key) key +:+ "=" +:+ "{"
      +:+ render_fields true (emitted_by obj).1 +:+ "}".
Proof.
  intros Herr.
  pose proof (MarshalLog_post obj
    (append_bytes "{" (set_firstNested true (addKey key enc))))
    as (_ & _ & _ & _ & He).
  rewrite Herr in He.
  rewrite AddMarshaler_dispatch, (dispatch_post _ enc).
  cbn [fst snd bytes emitted_by_call].
  destruct (emitted_by obj) as [fs err']. cbn [fst snd] in *.
  split; [congruence|].
  now rewrite render_field_Nested.
Qed.

(** C10: [AddObject] returns no error, whatever the key and the object; of
    all accumulation operations only [AddMarshaler] can return one, and it
    returns the one of its callback. *)
Theorem C10_AddObject_nil (key : string) (obj : fmt.object)
    (enc : textEncoder) :
  (AddObject key obj enc).2 = None
  ∧ ∀ (c : call) (enc' : textEncoder),
      (dispatch c enc').2 =
      match c with
      | CallAddMarshaler key' obj' =>
          (MarshalLog obj'
             (append_bytes "{" (set_firstNested true (addKey key' enc')))).2
      | _ => None
      end.
Proof.
  split; [reflexivity|].
  intros c enc'. destruct c; try reflexivity.
  cbn [dispatch]. now destruct (MarshalLog obj0 _).
Qed.

(** ** Numbers as text *)

Lemma small_N_cases (d : N) (P : N -> Prop) :
  (d < 36)%N ->
  Forall P (N.of_nat <$> seq 0 36) -> P d.
Proof.
  intros Hd HP. rewrite Forall_forall in HP. apply HP.
  apply list_elem_of_fmap. exists (N.to_nat d). split; [lia|].
  apply list_elem_of_In, in_seq. lia.
Qed.

Lemma digit_value_digit (d : N) :
  (d < 36)%N -> strconv.digit_value (strconv.digit d) = Some d.
Proof.
  intros Hd.
  apply (small_N_cases d (λ d, strconv.digit_value (strconv.digit d) = Some d));
    [exact Hd|].
  repeat constructor.
Qed.

Lemma digit_decimal (d : N) :
  (d < 10)%N -> is_decimal_byte (strconv.digit d) = true.
Proof.
  intros Hd.
  apply (small_N_cases d
           (λ d, (d < 10)%N → is_decimal_byte (strconv.digit d) = true));
    [lia | | exact Hd].
  repeat (constructor; [intros H; first [reflexivity | exfalso; clear -H; lia]|]).
  constructor.
Qed.

Lemma formatBits_decimal (fuel : nat) (u : N) (acc : string) :
  all_bytes is_decimal_byte acc = true ->
  all_bytes is_decimal_byte (strconv.formatBits fuel u 10 acc) = true.
Proof.
  revert u acc. induction fuel as [|fuel IH]; intros u acc Hacc; simpl.
  - exact Hacc.
  - destruct (N.ltb_spec u 10) as [Hlt | Hge].
    + simpl. rewrite digit_decimal by exact Hlt. exact Hacc.
    + apply IH. simpl. rewrite digit_decimal; [exact Hacc|].
      apply N.mod_lt. lia.
Qed.

Lemma FormatInt_decimal (i : Z) :
  all_bytes is_decimal_byte (strconv.FormatInt i 10) = true.
Proof.
  unfold strconv.FormatInt, strconv.FormatUint.
  destruct (i <? 0).
  - change (all_bytes is_decimal_byte (String "-" ?s))
      with (is_decimal_byte "-" && all_bytes is_decimal_byte s).
    now apply formatBits_decimal.
  - now apply formatBits_decimal.
Qed.

Lemma digits_value_grows (base : N) (s : string) (n v : N) :
  (1 <= base)%N -> digits_value base s n = Some v -> (n <= v)%N.
Proof.
  intros Hb. revert n. induction s as [|c s IH]; intros n H; simpl in H.
  - injection H as <-. lia.
  - destruct (strconv.digit_value c) as [d|]; [|discriminate].
    destruct (d <? base)%N; [|discriminate].
    apply IH in H. nia.
Qed.

Lemma parse_digits_bounded (base : N) (s : string) (n v : N) :
  (1 <= base)%N -> digits_value base s n = Some v -> (v < 2 ^ 64)%N ->
  strconv.parse_digits base s n = Some v.
Proof.
  intros Hb. revert n. induction s as [|c s IH]; intros n H Hv; simpl in *.
  - exact H.
  - destruct (strconv.digit_value c) as [d|]; [|discriminate].
    destruct (d <? base)%N; [|discriminate].
    pose proof (digits_value_grows _ _ _ _ Hb H) as Hle.
    destruct (N.ltb_spec (n * base + d) (2 ^ 64)) as [_ | Hge]; [|lia].
    now apply IH.
Qed.

Lemma formatBits_value (base : N) (fuel : nat) (u : N) (acc : string) :
  (2 <= base <= 36)%N -> (u < base * 2 ^ N.of_nat fuel)%N ->
  ∃ k : N, ∀ n : N,
    digits_value base (strconv.formatBits (S fuel) u base acc) n =
    digits_value base acc (n * base ^ k + u)%N.
Proof.
  intros Hb. revert u acc.
  assert (∀ d acc n, (d < base)%N →
            digits_value base (String (strconv.digit d) acc) n =
            digits_value base acc (n * base + d)%N) as Hone.
  { intros d acc n Hd. simpl. rewrite digit_value_digit by lia.
    apply N.ltb_lt in Hd. now rewrite Hd. }
  induction fuel as [|fuel IH]; intros u acc Hu.
  - exists 1%N. intros n. simpl in Hu. simpl strconv.formatBits.
    assert (u < base)%N as Hlt by lia.
    pose proof Hlt as Hlt'. apply N.ltb_lt in Hlt'. rewrite Hlt'.
    rewrite Hone by exact Hlt. now rewrite N.pow_1_r.
  - change (strconv.formatBits (S (S fuel)) u base acc)
      with (if (u <? base)%N then String (strconv.digit u) acc
            else strconv.formatBits (S fuel) (u / base)%N base
                   (String (strconv.digit (u mod base)%N) acc)).
    destruct (N.ltb_spec u base) as [Hlt | Hge].
    + exists 1%N. intros n. rewrite Hone by exact Hlt.
      now rewrite N.pow_1_r.
    + destruct (IH (u / base)%N
                  (String (strconv.digit (u mod base)%N) acc)) as [k Hk].
      { rewrite Nat2N.inj_succ, N.pow_succ_r' in Hu.
        apply N.Div0.div_lt_upper_bound. nia. }
      exists (k + 1)%N. intros n. rewrite Hk.
      rewrite Hone by (apply N.mod_lt; lia).
      f_equal. rewrite N.pow_add_r, N.pow_1_r.
      pose proof (N.Div0.div_mod u base) as Hdm. nia.
Qed.

Lemma size_nat_bound (u : N) : (u < 2 ^ N.of_nat (N.size_nat u))%N.
Proof.
  destruct u as [|p]; [reflexivity|].
  pose proof (proj2 (Zpow_facts.Zpower2_Psize (Pos.size_nat p) p) (le_n _)) as H.
  simpl N.size_nat.
  apply N2Z.inj_lt. rewrite N2Z.inj_pow. rewrite nat_N_Z. exact H.
Qed.

Lemma formatBits_head (base : N) (fuel : nat) (u : N) (acc : string) :
  (2 <= base <= 36)%N ->
  ∃ c s, strconv.formatBits (S fuel) u base acc = String c s
         ∧ is_Some (strconv.digit_value c).
Proof.
  intros Hb. revert u acc. induction fuel as [|fuel IH]; intros u acc.
  - simpl. destruct (N.ltb_spec u base) as [Hlt | Hge].
    + eexists _, _. split; [reflexivity|].
      rewrite digit_value_digit by lia. eauto.
    + eexists _, _. split; [reflexivity|].
      rewrite digit_value_digit; [eauto|].
      pose proof (N.mod_lt u base). lia.
  - change (strconv.formatBits (S (S fuel)) u base acc)
      with (if (u <? base)%N then String (strconv.digit u) acc
            else strconv.formatBits (S fuel) (u / base)%N base
                   (String (strconv.digit (u mod base)%N) acc)).
    destruct (N.ltb_spec u base) as [Hlt | Hge].
    + eexists _, _. split; [reflexivity|].
      rewrite digit_value_digit by lia. eauto.
    + apply IH.
Qed.

(** Reading back what [FormatUint] wrote. *)
Lemma ParseUint_FormatUint (u base : N) :
  (2 <= base <= 36)%N -> (u < 2 ^ 64)%N ->
  strconv.ParseUint (strconv.FormatUint u base) base = Some u.
Proof.
  intros Hb Hu. unfold strconv.ParseUint, strconv.FormatUint.
  destruct (formatBits_head base (N.size_nat u) u "" Hb) as (c & s & Hs & _).
  destruct (formatBits_value base (N.size_nat u) u "") as [k Hk];
    [exact Hb | pose proof (size_nat_bound u); nia |].
  specialize (Hk 0%N). rewrite Hs in *.
  apply parse_digits_bounded; [lia | | exact Hu].
  rewrite Hk. simpl. f_equal.
Qed.

(** Reading back what [FormatInt] wrote. *)
Lemma ParseInt_FormatInt (i : Z) :
  - 2 ^ 63 <= i < 2 ^ 63 ->
  strconv.ParseInt (strconv.FormatInt i 10) = Some i.
Proof.
  intros Hi. unfold strconv.FormatInt.
  destruct (Z.ltb_spec i 0) as [Hneg | Hpos].
  - unfold strconv.ParseInt.
    change (Ascii.eqb "-" "-") with true.
    change (Ascii.eqb "-" "+") with false. cbn [orb negb andb].
    rewrite ParseUint_FormatUint by lia.
    destruct (N.ltb_spec (2 ^ 63) (Z.to_N (- i))) as [Hbad | _]; [lia|].
    f_equal. lia.
  - destruct (formatBits_head 10 (N.size_nat (Z.to_N i)) (Z.to_N i) "")
      as (c & s & Hs & Hc); [lia|].
    pose proof (ParseUint_FormatUint (Z.to_N i) 10 ltac:(lia) ltac:(lia)) as Hp.
    unfold strconv.FormatUint in *. rewrite Hs in *.
    unfold strconv.ParseInt.
    assert (Ascii.eqb c "-" = false ∧ Ascii.eqb c "+" = false) as [-> ->].
    { split; apply Ascii.eqb_neq; intros ->; destruct Hc as [? Hc];
        discriminate Hc. }
    cbn [orb negb andb]. rewrite Hp.
    destruct (N.leb_spec (2 ^ 63) (Z.to_N i)) as [Hbad | _]; [lia|].
    f_equal. lia.
Qed.

Lemma ParseBool_FormatBool (b : bool) :
  strconv.ParseBool (strconv.FormatBool b) = Some b.
Proof. now destruct b. Qed.

(** X12: the text [AddBool] writes after the key is read back by
    [strconv.ParseBool] as the value written. *)
Lemma AddBool_read_back (key : string) (val : bool) (enc : textEncoder) :
  ∃ text, bytes (AddBool key val enc) = bytes (addKey key enc) +:+ text
          ∧ strconv.ParseBool text = Some val.
Proof.
  exists (strconv.FormatBool val). split; [reflexivity|].
  apply ParseBool_FormatBool.
Qed.

(** X13: the text [AddInt64] writes after the key for a signed 64-bit
    value is read back by [strconv.ParseInt] in base 10 as the value written. *)
Lemma AddInt64_read_back (key : string) (val : Z) (enc : textEncoder) :
  - 2 ^ 63 <= val < 2 ^ 63 ->
  ∃ text, bytes (AddInt64 key val enc) = bytes (addKey key enc) +:+ text
          ∧ strconv.ParseInt text = Some val.
Proof.
  intros H. exists (strconv.FormatInt val 10). split; [reflexivity|].
  now apply ParseInt_FormatInt.
Qed.

(** X14: the text [AddUint64] writes after the key for an unsigned 64-bit
    value is read back by [strconv.ParseUint] in base 10 as the value written. *)
Lemma AddUint64_read_back (key : string) (val : N) (enc : textEncoder) :
  (val < 2 ^ 64)%N ->
  ∃ text, bytes (AddUint64 key val enc) = bytes (addKey key enc) +:+ text
          ∧ strconv.ParseUint text 10 = Some val.
Proof.
  intros H. exists (strconv.FormatUint val 10). split; [reflexivity|].
  apply ParseUint_FormatUint; [lia | exact H].
Qed.

(** X15: the text [AddUintptr] writes after the key for a pointer-sized
    value, after its [0x], is read back by [strconv.ParseUint] in base 16 as the value written. *)
Lemma AddUintptr_read_back (key : string) (val : N) (enc : textEncoder) :
  (val < 2 ^ 64)%N ->
  ∃ text, bytes (AddUintptr key val enc) =
            bytes (addKey key enc) +:+ "0x" +:+ text
          ∧ strconv.ParseUint text 16 = Some val.
Proof.
  intros H. exists (strconv.FormatUint val 16). split.
  - unfold AddUintptr, append_bytes, strconv.AppendUint, set_bytes.
    cbn [bytes]. now rewrite app_assoc_s.
  - apply ParseUint_FormatUint; [lia | exact H].
Qed.

(** ** Level tags *)

(** C2 as stated does not hold: the error level and the fatal class are two
    of the five classes, and their tags open with the same escape sequence. *)
Lemma C2_error_fatal_same_colour :
  ¬ (∀ l1 l2 c1 c2,
       level_class l1 = Some c1 → level_class l2 = Some c2 → c1 ≠ c2 →
       tag_colour l1 ≠ tag_colour l2).
Proof.
  intros H.
  apply (H ErrorLevel FatalLevel 3%nat 4%nat); [reflexivity.. | lia | reflexivity].
Qed.

(** C2, amended: each recognised level is written as its six-character
    bracketed abbreviation between an escape sequence and the reset sequence;
    debug, info and warn have a colour each, and error, panic and fatal share
    a fourth one; any other level is written as its decimal number, which
    holds no escape sequence and no bracket. *)
Theorem C2_level_tag (enc final : textEncoder) (lvl : Level) :
  match table_lookup lvl level_table with
  | Some (colour, tag) =>
      bytes (addLevel enc final lvl) =
      bytes final +:+ ESC +:+ "[" +:+ colour +:+ ";1m" +:+ tag +:+ ESC +:+ "[0m"
  | None =>
      bytes (addLevel enc final lvl) = bytes final +:+ strconv.FormatInt lvl 10
      ∧ all_bytes is_decimal_byte (strconv.FormatInt lvl 10) = true
  end
  ∧ Forall (λ entry, ∃ abbr, entry.2.2 = "[" +:+ abbr +:+ "]"
                            ∧ String.length entry.2.2 = 6%nat) level_table
  ∧ NoDup [tag_colour DebugLevel; tag_colour InfoLevel; tag_colour WarnLevel;
           tag_colour ErrorLevel]
  ∧ tag_colour PanicLevel = tag_colour ErrorLevel
  ∧ tag_colour FatalLevel = tag_colour ErrorLevel.
Proof.
  split; [|split; [|split; [|split; reflexivity]]].
  - unfold addLevel, level_table, table_lookup.
    repeat (destruct (lvl =? _);
            [unfold append_bytes, set_bytes; cbn [bytes];
             now rewrite ?app_assoc_s |]).
    split; [reflexivity | apply FormatInt_decimal].
  - repeat constructor; cbn [snd].
    + now exists "DEBG".
    + now exists "INFO".
    + now exists "WARN".
    + now exists "ERRO".
    + now exists "PANC".
    + now exists "FATA".
  - apply (bool_decide_unpack _). vm_compute. exact I.
Qed.

(** ** Running computations on the world *)

Lemma wp_ret {A : Type} (a : A) (Q : A → world → Prop) (w : world) :
  Q a w → wp (mret a) Q w.
Proof. intros H. exists a, w. split; [reflexivity | exact H]. Qed.

Lemma wp_bind {A B : Type} (m : M A) (f : A → M B) (Q : B → world → Prop)
    (w : world) :
  wp m (λ a w', wp (f a) Q w') w → wp (m ≫= f) Q w.
Proof.
  intros (a & w' & Hm & b & w'' & Hf & HQ).
  exists b, w''. split; [|exact HQ].
  unfold mbind, M_bind. now rewrite Hm.
Qed.

Lemma wp_load (l : loc) (e : textEncoder) (Q : textEncoder → world → Prop)
    (w : world) :
  heap w !! l = Some e → Q e w → wp (load l) Q w.
Proof.
  intros Hl HQ. exists e, w. split; [|exact HQ]. unfold load. now rewrite Hl.
Qed.

Lemma wp_store (l : loc) (e : textEncoder) (Q : unit → world → Prop)
    (w : world) :
  Q tt (World (<[l := e]> (heap w)) (textPool w)) → wp (store l e) Q w.
Proof. intros HQ. eexists _, _. split; [reflexivity | exact HQ]. Qed.

Lemma wp_update (l : loc) (e : textEncoder) (f : textEncoder → textEncoder)
    (Q : unit → world → Prop) (w : world) :
  heap w !! l = Some e →
  Q tt (World (<[l := f e]> (heap w)) (textPool w)) →
  wp (update l f) Q w.
Proof.
  intros Hl HQ. apply wp_bind, (wp_load l e); [exact Hl|].
  now apply wp_store.
Qed.

Lemma wp_Put (l : loc) (Q : unit → world → Prop) (w : world) :
  Q tt (World (heap w) (l :: textPool w)) → wp (Put l) Q w.
Proof. intros HQ. eexists _, _. split; [reflexivity | exact HQ]. Qed.

(** What [Get] hands out: a location that was in the pool, or a new one. *)
Lemma Get_cases (pick : option nat) (w : world) :
  ∃ l w1, Get pick w = Some (l, w1)
    ∧ ((∃ i, textPool w !! i = Some l
             ∧ w1 = World (heap w) (delete i (textPool w)))
       ∨ (heap w !! l = None
          ∧ w1 = World (<[l := textPool_New]> (heap w)) (textPool w))).
Proof.
  unfold Get. destruct pick as [i|]; simpl.
  - destruct (textPool w !! i) as [l|] eqn:Hi.
    + eexists _, _. split; [reflexivity|]. left. now exists i.
    + eexists _, _. split; [reflexivity|]. right. split; [|reflexivity].
      apply not_elem_of_dom, is_fresh.
  - eexists _, _. split; [reflexivity|]. right. split; [|reflexivity].
    apply not_elem_of_dom, is_fresh.
Qed.

Lemma NoDup_delete_index {A : Type} (l : list A) (i : nat) (x : A) :
  NoDup l → l !! i = Some x → NoDup (delete i l) ∧ x ∉ delete i l.
Proof.
  intros Hnd Hi.
  rewrite (delete_Permutation l i x Hi) in Hnd.
  apply NoDup_cons in Hnd as [Hx Hnd]. done.
Qed.

Lemma wp_Get (L : list loc) (b : loc) (eb : textEncoder) (pick : option nat)
    (Q : loc → world → Prop) (w : world) :
  keeps L b eb w →
  (∀ l w1, Get pick w = Some (l, w1) → l ≠ b → keeps (l :: L) b eb w1 →
           Q l w1) →
  wp (Get pick) Q w.
Proof.
  intros (Hb & Hnb & Hpool & HL) HQ.
  destruct (Get_cases pick w) as (l & w1 & HG & Hcase).
  exists l, w1. split; [exact HG|]. apply HQ; [exact HG | |].
  - destruct Hcase as [(i & Hi & _) | (Hnone & _)].
    + intros ->. apply Hnb. apply list_elem_of_lookup. eauto.
    + intros ->. congruence.
  - destruct Hcase as [(i & Hi & ->) | (Hnone & ->)]; simpl.
    + repeat split; simpl; [exact Hb | | |].
      * intros Hin. apply Hnb. eapply list_elem_of_delete_inv, Hin.
      * intros l' Hin. apply Hpool. eapply list_elem_of_delete_inv, Hin.
      * intros l' [-> | Hin]%elem_of_cons; [|now apply HL].
        apply Hpool. apply list_elem_of_lookup. eauto.
    + assert (l ≠ b) as Hne by (intros ->; congruence).
      repeat split; simpl.
      * now rewrite lookup_insert_ne.
      * exact Hnb.
      * intros l' Hin. rewrite lookup_insert_is_Some'. right. now apply Hpool.
      * intros l' [-> | Hin]%elem_of_cons.
        -- rewrite lookup_insert_eq. eauto.
        -- rewrite lookup_insert_is_Some'. right. now apply HL.
Qed.

Lemma wp_load_keeps (L : list loc) (b : loc) (eb : textEncoder) (l : loc)
    (Q : textEncoder → world → Prop) (w : world) :
  keeps L b eb w → l ∈ L → (∀ e, heap w !! l = Some e → Q e w) →
  wp (load l) Q w.
Proof.
  intros (_ & _ & _ & HL) Hl HQ. destruct (HL l Hl) as [e He].
  apply (wp_load l e); auto.
Qed.

Lemma keeps_insert (L : list loc) (b : loc) (eb : textEncoder) (l : loc)
    (x : textEncoder) (w : world) :
  keeps L b eb w → l ≠ b →
  keeps L b eb (World (<[l := x]> (heap w)) (textPool w)).
Proof.
  intros (Hb & Hnb & Hpool & HL) Hne. repeat split; simpl.
  - now rewrite lookup_insert_ne.
  - exact Hnb.
  - intros l' Hin. rewrite lookup_insert_is_Some'. right. now apply Hpool.
  - intros l' Hin. rewrite lookup_insert_is_Some'. right. now apply HL.
Qed.

Lemma wp_update_keeps (L : list loc) (b : loc) (eb : textEncoder) (l : loc)
    (f : textEncoder → textEncoder) (Q : unit → world → Prop) (w : world) :
  keeps L b eb w → l ∈ L → l ≠ b →
  (∀ w', keeps L b eb w' → Q tt w') →
  wp (update l f) Q w.
Proof.
  intros HK Hl Hne HQ. pose proof HK as (_ & _ & _ & HL).
  destruct (HL l Hl) as [e He].
  apply (wp_update l e); [exact He|]. apply HQ. now apply keeps_insert.
Qed.

Lemma wp_Put_keeps (L : list loc) (b : loc) (eb : textEncoder) (l : loc)
    (Q : unit → world → Prop) (w : world) :
  keeps L b eb w → l ∈ L → l ≠ b →
  (∀ w', keeps L b eb w' → Q tt w') →
  wp (Put l) Q w.
Proof.
  intros (Hb & Hnb & Hpool & HL) Hl Hne HQ. apply wp_Put, HQ.
  repeat split; simpl; [exact Hb | | | exact HL].
  - apply not_elem_of_cons. split; [congruence | exact Hnb].
  - intros l' [-> | Hin]%elem_of_cons; [now apply HL | now apply Hpool].
Qed.

(** ** Frame properties of the operations *)

Ltac frame_step :=
  lazymatch goal with
  | |- wp (_ ≫= _) _ _ => apply wp_bind
  | HK : keeps _ _ _ ?w |- wp (load _) _ ?w =>
      eapply wp_load_keeps; [exact HK | set_solver | intros ? _]
  | HK : keeps _ _ _ ?w |- wp (update _ _) _ ?w =>
      eapply wp_update_keeps;
      [exact HK | set_solver | assumption | clear HK; intros ? HK]
  | HK : keeps _ _ _ ?w |- wp (store _ _) _ ?w =>
      apply wp_store; eapply keeps_insert in HK; [|eassumption]
  | HK : keeps _ _ _ ?w |- wp (Put _) _ ?w =>
      eapply wp_Put_keeps;
      [exact HK | set_solver | assumption | clear HK; intros ? HK]
  | |- wp (Free _) _ _ => unfold Free
  | |- wp (if ?c then _ else _) _ _ => destruct c
  | |- wp (let '(_, _) := ?x in _) _ _ => destruct x
  | |- wp (match ?x with Some _ => _ | None => _ end) _ _ => destruct x
  | |- wp (mret _) _ _ => apply wp_ret
  end.

Lemma keeps_weaken (L L' : list loc) (b : loc) (eb : textEncoder) (w : world) :
  keeps L b eb w → L' ⊆ L → keeps L' b eb w.
Proof.
  intros (? & ? & ? & HL) Hsub. repeat split; try done.
  intros l Hl. apply HL, Hsub, Hl.
Qed.

Lemma frame_WriteEntry (L : list loc) (b : loc) (eb : textEncoder)
    (pick : option nat) (enc : loc) (sink : option Writer) (msg : string)
    (lvl : Level) (t : time.Time) (w : world) :
  keeps L b eb w → enc ∈ L →
  wp (WriteEntry pick enc sink msg lvl t) (λ _ w', keeps L b eb w') w.
Proof.
  intros HK Henc. unfold WriteEntry. destruct sink as [sink|].
  2:{ now apply wp_ret. }
  apply wp_bind, (wp_Get L b eb); [exact HK|].
  clear HK. intros final w1 _ Hne HK.
  repeat frame_step.
  all: eapply keeps_weaken; [eassumption | set_solver].
Qed.

Lemma frame_Clone (L : list loc) (b : loc) (eb : textEncoder)
    (pick : option nat) (enc : loc) (w : world) :
  keeps L b eb w → enc ∈ L →
  wp (Clone pick enc) (λ clone w', clone ≠ b ∧ keeps (clone :: L) b eb w') w.
Proof.
  intros HK Henc. unfold Clone.
  apply wp_bind, (wp_Get L b eb); [exact HK|].
  clear HK. intros clone w1 _ Hne HK.
  repeat frame_step. split; assumption.
Qed.

Lemma frame_on {A : Type} (L : list loc) (b : loc) (eb : textEncoder)
    (a : loc) (method : textEncoder → textEncoder * A) (w : world) :
  keeps L b eb w → a ∈ L → a ≠ b →
  wp (on a method) (λ _ w', keeps L b eb w') w.
Proof.
  intros HK Ha Hne. unfold on. repeat frame_step. exact HK.
Qed.

Lemma frame_perform (L : list loc) (b : loc) (eb : textEncoder)
    (op : operation) (a : loc) (w : world) :
  keeps L b eb w → a ∈ L → a ≠ b →
  wp (perform op a) (λ _ w', keeps L b eb w') w.
Proof.
  intros HK Ha Hne. destruct op as [c | pick | pick sink msg lvl t |];
    cbn [perform].
  - apply wp_bind. destruct (frame_on L b eb a (dispatch c) w HK Ha Hne)
      as (r & w' & Hrun & HK').
    exists r, w'. split; [exact Hrun|]. now apply wp_ret.
  - apply wp_bind. destruct (frame_Clone L b eb pick a w HK Ha)
      as (clone & w' & Hrun & _ & HK').
    exists clone, w'. split; [exact Hrun|]. apply wp_ret.
    eapply keeps_weaken; [exact HK' | set_solver].
  - apply wp_bind.
    destruct (frame_WriteEntry L b eb pick a sink msg lvl t w HK Ha)
      as (r & w' & Hrun & HK').
    exists r, w'. split; [exact Hrun|]. now apply wp_ret.
  - repeat frame_step. exact HK.
Qed.

Lemma frame_perform_all (L : list loc) (b : loc) (eb : textEncoder)
    (ops : list operation) (a : loc) (w : world) :
  keeps L b eb w → a ∈ L → a ≠ b →
  wp (perform_all ops a) (λ _ w', keeps L b eb w') w.
Proof.
  intros HK Ha Hne. revert w HK.
  induction ops as [|op ops IH]; intros w HK; cbn [perform_all].
  - now apply wp_ret.
  - apply wp_bind.
    destruct (frame_perform L b eb op a w HK Ha Hne) as ([] & w' & Hrun & HK').
    exists tt, w'. split; [exact Hrun|]. now apply IH.
Qed.

(** ** Running [Clone] and [WriteEntry] on an encoder that is in use *)

Lemma bind_run {A B : Type} (m : M A) (f : A → M B) (w w' : world) (a : A) :
  m w = Some (a, w') → (m ≫= f) w = f a w'.
Proof. intros H. unfold mbind, M_bind. now rewrite H. Qed.

Lemma load_run (l : loc) (e : textEncoder) (w : world) :
  heap w !! l = Some e → load l w = Some (e, w).
Proof. intros H. unfold load. now rewrite H. Qed.

Lemma update_run (l : loc) (e : textEncoder) (f : textEncoder → textEncoder)
    (w : world) :
  heap w !! l = Some e →
  update l f w = Some (tt, World (<[l := f e]> (heap w)) (textPool w)).
Proof.
  intros H. unfold update. erewrite bind_run by (apply load_run, H).
  reflexivity.
Qed.

Lemma update_run_at (final : loc) (f : textEncoder)
    (g : textEncoder → textEncoder) (h : gmap loc textEncoder) (p : list loc) :
  update final g (World (<[final := f]> h) p)
  = Some (tt, World (<[final := g f]> h) p).
Proof.
  erewrite update_run by (cbn [heap]; apply lookup_insert_eq).
  cbn [heap textPool]. now rewrite insert_insert_eq.
Qed.

Ltac run_load He :=
  erewrite bind_run
    by (apply load_run; cbn [heap];
        rewrite lookup_insert_ne by assumption; exact He).

Ltac run_update := erewrite bind_run by apply update_run_at.

(** [Get] hands out a location that is none of those in use; when the pool
    holds no encoder twice, the location is no longer in the pool. *)
Lemma Get_alloc (pick : option nat) (w : world) :
  pool_allocated w →
  ∃ l f p,
    Get pick w = Some (l, World (<[l := f]> (heap w)) p)
    ∧ p ⊆ textPool w
    ∧ (∀ b, is_Some (heap w !! b) → b ∉ textPool w → l ≠ b)
    ∧ (NoDup (textPool w) → (l ∉ p) ∧ NoDup p).
Proof.
  intros Halloc. unfold pool_allocated in Halloc.
  rewrite Forall_forall in Halloc.
  destruct (Get_cases pick w) as (l & w1 & HG & Hcase).
  destruct Hcase as [(i & Hi & ->) | (Hnone & ->)].
  - assert (l ∈ textPool w) as Hin by (apply list_elem_of_lookup; eauto).
    destruct (Halloc l Hin) as [f Hf].
    exists l, f, (delete i (textPool w)).
    rewrite insert_id by exact Hf.
    split; [exact HG|]. split; [apply list_subseteq_delete|]. split.
    + intros b _ Hb ->. done.
    + intros Hnd. destruct (NoDup_delete_index _ _ _ Hnd Hi). done.
  - exists l, textPool_New, (textPool w).
    split; [exact HG|]. split; [done|]. split.
    + intros b [? Hb] _ ->. congruence.
    + intros Hnd. split; [|exact Hnd].
      intros Hin. destruct (Halloc l Hin) as [? ?]. congruence.
Qed.

Lemma pool_allocated_after (l : loc) (x : textEncoder) (p : list loc)
    (w : world) :
  pool_allocated w → p ⊆ textPool w →
  pool_allocated (World (<[l := x]> (heap w)) p).
Proof.
  unfold pool_allocated. rewrite !Forall_forall. intros Halloc Hsub l' Hl'.
  cbn [heap]. rewrite lookup_insert_is_Some'. right. apply Halloc, Hsub, Hl'.
Qed.

Lemma pool_ok_after (l : loc) (x : textEncoder) (p : list loc) (w : world) :
  pool_ok w → NoDup p → p ⊆ textPool w →
  pool_ok (World (<[l := x]> (heap w)) p).
Proof.
  intros [_ Halloc] Hnd Hsub. split; [exact Hnd|].
  now apply pool_allocated_after.
Qed.

Lemma Get_in_use (pick : option nat) (enc : loc) (e : textEncoder) (w : world) :
  pool_allocated w → heap w !! enc = Some e → enc ∉ textPool w →
  ∃ l f p,
    Get pick w = Some (l, World (<[l := f]> (heap w)) p)
    ∧ l ≠ enc ∧ (enc ∉ p) ∧ p ⊆ textPool w
    ∧ (NoDup (textPool w) → (l ∉ p) ∧ NoDup p).
Proof.
  intros Halloc He Hout.
  destruct (Get_alloc pick w Halloc) as (l & f & p & HG & Hsub & Hne & Hnd).
  exists l, f, p. split_and!; try done.
  - apply Hne; [eauto | exact Hout].
  - intros Hin. apply Hout, Hsub, Hin.
Qed.

Lemma copy_of (e f : textEncoder) :
  set_firstNested (firstNested e)
    (set_timeFmt (timeFmt e) (append_bytes (bytes e) (truncate f))) = e.
Proof. destruct e. reflexivity. Qed.

Lemma Clone_run (pick : option nat) (enc : loc) (e : textEncoder) (w : world) :
  pool_ok w → heap w !! enc = Some e → enc ∉ textPool w →
  ∃ clone p,
    Clone pick enc w = Some (clone, World (<[clone := e]> (heap w)) p)
    ∧ clone ≠ enc ∧ (clone ∉ p) ∧ (enc ∉ p) ∧ NoDup p ∧ p ⊆ textPool w.
Proof.
  intros [Hnd Halloc] He Hout.
  destruct (Get_in_use pick enc e w Halloc He Hout)
    as (clone & f & p & HG & Hne & Hep & Hsub & Hp).
  destruct (Hp Hnd) as [Hcp Hndp].
  exists clone, p. split; [|done].
  unfold Clone. erewrite bind_run by exact HG.
  run_update. run_load He. run_update. run_load He. run_update.
  run_load He. run_update. unfold mret, M_ret.
  now rewrite copy_of.
Qed.

Lemma addLevel_text (e final : textEncoder) (lvl : Level) :
  addLevel e final lvl = set_bytes (bytes final +:+ level_text lvl) final.
Proof.
  unfold addLevel, level_text, level_table, table_lookup.
  repeat (destruct (lvl =? _);
          [unfold append_bytes; now rewrite ?app_assoc_s |]).
  reflexivity.
Qed.

Lemma len_pos_nonempty (s : string) : (0 <? len s) = negb (String.eqb s "").
Proof. destruct s; reflexivity. Qed.

Lemma assemble_line (e f : textEncoder) (msg : string) (lvl : Level)
    (t : time.Time) :
  assemble e f msg lvl t = set_bytes (entry_line e msg lvl t) f.
Proof.
  unfold assemble, entry_line. rewrite addLevel_text.
  unfold addTime, addMessage, padded, fmt.Sprintf_left25, time.AppendFormat.
  rewrite len_pos_nonempty.
  destruct (String.eqb (timeFmt e) ""), (String.eqb msg ""),
    (String.eqb (bytes e) "");
    unfold append_bytes, truncate, set_bytes; cbn [bytes timeFmt firstNested negb];
    rewrite ?app_empty_l, ?app_assoc_s, ?app_empty_l; reflexivity.
Qed.

Lemma WriteEntry_run (pick : option nat) (enc : loc) (sink : Writer)
    (msg : string) (lvl : Level) (t : time.Time) (e : textEncoder)
    (w : world) :
  pool_allocated w → heap w !! enc = Some e → enc ∉ textPool w →
  ∃ final f p,
    Get pick w = Some (final, World (<[final := f]> (heap w)) p)
    ∧ WriteEntry pick enc (Some sink) msg lvl t w =
        Some (([entry_line e msg lvl t],
               write_outcome sink (entry_line e msg lvl t)),
              World (<[final := set_bytes (entry_line e msg lvl t) f]> (heap w))
                    (final :: p))
    ∧ final ≠ enc ∧ (enc ∉ p) ∧ p ⊆ textPool w.
Proof.
  intros Hok He Hout.
  destruct (Get_in_use pick enc e w Hok He Hout)
    as (final & f & p & HG & Hne & Hep & Hsub & _).
  exists final, f, p. split; [exact HG|]. split; [|done].
  unfold WriteEntry. erewrite bind_run by exact HG.
  run_update. run_load He. run_update. run_load He. run_update.
  run_load He. run_update. run_load He.
  assert (∀ f0,
    (if 0 <? len (bytes e)
     then update final (append_bytes " ");;
          e0 ← load enc; update final (append_bytes (bytes e0))
     else mret tt) (World (<[final := f0]> (heap w)) p)
    = Some (tt, World (<[final :=
                  if 0 <? len (bytes e)
                  then append_bytes (bytes e) (append_bytes " " f0)
                  else f0]> (heap w)) p)) as Hif.
  { intros f0. destruct (0 <? len (bytes e)); [|reflexivity].
    run_update. run_load He. now rewrite update_run_at. }
  erewrite bind_run by apply Hif.
  run_update.
  erewrite bind_run by (apply load_run; cbn [heap]; apply lookup_insert_eq).
  fold (assemble e f msg lvl t). rewrite assemble_line.
  change (bytes (set_bytes (entry_line e msg lvl t) f))
    with (entry_line e msg lvl t).
  unfold write_outcome.
  destruct (Write sink (entry_line e msg lvl t)) as [n [err|]];
    unfold Free; erewrite bind_run by reflexivity; cbn [heap textPool].
  - reflexivity.
  - now destruct (n =? len (entry_line e msg lvl t)).
Qed.

Lemma keeps_in_use (enc : loc) (e : textEncoder) (w : world) :
  pool_allocated w → heap w !! enc = Some e → enc ∉ textPool w →
  keeps [enc] enc e w.
Proof.
  intros Halloc He Hout. unfold pool_allocated in Halloc.
  rewrite Forall_forall in Halloc.
  repeat split; try done.
  intros l ->%list_elem_of_singleton. eauto.
Qed.

Lemma on_run {A : Type} (enc : loc) (e : textEncoder)
    (method : textEncoder → textEncoder * A) (w : world) :
  heap w !! enc = Some e →
  on enc method w =
  Some ((method e).2, World (<[enc := (method e).1]> (heap w)) (textPool w)).
Proof.
  intros He. unfold on. erewrite bind_run by (apply load_run, He).
  now destruct (method e).
Qed.

(** The encoder [NewColorEncoder] builds when no option is given. *)
Lemma NewColorEncoder_run (pick : option nat) (w : world) :
  pool_ok w →
  ∃ enc f p,
    NewColorEncoder pick [] w =
      Some (enc, World (<[enc := set_timeFmt time.RFC3339 (truncate f)]> (heap w))
                       p)
    ∧ (enc ∉ p) ∧ NoDup p ∧ p ⊆ textPool w.
Proof.
  intros [Hnd Halloc].
  destruct (Get_alloc pick w Halloc) as (enc & f & p & HG & Hsub & _ & Hp).
  destruct (Hp Hnd) as [Hl Hndp].
  exists enc, f, p. split; [|done].
  unfold NewColorEncoder. erewrite bind_run by exact HG.
  run_update. run_update. reflexivity.
Qed.

(** ** The buffers in memory: slices and backing arrays *)

Section memory.
Import Mem.

Lemma wp_ret_mem {A : Type} (a : A) (Q : A → memory → Prop) (m : memory) :
  Q a m → wp (mret a) Q m.
Proof. intros H. exists a, m. split; [reflexivity | exact H]. Qed.

Lemma wp_bind_mem {A B : Type} (c : M A) (f : A → M B)
    (Q : B → memory → Prop) (m : memory) :
  wp c (λ a m', wp (f a) Q m') m → wp (c ≫= f) Q m.
Proof.
  intros (a & m' & Hc & b & m'' & Hf & HQ).
  exists b, m''. split; [|exact HQ].
  unfold mbind, M_bind. now rewrite Hc.
Qed.

Lemma wp_mono_mem {A : Type} (c : M A) (Q Q' : A → memory → Prop)
    (m : memory) :
  wp c Q m → (∀ a m', Q a m' → Q' a m') → wp c Q' m.
Proof. intros (a & m' & Hc & HQ) H. exists a, m'. auto. Qed.

Lemma bind_run_mem {A B : Type} (c : M A) (f : A → M B) (m m' : memory)
    (a : A) :
  c m = Some (a, m') → (c ≫= f) m = f a m'.
Proof. intros H. unfold mbind, M_bind. now rewrite H. Qed.

Lemma load_run_mem (l : loc) (e : textEncoder) (m : memory) :
  heap m !! l = Some e → load l m = Some (e, m).
Proof. intros H. unfold load. now rewrite H. Qed.

Lemma update_run_mem (l : loc) (e : textEncoder)
    (f : textEncoder → textEncoder) (m : memory) :
  heap m !! l = Some e →
  update l f m
  = Some (tt, Memory (arrays m) (<[l := f e]> (heap m)) (textPool m)).
Proof.
  intros H. unfold update. now rewrite (bind_run_mem _ _ _ _ _ (load_run_mem l e m H)).
Qed.

(** *** Well-formed memories *)

(** The buffer of an encoder is given another slice on an array that is its
    own: the array it had, or an array that was not allocated. *)
Lemma mem_ok_set_slice (m : memory) (l : loc) (e e' : textEncoder)
    (arr' : list ascii) :
  mem_ok m → heap m !! l = Some e →
  ptr (bytes e') = ptr (bytes e) ∨ arrays m !! ptr (bytes e') = None →
  (slen (bytes e') <= scap (bytes e'))%nat →
  (scap (bytes e') <= length arr')%nat →
  mem_ok (Memory (<[ptr (bytes e') := arr']> (arrays m))
                 (<[l := e']> (heap m)) (textPool m)).
Proof.
  intros (HA & HB & HC) Hl Hp Hlen Hcap.
  assert (∀ l2 e2, l2 ≠ l → heap m !! l2 = Some e2 →
                   ptr (bytes e2) ≠ ptr (bytes e')) as Hother.
  { intros l2 e2 Hne H2 Heq. destruct Hp as [Hp | Hp].
    - apply Hne. apply (HB l2 l e2 e H2 Hl). congruence.
    - destruct (HA l2 e2 H2) as (arr2 & Harr2 & _). congruence. }
  split_and!; cbn [arrays heap textPool].
  - intros l2 e2. destruct (decide (l2 = l)) as [-> | Hne].
    + rewrite lookup_insert_eq. intros [= <-].
      exists arr'. cbn [arrays]. now rewrite lookup_insert_eq.
    + rewrite lookup_insert_ne by done. intros H2.
      destruct (HA l2 e2 H2) as (arr2 & Harr2 & ? & ?).
      exists arr2. cbn [arrays]. rewrite lookup_insert_ne; [done|].
      intros Heq. now apply (Hother l2 e2).
  - intros l1 l2 e1 e2.
    destruct (decide (l1 = l)) as [-> | Hne1];
      destruct (decide (l2 = l)) as [-> | Hne2]; [done | | |].
    + rewrite lookup_insert_eq, lookup_insert_ne by done.
      intros [= <-] H2 Heq. exfalso. now apply (Hother l2 e2).
    + rewrite lookup_insert_eq, lookup_insert_ne by done.
      intros H1 [= <-] Heq. exfalso. now apply (Hother l1 e1).
    + rewrite !lookup_insert_ne by done. apply HB.
  - intros l2 Hin. rewrite lookup_insert_is_Some'. right. now apply HC.
Qed.

(** The record of an encoder changes, its buffer stays on its array. *)
Lemma mem_ok_set_record (m : memory) (l : loc) (e e' : textEncoder) :
  mem_ok m → heap m !! l = Some e →
  ptr (bytes e') = ptr (bytes e) → scap (bytes e') = scap (bytes e) →
  (slen (bytes e') <= scap (bytes e'))%nat →
  mem_ok (Memory (arrays m) (<[l := e']> (heap m)) (textPool m)).
Proof.
  intros Hok Hl Hp Hc Hlen. pose proof Hok as (HA & _ & _).
  destruct (HA l e Hl) as (arr & Harr & _ & Hcap).
  pose proof (mem_ok_set_slice m l e e' arr Hok Hl (or_introl Hp) Hlen) as H.
  rewrite Hp, insert_id in H by exact Harr. apply H. lia.
Qed.

Lemma keeps_set_slice (L : list loc) (P : list kept) (m : memory) (l : loc)
    (e e' : textEncoder) (arr' : list ascii) :
  keeps L P m → l ∈ L → heap m !! l = Some e →
  ptr (bytes e') = ptr (bytes e) ∨ arrays m !! ptr (bytes e') = None →
  (slen (bytes e') <= scap (bytes e'))%nat →
  (scap (bytes e') <= length arr')%nat →
  keeps L P (Memory (<[ptr (bytes e') := arr']> (arrays m))
                    (<[l := e']> (heap m)) (textPool m)).
Proof.
  intros (Hok & HL & HP) Hin Hl Hp Hlen Hcap.
  split_and!; cbn [arrays heap textPool].
  - now apply (mem_ok_set_slice m l e e' arr').
  - intros l2 Hin2. rewrite lookup_insert_is_Some'. right. now apply HL.
  - intros [[b eb] arrb] Hx. destruct (HP _ Hx) as (Hb & Harrb & Hnb & HnL).
    assert (l ≠ b) as Hne by (intros ->; contradiction).
    split_and!; cbn [arrays heap textPool]; [| | done | done].
    + now rewrite lookup_insert_ne.
    + rewrite lookup_insert_ne; [exact Harrb|].
      intros Heq. destruct Hp as [Hp | Hp]; [|congruence].
      destruct Hok as (_ & HB & _). apply Hne.
      apply (HB l b e eb Hl Hb). congruence.
Qed.

Lemma keeps_set_record (L : list loc) (P : list kept) (m : memory) (l : loc)
    (e e' : textEncoder) :
  keeps L P m → l ∈ L → heap m !! l = Some e →
  ptr (bytes e') = ptr (bytes e) → scap (bytes e') = scap (bytes e) →
  (slen (bytes e') <= scap (bytes e'))%nat →
  keeps L P (Memory (arrays m) (<[l := e']> (heap m)) (textPool m)).
Proof.
  intros HK Hin Hl Hp Hc Hlen. pose proof HK as ((HA & _ & _) & _).
  destruct (HA l e Hl) as (arr & Harr & _ & Hcap).
  pose proof (keeps_set_slice L P m l e e' arr HK Hin Hl
                (or_introl Hp) Hlen) as H.
  rewrite Hp, insert_id in H by exact Harr. apply H. lia.
Qed.

Lemma keeps_weaken_mem (L L' : list loc) (P : list kept) (m : memory) :
  keeps L P m → L' ⊆ L → keeps L' P m.
Proof.
  intros (? & HL & HP) Hsub. split_and!; [done | |].
  - intros l Hl. apply HL, Hsub, Hl.
  - intros [[b eb] arrb] Hx. destruct (HP _ Hx) as (? & ? & ? & HnL).
    split_and!; try done. intros Hin. apply HnL, Hsub, Hin.
Qed.

(** *** What [append] does *)

(** [append] returns a slice that holds the bytes of the first followed by
    the new ones, on the same array or on one that was not allocated. *)
Lemma append_run (growslice : nat → nat → nat) (s : slice)
    (arr xs : list ascii) (m : memory) :
  arrays m !! ptr s = Some arr →
  (slen s <= scap s)%nat → (scap s <= length arr)%nat →
  ∃ s' arr',
    append growslice s xs m
    = Some (s', Memory (<[ptr s' := arr']> (arrays m)) (heap m) (textPool m))
    ∧ (ptr s' = ptr s ∨ arrays m !! ptr s' = None)
    ∧ slen s' = (slen s + length xs)%nat
    ∧ (slen s' <= scap s')%nat ∧ (scap s' <= length arr')%nat
    ∧ take (slen s') arr' = take (slen s) arr ++ xs.
Proof.
  intros Harr Hlen Hcap.
  assert (length (take (slen s) arr) = slen s) as Htake
    by (rewrite length_take; lia).
  unfold append, mbind, M_bind, read. rewrite Harr.
  destruct (slen s + length xs <=? scap s)%nat eqn:Hfit.
  - apply Nat.leb_le in Hfit.
    eexists (Slice (ptr s) (slen s + length xs) (scap s)), _.
    split; [reflexivity|]. cbn [ptr slen scap].
    split_and!; [now left | done | done | |].
    + rewrite !length_app, Htake, length_drop. lia.
    + rewrite app_assoc, take_app_length'; [done|].
      rewrite length_app, Htake. done.
  - apply Nat.leb_gt in Hfit.
    eexists (Slice (fresh (dom (arrays m))) (slen s + length xs) _), _.
    split; [reflexivity|]. cbn [ptr slen scap].
    split_and!; [right; apply not_elem_of_dom, is_fresh | done | lia | |].
    + rewrite !length_app, Htake, length_replicate. lia.
    + rewrite app_assoc, take_app_length'; [done|].
      rewrite length_app, Htake. done.
Qed.

(** [enc.bytes = append(enc.bytes, xs...)] leaves in the encoder the bytes it
    had followed by the new ones and changes no other encoder. *)
Lemma append_bytes_run (growslice : nat → nat → nat) (l : loc)
    (e : textEncoder) (arr xs : list ascii) (m : memory) :
  heap m !! l = Some e → arrays m !! ptr (bytes e) = Some arr →
  (slen (bytes e) <= scap (bytes e))%nat →
  (scap (bytes e) <= length arr)%nat →
  ∃ s' arr',
    append_bytes growslice l xs m
    = Some (tt, Memory (<[ptr s' := arr']> (arrays m))
                       (<[l := set_bytes s' e]> (heap m)) (textPool m))
    ∧ (ptr s' = ptr (bytes e) ∨ arrays m !! ptr s' = None)
    ∧ slen s' = (slen (bytes e) + length xs)%nat
    ∧ (slen s' <= scap s')%nat ∧ (scap s' <= length arr')%nat
    ∧ take (slen s') arr' = take (slen (bytes e)) arr ++ xs.
Proof.
  intros Hl Harr Hlen Hcap.
  destruct (append_run growslice (bytes e) arr xs m Harr Hlen Hcap)
    as (s' & arr' & Hrun & Hrest).
  exists s', arr'. split; [|exact Hrest]. unfold append_bytes.
  rewrite (bind_run_mem _ _ _ _ _ (load_run_mem l e m Hl)).
  rewrite (bind_run_mem _ _ _ _ _ Hrun).
  now rewrite (update_run_mem l e).
Qed.

Lemma append_bytes_keeps (growslice : nat → nat → nat) (L : list loc)
    (P : list kept) (l : loc) (xs : list ascii) (m : memory) :
  keeps L P m → l ∈ L →
  wp (append_bytes growslice l xs) (λ _ m', keeps L P m') m.
Proof.
  intros HK Hin. pose proof HK as ((HA & _ & _) & HL & _).
  destruct (HL l Hin) as [e Hl].
  destruct (HA l e Hl) as (arr & Harr & Hlen & Hcap).
  destruct (append_bytes_run growslice l e arr xs m Hl Harr Hlen Hcap)
    as (s' & arr' & Hrun & Hp & _ & Hlen' & Hcap' & _).
  eexists tt, _. split; [exact Hrun|].
  now apply (keeps_set_slice L P m l e (set_bytes s' e) arr').
Qed.

(** *** Rules for the steps of a computation *)

Lemma wp_load_keeps_mem (L : list loc) (P : list kept) (l : loc)
    (Q : textEncoder → memory → Prop) (m : memory) :
  keeps L P m → l ∈ L → (∀ e, heap m !! l = Some e → Q e m) →
  wp (load l) Q m.
Proof.
  intros (_ & HL & _) Hl HQ. destruct (HL l Hl) as [e He].
  exists e, m. split; [now apply load_run_mem | now apply HQ].
Qed.

Lemma wp_contents_keeps (L : list loc) (P : list kept) (l : loc)
    (e : textEncoder) (Q : list ascii → memory → Prop) (m : memory) :
  keeps L P m → heap m !! l = Some e → (∀ xs, Q xs m) →
  wp (contents (bytes e)) Q m.
Proof.
  intros ((HA & _ & _) & _) He HQ.
  destruct (HA l e He) as (arr & Harr & _).
  eexists _, m. split; [|apply HQ].
  unfold contents, mbind, M_bind, read. now rewrite Harr.
Qed.

Lemma wp_set_timeFmt_keeps (L : list loc) (P : list kept) (l : loc)
    (layout : string) (Q : unit → memory → Prop) (m : memory) :
  keeps L P m → l ∈ L →
  (∀ m', keeps L P m' → Q tt m') →
  wp (update l (set_timeFmt layout)) Q m.
Proof.
  intros HK Hl HQ. pose proof HK as ((HA & _ & _) & HL & _).
  destruct (HL l Hl) as [e He].
  destruct (HA l e He) as (_ & _ & Hlen & _).
  eexists tt, _. split; [now apply (update_run_mem l e)|].
  apply HQ. now apply (keeps_set_record L P m l e).
Qed.

Lemma wp_set_firstNested_keeps (L : list loc) (P : list kept) (l : loc)
    (flag : bool) (Q : unit → memory → Prop) (m : memory) :
  keeps L P m → l ∈ L →
  (∀ m', keeps L P m' → Q tt m') →
  wp (update l (set_firstNested flag)) Q m.
Proof.
  intros HK Hl HQ. pose proof HK as ((HA & _ & _) & HL & _).
  destruct (HL l Hl) as [e He].
  destruct (HA l e He) as (_ & _ & Hlen & _).
  eexists tt, _. split; [now apply (update_run_mem l e)|].
  apply HQ. now apply (keeps_set_record L P m l e).
Qed.

Lemma wp_truncate_keeps (L : list loc) (P : list kept) (l : loc)
    (Q : unit → memory → Prop) (m : memory) :
  keeps L P m → l ∈ L →
  (∀ m', keeps L P m' → Q tt m') →
  wp (truncate l) Q m.
Proof.
  intros HK Hl HQ. pose proof HK as (_ & HL & _).
  destruct (HL l Hl) as [e He].
  eexists tt, _. split; [now apply (update_run_mem l e)|].
  apply HQ. apply (keeps_set_record L P m l e); try done.
  cbn [bytes set_bytes reslice0 slen scap]. lia.
Qed.

Lemma wp_append_bytes_keeps (growslice : nat → nat → nat) (L : list loc)
    (P : list kept) (l : loc) (xs : list ascii) (Q : unit → memory → Prop)
    (m : memory) :
  keeps L P m → l ∈ L →
  (∀ m', keeps L P m' → Q tt m') →
  wp (append_bytes growslice l xs) Q m.
Proof.
  intros HK Hl HQ.
  eapply wp_mono_mem;
    [exact (append_bytes_keeps growslice L P l xs m HK Hl)|].
  intros [] m' HK'. now apply HQ.
Qed.

Lemma wp_Put_keeps_mem (L : list loc) (P : list kept) (l : loc)
    (Q : unit → memory → Prop) (m : memory) :
  keeps L P m → l ∈ L →
  (∀ m', keeps L P m' → Q tt m') →
  wp (Put l) Q m.
Proof.
  intros ((HA & HB & HC) & HL & HP) Hl HQ.
  eexists tt, _. split; [reflexivity|]. apply HQ.
  split_and!; cbn [arrays heap textPool]; try done.
  - split_and!; cbn [arrays heap textPool]; try done.
    intros l' [-> | Hin]%elem_of_cons; [now apply HL | now apply HC].
  - intros [[b eb] arrb] Hx. destruct (HP _ Hx) as (? & ? & Hnb & HnL).
    split_and!; cbn [arrays heap textPool]; try done.
    apply not_elem_of_cons. split; [|exact Hnb]. intros ->. contradiction.
Qed.

(** What [Get] hands out: an encoder that was in the pool, or a new one on a
    new array. *)
Lemma Get_cases_mem (pick : option nat) (m : memory) :
  ∃ l m1, Get pick m = Some (l, m1)
    ∧ ((∃ i, textPool m !! i = Some l
             ∧ m1 = Memory (arrays m) (heap m) (delete i (textPool m)))
       ∨ (∃ a, heap m !! l = None ∧ arrays m !! a = None
               ∧ m1 = Memory
                        (<[a := replicate initialBufSize zero]> (arrays m))
                        (<[l := {| bytes := Slice a 0%nat initialBufSize;
                                   timeFmt := ""; firstNested := false |}]>
                           (heap m))
                        (textPool m))).
Proof.
  assert (heap m !! fresh (dom (heap m)) = None) as Hl
    by apply not_elem_of_dom, is_fresh.
  assert (arrays m !! fresh (dom (arrays m)) = None) as Ha
    by apply not_elem_of_dom, is_fresh.
  unfold Get. destruct pick as [i|]; cbn [mbind option_bind default].
  - destruct (textPool m !! i) as [l|] eqn:Hi.
    + eexists _, _. split; [reflexivity|]. left. now exists i.
    + eexists _, _. split; [reflexivity|]. right. eauto.
  - eexists _, _. split; [reflexivity|]. right. eauto.
Qed.

(** A new encoder on a new array. *)
Lemma mem_ok_new (m : memory) (l : loc) (a : addr) (e : textEncoder)
    (arr : list ascii) :
  mem_ok m → heap m !! l = None → arrays m !! a = None →
  ptr (bytes e) = a →
  (slen (bytes e) <= scap (bytes e))%nat → (scap (bytes e) <= length arr)%nat →
  mem_ok (Memory (<[a := arr]> (arrays m)) (<[l := e]> (heap m))
                 (textPool m)).
Proof.
  intros (HA & HB & HC) Hl Ha Hp Hlen Hcap.
  assert (∀ l2 e2, heap m !! l2 = Some e2 → ptr (bytes e2) ≠ a) as Hother.
  { intros l2 e2 H2 Heq. destruct (HA l2 e2 H2) as (arr2 & Harr2 & _).
    congruence. }
  split_and!; cbn [arrays heap textPool].
  - intros l2 e2. destruct (decide (l2 = l)) as [-> | Hne].
    + rewrite lookup_insert_eq. intros [= <-].
      exists arr. cbn [arrays]. now rewrite Hp, lookup_insert_eq.
    + rewrite lookup_insert_ne by done. intros H2.
      destruct (HA l2 e2 H2) as (arr2 & Harr2 & ? & ?).
      exists arr2. cbn [arrays]. rewrite lookup_insert_ne; [done|].
      intros Heq. now apply (Hother l2 e2).
  - intros l1 l2 e1 e2.
    destruct (decide (l1 = l)) as [-> | Hne1];
      destruct (decide (l2 = l)) as [-> | Hne2]; [done | | |].
    + rewrite lookup_insert_eq, lookup_insert_ne by done.
      intros [= <-] H2 Heq. exfalso. apply (Hother l2 e2 H2). congruence.
    + rewrite lookup_insert_eq, lookup_insert_ne by done.
      intros H1 [= <-] Heq. exfalso. apply (Hother l1 e1 H1). congruence.
    + rewrite !lookup_insert_ne by done. apply HB.
  - intros l2 Hin. rewrite lookup_insert_is_Some'. right. now apply HC.
Qed.

Lemma wp_Get_keeps (L : list loc) (P : list kept) (pick : option nat)
    (Q : loc → memory → Prop) (m : memory) :
  keeps L P m →
  (∀ l m1, Get pick m = Some (l, m1) → keeps (l :: L) P m1 → Q l m1) →
  wp (Get pick) Q m.
Proof.
  intros (Hok & HL & HP) HQ.
  destruct (Get_cases_mem pick m) as (l & m1 & HG & Hcase).
  exists l, m1. split; [exact HG|]. apply HQ; [exact HG|].
  destruct Hcase as [(i & Hi & ->) | (a & Hnone & Ha & ->)].
  - pose proof Hok as (HA & HB & HC).
    assert (l ∈ textPool m) as Hin by (apply list_elem_of_lookup; eauto).
    split_and!; cbn [arrays heap textPool].
    + split_and!; cbn [arrays heap textPool]; try done.
      intros l' Hin'. apply HC. eapply list_elem_of_delete_inv, Hin'.
    + intros l' [-> | Hin']%elem_of_cons; [now apply HC | now apply HL].
    + intros [[b eb] arrb] Hx. destruct (HP _ Hx) as (? & ? & Hnb & HnL).
      split_and!; cbn [arrays heap textPool]; try done.
      * intros Hin'. apply Hnb. eapply list_elem_of_delete_inv, Hin'.
      * apply not_elem_of_cons. split; [|exact HnL]. intros ->. contradiction.
  - split_and!; cbn [arrays heap textPool].
    + apply mem_ok_new;
        [done | done | done | done | cbn [bytes slen scap]; lia
        | cbn [bytes scap]; now rewrite length_replicate].
    + intros l' [-> | Hin]%elem_of_cons.
      * rewrite lookup_insert_eq. eauto.
      * rewrite lookup_insert_is_Some'. right. now apply HL.
    + intros [[b eb] arrb] Hx. destruct (HP _ Hx) as (Hb & Harrb & Hnb & HnL).
      assert (l ≠ b) as Hne by (intros ->; congruence).
      assert (ptr (bytes eb) ≠ a) as Hpa by (intros <-; congruence).
      split_and!; cbn [arrays heap textPool]; [| | done |].
      * now rewrite lookup_insert_ne.
      * now rewrite lookup_insert_ne.
      * apply not_elem_of_cons. split; [congruence | exact HnL].
Qed.

(** *** The operations on one encoder leave the others as they are *)

Ltac frame_step_mem :=
  lazymatch goal with
  | |- wp (_ ≫= _) _ _ => apply wp_bind_mem
  | HK : keeps _ _ ?m |- wp (load _) _ ?m =>
      eapply wp_load_keeps_mem; [exact HK | set_solver | intros ? ?]
  | HK : keeps _ _ ?m, He : heap ?m !! _ = Some ?e
    |- wp (contents (bytes ?e)) _ ?m =>
      eapply wp_contents_keeps; [exact HK | exact He | intros ?]
  | HK : keeps _ _ ?m |- wp (update _ (set_timeFmt _)) _ ?m =>
      eapply wp_set_timeFmt_keeps;
      [exact HK | set_solver | clear HK; intros ? HK]
  | HK : keeps _ _ ?m |- wp (update _ (set_firstNested _)) _ ?m =>
      eapply wp_set_firstNested_keeps;
      [exact HK | set_solver | clear HK; intros ? HK]
  | HK : keeps _ _ ?m |- wp (truncate _) _ ?m =>
      eapply wp_truncate_keeps;
      [exact HK | set_solver | clear HK; intros ? HK]
  | HK : keeps _ _ ?m |- wp (append_bytes _ _ _) _ ?m =>
      eapply wp_append_bytes_keeps;
      [exact HK | set_solver | clear HK; intros ? HK]
  | |- wp (append_string _ _ _) _ _ => unfold append_string
  | HK : keeps _ _ ?m |- wp (Put _) _ ?m =>
      eapply wp_Put_keeps_mem;
      [exact HK | set_solver | clear HK; intros ? HK]
  | |- wp (Free _) _ _ => unfold Free
  | |- wp (if ?c then _ else _) _ _ => destruct c
  | |- wp (let '(_, _) := ?x in _) _ _ => destruct x
  | |- wp (match ?x with Some _ => _ | None => _ end) _ _ => destruct x
  | |- wp (mret _) _ _ => apply wp_ret_mem
  end.

Lemma frame_addKey_mem (growslice : nat → nat → nat) (L : list loc)
    (P : list kept) (enc : loc) (key : string) (Q : unit → memory → Prop)
    (m : memory) :
  keeps L P m → enc ∈ L →
  (∀ m', keeps L P m' → Q tt m') →
  wp (addKey growslice enc key) Q m.
Proof.
  intros HK Henc HQ. unfold addKey. repeat frame_step_mem.
  all: now apply HQ.
Qed.

Ltac frame_call_mem :=
  lazymatch goal with
  | HK : keeps _ _ ?m |- wp (addKey _ _ _) _ ?m =>
      eapply frame_addKey_mem;
      [exact HK | set_solver | clear HK; intros ? HK]
  | _ => frame_step_mem
  end.

Lemma frame_dispatch_MarshalLog_mem (growslice : nat → nat → nat)
    (L : list loc) (P : list kept) (enc : loc) :
  enc ∈ L →
  (∀ c m, keeps L P m →
          wp (dispatch growslice c enc) (λ _ m', keeps L P m') m)
  ∧ (∀ obj m, keeps L P m →
          wp (MarshalLog growslice obj enc) (λ _ m', keeps L P m') m).
Proof.
  intros Henc. apply call_LogMarshaler_ind.
  all: try (intros key val m HK; cbn [dispatch];
            unfold AddString, AddBool, AddInt, AddInt64, AddUint, AddUint64,
              AddUintptr, AddFloat64, AddObject, AddString;
            repeat frame_call_mem; exact HK).
  - intros key obj IH m HK. cbn [dispatch]. repeat frame_call_mem.
    eapply wp_mono_mem; [apply IH, HK|]. clear HK. intros err ? HK. cbv beta in HK.
    repeat frame_call_mem. exact HK.
  - intros err m HK. cbn [MarshalLog]. now apply wp_ret_mem.
  - intros c IHc k IHk m HK. cbn [MarshalLog]. apply wp_bind_mem.
    eapply wp_mono_mem; [apply IHc, HK|]. intros r m' HK'.
    now apply IHk.
Qed.

Lemma frame_WriteEntry_mem (growslice : nat → nat → nat) (L : list loc)
    (P : list kept) (pick : option nat) (enc : loc) (sink : option Writer)
    (msg : string) (lvl : Level) (t : time.Time) (m : memory) :
  keeps L P m → enc ∈ L →
  wp (WriteEntry growslice pick enc sink msg lvl t)
     (λ _ m', keeps L P m') m.
Proof.
  intros HK Henc. unfold WriteEntry. destruct sink as [sink|].
  2:{ now apply wp_ret_mem. }
  apply wp_bind_mem, (wp_Get_keeps L P); [exact HK|].
  clear HK. intros final m1 _ HK.
  unfold addLevel, addTime, addMessage.
  repeat frame_step_mem.
  all: eapply keeps_weaken_mem; [eassumption | set_solver].
Qed.

Lemma frame_Clone_mem (growslice : nat → nat → nat) (L : list loc)
    (P : list kept) (pick : option nat) (enc : loc) (m : memory) :
  keeps L P m → enc ∈ L →
  wp (Clone growslice pick enc) (λ clone m', keeps (clone :: L) P m') m.
Proof.
  intros HK Henc. unfold Clone.
  apply wp_bind_mem, (wp_Get_keeps L P); [exact HK|].
  clear HK. intros clone m1 _ HK.
  repeat frame_step_mem. exact HK.
Qed.

Lemma frame_perform_mem (growslice : nat → nat → nat) (L : list loc)
    (P : list kept) (op : operation) (a : loc) (m : memory) :
  keeps L P m → a ∈ L →
  wp (perform growslice op a) (λ _ m', keeps L P m') m.
Proof.
  intros HK Ha. destruct op as [c | pick | pick sink msg lvl t |];
    cbn [perform].
  - apply wp_bind_mem.
    eapply wp_mono_mem;
      [apply (frame_dispatch_MarshalLog_mem growslice L P a Ha), HK|].
    intros r m' HK'. now apply wp_ret_mem.
  - apply wp_bind_mem.
    eapply wp_mono_mem; [apply frame_Clone_mem; [exact HK | exact Ha]|].
    intros clone m' HK'. apply wp_ret_mem.
    eapply keeps_weaken_mem; [exact HK' | set_solver].
  - apply wp_bind_mem.
    eapply wp_mono_mem; [apply frame_WriteEntry_mem; [exact HK | exact Ha]|].
    intros r m' HK'. now apply wp_ret_mem.
  - repeat frame_step_mem. exact HK.
Qed.

Lemma frame_perform_all_mem (growslice : nat → nat → nat) (L : list loc)
    (P : list kept) (ops : list operation) (a : loc) (m : memory) :
  keeps L P m → a ∈ L →
  wp (perform_all growslice ops a) (λ _ m', keeps L P m') m.
Proof.
  intros HK Ha. revert m HK.
  induction ops as [|op ops IH]; intros m HK; cbn [perform_all].
  - now apply wp_ret_mem.
  - apply wp_bind_mem.
    eapply wp_mono_mem; [apply frame_perform_mem; [exact HK | exact Ha]|].
    intros [] m' HK'. now apply IH.
Qed.

(** *** What [Clone] does *)

Lemma contents_run (s : slice) (arr : list ascii) (m : memory) :
  arrays m !! ptr s = Some arr → contents s m = Some (take (slen s) arr, m).
Proof. intros H. unfold contents, mbind, M_bind, read. now rewrite H. Qed.

Lemma Get_spec_mem (L : list loc) (P : list kept) (pick : option nat)
    (m : memory) :
  keeps L P m → NoDup (textPool m) →
  ∃ l m1, Get pick m = Some (l, m1) ∧ keeps (l :: L) P m1
          ∧ NoDup (textPool m1) ∧ (l ∉ textPool m1).
Proof.
  intros HK Hnd.
  destruct (wp_Get_keeps L P pick
              (λ l m1, Get pick m = Some (l, m1) ∧ keeps (l :: L) P m1) m HK)
    as (l & m1 & HG & _ & HK1); [auto|].
  exists l, m1. split_and!; [done | done | |].
  all: destruct (Get_cases_mem pick m) as (l' & m1' & HG' & Hcase).
  all: rewrite HG in HG'; injection HG' as <- <-.
  all: destruct Hcase as [(i & Hi & ->) | (a & Hnone & _ & ->)];
    cbn [textPool].
  - now apply (NoDup_delete_index _ i l).
  - exact Hnd.
  - now apply (NoDup_delete_index _ i l).
  - destruct HK as ((_ & _ & HC) & _). intros Hin.
    destruct (HC l Hin) as [x Hx]. congruence.
Qed.

Lemma Clone_run_mem (growslice : nat → nat → nat) (pick : option nat)
    (enc : loc) (e : textEncoder) (arre : list ascii) (m : memory) :
  mem_ok m → NoDup (textPool m) →
  heap m !! enc = Some e → arrays m !! ptr (bytes e) = Some arre →
  enc ∉ textPool m →
  ∃ clone m' c arrc,
    Clone growslice pick enc m = Some (clone, m')
    ∧ keeps [clone] [(enc, e, arre)] m'
    ∧ heap m' !! clone = Some c ∧ arrays m' !! ptr (bytes c) = Some arrc
    ∧ take (slen (bytes c)) arrc = take (slen (bytes e)) arre
    ∧ timeFmt c = timeFmt e ∧ firstNested c = firstNested e
    ∧ NoDup (textPool m') ∧ (clone ∉ textPool m').
Proof.
  intros Hok Hnd He Harre Hnp.
  assert (keeps [] [(enc, e, arre)] m) as HK0.
  { split_and!; [done | |].
    - intros l Hl. now apply elem_of_nil in Hl.
    - intros x ->%list_elem_of_singleton. split_and!; [done | done | done |].
      apply not_elem_of_nil. }
  destruct (Get_spec_mem [] _ pick m HK0 Hnd)
    as (clone & m1 & HG & HK1 & Hnd1 & Hnc1).
  assert (clone ∈ [clone]) as Hcc by left.
  assert ((enc, e, arre) ∈ [(enc, e, arre)]) as Hee by left.
  (* truncate *)
  pose proof HK1 as (_ & HL1 & _).
  destruct (HL1 clone Hcc) as [ec Hec].
  set (ec2 := set_bytes (reslice0 (bytes ec)) ec).
  set (m2 := Memory (arrays m1) (<[clone := ec2]> (heap m1)) (textPool m1)).
  assert (truncate clone m1 = Some (tt, m2)) as Htr
    by exact (update_run_mem clone ec
                (λ e, set_bytes (reslice0 (bytes e)) e) m1 Hec).
  assert (keeps [clone] [(enc, e, arre)] m2) as HK2.
  { apply (keeps_set_record _ _ m1 clone ec ec2 HK1);
      [exact Hcc | exact Hec | reflexivity | reflexivity|].
    cbn [ec2 bytes set_bytes reslice0 slen scap]. lia. }
  assert (heap m2 !! clone = Some ec2) as Hc2
    by (cbn [m2 heap]; apply lookup_insert_eq).
  (* the bytes of the original *)
  pose proof HK2 as ((HA2 & _ & _) & _ & HP2).
  destruct (HP2 (enc, e, arre) Hee) as (He2 & Harre2 & _ & _).
  (* append *)
  destruct (HA2 clone ec2 Hc2) as (arrc2 & Harrc2 & Hlen2 & Hcap2).
  destruct (append_bytes_run growslice clone ec2 arrc2
              (take (slen (bytes e)) arre) m2 Hc2 Harrc2 Hlen2 Hcap2)
    as (s' & arr' & Happ & Hptr & Hslen & Hlen' & Hcap' & Htake).
  set (ec3 := set_bytes s' ec2) in *.
  set (m3 := Memory (<[ptr s' := arr']> (arrays m2)) (<[clone := ec3]> (heap m2))
                    (textPool m2)) in *.
  assert (keeps [clone] [(enc, e, arre)] m3) as HK3.
  { apply (keeps_set_slice _ _ m2 clone ec2 ec3 arr' HK2);
      [exact Hcc | exact Hc2 | exact Hptr | exact Hlen' | exact Hcap']. }
  assert (heap m3 !! clone = Some ec3) as Hc3
    by (cbn [m3 heap]; apply lookup_insert_eq).
  pose proof HK3 as (_ & _ & HP3).
  destruct (HP3 (enc, e, arre) Hee) as (He3 & _ & _ & _).
  (* the time format *)
  set (ec4 := set_timeFmt (timeFmt e) ec3).
  set (m4 := Memory (arrays m3) (<[clone := ec4]> (heap m3)) (textPool m3)).
  assert (keeps [clone] [(enc, e, arre)] m4) as HK4.
  { apply (keeps_set_record _ _ m3 clone ec3 ec4 HK3);
      [exact Hcc | exact Hc3 | reflexivity | reflexivity | exact Hlen']. }
  assert (heap m4 !! clone = Some ec4) as Hc4
    by (cbn [m4 heap]; apply lookup_insert_eq).
  pose proof HK4 as (_ & _ & HP4).
  destruct (HP4 (enc, e, arre) Hee) as (He4 & _ & _ & _).
  (* the flag *)
  set (ec5 := set_firstNested (firstNested e) ec4).
  set (m5 := Memory (arrays m4) (<[clone := ec5]> (heap m4)) (textPool m4)).
  assert (keeps [clone] [(enc, e, arre)] m5) as HK5.
  { apply (keeps_set_record _ _ m4 clone ec4 ec5 HK4);
      [exact Hcc | exact Hc4 | reflexivity | reflexivity | exact Hlen']. }
  exists clone, m5, ec5, arr'. split_and!.
  - unfold Clone.
    rewrite (bind_run_mem _ _ _ _ _ HG).
    rewrite (bind_run_mem _ _ _ _ _ Htr).
    rewrite (bind_run_mem _ _ _ _ _ (load_run_mem enc e m2 He2)).
    rewrite (bind_run_mem _ _ _ _ _ (contents_run (bytes e) arre m2 Harre2)).
    rewrite (bind_run_mem _ _ _ _ _ Happ).
    rewrite (bind_run_mem _ _ _ _ _ (load_run_mem enc e m3 He3)).
    rewrite (bind_run_mem _ _ _ _ _ (update_run_mem clone ec3 _ m3 Hc3)).
    rewrite (bind_run_mem _ _ _ _ _ (load_run_mem enc e m4 He4)).
    rewrite (bind_run_mem _ _ _ _ _ (update_run_mem clone ec4 _ m4 Hc4)).
    reflexivity.
  - exact HK5.
  - cbn [m5 heap]. apply lookup_insert_eq.
  - cbn [m5 m4 m3 arrays ec5 ec4 ec3 bytes set_firstNested set_timeFmt
         set_bytes]. apply lookup_insert_eq.
  - cbn [ec5 ec4 ec3 bytes set_firstNested set_timeFmt set_bytes].
    rewrite Htake. cbn [ec2 bytes set_bytes reslice0 slen]. now rewrite take_0.
  - reflexivity.
  - reflexivity.
  - exact Hnd1.
  - exact Hnc1.
Qed.

(** *** Two encoders in use *)

Lemma untouched_snapshot (L : list loc) (m : memory) (b : loc)
    (eb : textEncoder) (arrb : list ascii) :
  untouched L m (b, eb, arrb) →
  snapshot m b
  = Some (take (slen (bytes eb)) arrb, timeFmt eb, firstNested eb).
Proof.
  intros (Hb & Harrb & _). unfold snapshot.
  rewrite Hb. cbn [mbind option_bind]. now rewrite Harrb.
Qed.

Lemma frame_perform_turns (growslice : nat → nat → nat) (P : list kept)
    (turns : list (bool * operation)) (enc clone : loc) (m : memory) :
  keeps [enc; clone] P m →
  wp (perform_turns growslice turns enc clone)
     (λ _ m', keeps [enc; clone] P m') m.
Proof.
  revert m. induction turns as [|[first op] turns IH]; intros m HK;
    cbn [perform_turns].
  - now apply wp_ret_mem.
  - apply wp_bind_mem.
    eapply wp_mono_mem;
      [apply frame_perform_mem; [exact HK | destruct first; set_solver]|].
    intros [] m' HK'. now apply IH.
Qed.

(** An operation on [a] leaves what [b] shows as it is, when [b] is in use. *)
Lemma perform_leaves (growslice : nat → nat → nat) (op : operation)
    (a b : loc) (m : memory) :
  mem_ok m → is_Some (heap m !! a) → is_Some (heap m !! b) → a ≠ b →
  b ∉ textPool m →
  ∃ m2, perform growslice op a m = Some (tt, m2)
        ∧ snapshot m2 b = snapshot m b ∧ (b ∉ textPool m2).
Proof.
  intros Hok Ha [eb Hb] Hne Hnb. pose proof Hok as (HA & _ & _).
  destruct (HA b eb Hb) as (arrb & Harrb & _).
  assert (keeps [a] [(b, eb, arrb)] m) as HK.
  { split_and!; [done | |].
    - now intros l ->%list_elem_of_singleton.
    - intros x ->%list_elem_of_singleton. split_and!; try done.
      now intros ->%list_elem_of_singleton. }
  assert (a ∈ [a]) as Haa by left.
  assert ((b, eb, arrb) ∈ [(b, eb, arrb)]) as Hbb by left.
  destruct (frame_perform_mem growslice [a] _ op a m HK Haa)
    as ([] & m2 & Hrun & HK2).
  exists m2. pose proof HK as (_ & _ & HP). pose proof HK2 as (_ & _ & HP2).
  pose proof (HP (b, eb, arrb) Hbb) as Hu.
  pose proof (HP2 (b, eb, arrb) Hbb) as Hu2.
  split_and!; [exact Hrun | | apply Hu2].
  now rewrite (untouched_snapshot _ _ _ _ _ Hu),
    (untouched_snapshot _ _ _ _ _ Hu2).
Qed.

(** *** The memories that are reached *)

Lemma mem_ok_empty : mem_ok (Memory ∅ ∅ []).
Proof.
  split_and!; cbn [arrays heap textPool].
  - intros l e H. now rewrite lookup_empty in H.
  - intros l1 l2 e1 e2 H. now rewrite lookup_empty in H.
  - intros l H. now apply elem_of_nil in H.
Qed.

Lemma frame_apply_options_mem (L : list loc) (P : list kept) (enc : loc)
    (layouts : list string) (m : memory) :
  keeps L P m → enc ∈ L →
  wp (apply_options enc (TextTimeFormat <$> layouts))
     (λ _ m', keeps L P m') m.
Proof.
  intros HK Henc. revert m HK.
  induction layouts as [|layout layouts IH]; intros m HK;
    cbn [fmap list_fmap apply_options].
  - now apply wp_ret_mem.
  - apply wp_bind_mem. unfold TextTimeFormat at 1. frame_step_mem.
    now apply IH.
Qed.

(** A new encoder leaves the memory well formed and the encoders in use as
    they are. *)
Lemma frame_NewColorEncoder_mem (L : list loc) (P : list kept)
    (pick : option nat) (layouts : list string) (m : memory) :
  keeps L P m →
  wp (NewColorEncoder pick (TextTimeFormat <$> layouts))
     (λ enc m', keeps (enc :: L) P m') m.
Proof.
  intros HK. unfold NewColorEncoder.
  apply wp_bind_mem, (wp_Get_keeps L P); [exact HK|].
  clear HK. intros enc m1 _ HK.
  do 4 frame_step_mem. apply wp_bind_mem.
  eapply wp_mono_mem;
    [apply frame_apply_options_mem; [exact HK | set_solver]|].
  intros [] m2 HK2. now apply wp_ret_mem.
Qed.

(** From the empty memory, a new encoder and any operations on it reach a
    well-formed memory. *)
Lemma mem_ok_reached (growslice : nat → nat → nat) (pick : option nat)
    (layouts : list string) (ops : list operation) :
  ∃ enc m,
    (enc ← NewColorEncoder pick (TextTimeFormat <$> layouts);
     perform_all growslice ops enc;; mret enc) (Memory ∅ ∅ [])
    = Some (enc, m)
    ∧ mem_ok m.
Proof.
  assert (keeps [] [] (Memory ∅ ∅ [])) as HK.
  { split_and!; [apply mem_ok_empty | |].
    - intros l Hl. now apply elem_of_nil in Hl.
    - intros x Hx. now apply elem_of_nil in Hx. }
  destruct (frame_NewColorEncoder_mem [] [] pick layouts _ HK)
    as (enc & m1 & Hnew & HK1).
  assert (enc ∈ [enc]) as Henc by left.
  destruct (frame_perform_all_mem growslice [enc] [] ops enc m1 HK1 Henc)
    as ([] & m2 & Hops & HK2).
  exists enc, m2. split; [|apply HK2].
  rewrite (bind_run_mem _ _ _ _ _ Hnew).
  now rewrite (bind_run_mem _ _ _ _ _ Hops).
Qed.

Lemma example_memory_ok : mem_ok example_memory.
Proof.
  unfold example_memory. split_and!; cbn [arrays heap textPool].
  - intros l e [[<- <-] | [_ [[<- <-] | [_ H]]%lookup_insert_Some]]%lookup_insert_Some.
    + eexists. split; [reflexivity|]. vm_compute. lia.
    + eexists. split; [reflexivity|]. vm_compute. lia.
    + now rewrite lookup_empty in H.
  - intros l1 l2 e1 e2
      [[<- <-] | [_ [[<- <-] | [_ H1]]%lookup_insert_Some]]%lookup_insert_Some
      [[<- <-] | [_ [[<- <-] | [_ H2]]%lookup_insert_Some]]%lookup_insert_Some;
      try done; try (now rewrite lookup_empty in H1);
      try (now rewrite lookup_empty in H2).
  - intros l ->%list_elem_of_singleton. eexists. reflexivity.
Qed.

End memory.

(** ** The clone *)

(** C8: [Clone] yields an independent encoder.  On the memory, where the
    buffer of an encoder is a slice on a backing array: [Clone] runs and
    returns another encoder that shows the bytes, the time format and the
    flag of the original, which is left as it was; the two buffers lie on
    different arrays; and after any operations on the two in any order, an
    operation on one of them leaves what the other shows as it is, as long as
    the other has not been released. *)
Theorem C8_Clone_separate_buffers (growslice : nat → nat → nat)
    (pick : option nat) (enc : loc) (m : Mem.memory) :
  Mem.mem_ok m → NoDup (Mem.textPool m) →
  is_Some (Mem.heap m !! enc) → enc ∉ Mem.textPool m →
  ∃ clone m' c e,
    Mem.Clone growslice pick enc m = Some (clone, m')
    ∧ clone ≠ enc
    ∧ Mem.heap m' !! clone = Some c ∧ Mem.heap m' !! enc = Some e
    ∧ Mem.ptr (Mem.bytes c) ≠ Mem.ptr (Mem.bytes e)
    ∧ is_Some (Mem.snapshot m enc)
    ∧ Mem.snapshot m' clone = Mem.snapshot m enc
    ∧ Mem.snapshot m' enc = Mem.snapshot m enc
    ∧ Mem.mem_ok m' ∧ NoDup (Mem.textPool m')
    ∧ (clone ∉ Mem.textPool m') ∧ (enc ∉ Mem.textPool m')
    ∧ ∀ turns, ∃ m1,
        Mem.perform_turns growslice turns enc clone m' = Some (tt, m1)
        ∧ Mem.mem_ok m1
        ∧ ∀ op,
            (clone ∉ Mem.textPool m1 →
             ∃ m2, Mem.perform growslice op enc m1 = Some (tt, m2)
                   ∧ Mem.snapshot m2 clone = Mem.snapshot m1 clone
                   ∧ (clone ∉ Mem.textPool m2))
            ∧ (enc ∉ Mem.textPool m1 →
               ∃ m2, Mem.perform growslice op clone m1 = Some (tt, m2)
                     ∧ Mem.snapshot m2 enc = Mem.snapshot m1 enc
                     ∧ (enc ∉ Mem.textPool m2)).
Proof.
  intros Hok Hnd [e He] Hnp. pose proof Hok as (HA & _ & _).
  destruct (HA enc e He) as (arre & Harre & _).
  destruct (Clone_run_mem growslice pick enc e arre m Hok Hnd He Harre Hnp)
    as (clone & m' & c & arrc & Hrun & HK & Hc & Harrc & Htake & Ht & Hf
        & Hnd' & Hnc').
  pose proof HK as (Hok' & HL' & HP').
  assert ((enc, e, arre) ∈ [(enc, e, arre)]) as Hee by left.
  destruct (HP' _ Hee) as (He' & Harre' & Hnp' & Hne).
  assert (clone ≠ enc) as Hce
    by (intros ->; apply Hne; left).
  assert (Mem.snapshot m enc
          = Some (take (Mem.slen (Mem.bytes e)) arre, Mem.timeFmt e,
                  Mem.firstNested e)) as Hsnap.
  { unfold Mem.snapshot. rewrite He. cbn [mbind option_bind].
    now rewrite Harre. }
  exists clone, m', c, e.
  split_and!; [done | done | done | done | | | | | done | done | done | done |].
  - intros Heq. apply Hce. destruct Hok' as (_ & HB & _).
    now apply (HB clone enc c e).
  - rewrite Hsnap. eauto.
  - rewrite Hsnap. unfold Mem.snapshot. rewrite Hc. cbn [mbind option_bind].
    rewrite Harrc. cbn [mbind option_bind]. now rewrite Htake, Ht, Hf.
  - rewrite Hsnap. apply (untouched_snapshot _ _ _ _ _ (HP' _ Hee)).
  - intros turns.
    assert (Mem.keeps [enc; clone] [] m') as HK2.
    { split_and!; [done | |].
      - intros l [-> | ->%list_elem_of_singleton]%elem_of_cons; eauto.
      - intros x Hx. now apply elem_of_nil in Hx. }
    destruct (frame_perform_turns growslice [] turns enc clone m' HK2)
      as ([] & m1 & Hturns & Hok1 & HL1 & _).
    exists m1. split_and!; [done | done |].
    assert (is_Some (Mem.heap m1 !! enc)) as Henc1 by (apply HL1; left).
    assert (is_Some (Mem.heap m1 !! clone)) as Hclone1
      by (apply HL1; right; left).
    intros op. split; intros Hfree.
    + now apply perform_leaves.
    + now apply perform_leaves.
Qed.

(** ** The entry renderer *)

(** C4: [WriteEntry] hands the assembled line to the sink in one call; when
    the sink reports no error but a count that is not the length of the line,
    the result is the short-write error; and whatever the sink answers, the
    encoder taken from the pool for the assembly is put back. *)
Theorem C4_short_write_and_release (pick : option nat) (enc : loc)
    (sink : Writer) (msg : string) (lvl : Level) (t : time.Time)
    (e : textEncoder) (w : world) :
  pool_allocated w → heap w !! enc = Some e → enc ∉ textPool w →
  ∃ final w1 line w',
    Get pick w = Some (final, w1)
    ∧ line = entry_line e msg lvl t
    ∧ WriteEntry pick enc (Some sink) msg lvl t w =
        Some (([line],
               match Write sink line with
               | (_, Some err) => Some err
               | (n, None) =>
                   if n =? len line then None
                   else Some (incomplete_write n (len line))
               end), w')
    ∧ textPool w' = final :: textPool w1.
Proof.
  intros Hok He Hout.
  destruct (WriteEntry_run pick enc sink msg lvl t e w Hok He Hout)
    as (final & f & p & HG & Hrun & _).
  eexists final, _, _, _. split; [exact HG|]. split; [reflexivity|].
  split; [exact Hrun | reflexivity].
Qed.

(** C9: [WriteEntry] leaves the field encoder as it was, whatever the sink
    (absent or present), the message, the level and the time, and whatever
    the result: same buffer, same time format, same flag, and it is not put
    into the pool. *)
Theorem C9_WriteEntry_keeps_encoder (pick : option nat) (enc : loc)
    (sink : option Writer) (msg : string) (lvl : Level) (t : time.Time)
    (e : textEncoder) (w : world) :
  pool_allocated w → heap w !! enc = Some e → enc ∉ textPool w →
  ∃ r w',
    WriteEntry pick enc sink msg lvl t w = Some (r, w')
    ∧ heap w' !! enc = Some e
    ∧ enc ∉ textPool w'.
Proof.
  intros Hok He Hout.
  pose proof (keeps_in_use enc e w Hok He Hout) as HK.
  destruct (frame_WriteEntry [enc] enc e pick enc sink msg lvl t w HK)
    as (r & w' & Hrun & Hb & Hnb & _); [set_solver|].
  now exists r, w'.
Qed.

(** C6: the scenario writes exactly the line [[INFO] <timestamp> login],
    twenty spaces, [ user=alice] and a line feed, the tag and the key being
    wrapped in their colours; in general the message, when it is not empty,
    comes after one space, is padded with spaces up to 25 characters and is
    never cut, and the fields follow one space later, then the line feed. *)
Theorem C6_login_line (pick1 pick2 : option nat) (sink : Writer)
    (t : time.Time) (w : world) :
  pool_ok w →
  (∃ r w', login_scenario pick1 pick2 sink t w = Some (([login_line t], r), w'))
  ∧ ∀ enc e msg lvl,
      heap w !! enc = Some e → enc ∉ textPool w →
      ∃ r w',
        WriteEntry pick2 enc (Some sink) msg lvl t w =
        Some (([level_text lvl
                +:+ (if String.eqb (timeFmt e) "" then ""
                     else " " +:+ time.Format t (timeFmt e))
                +:+ (if String.eqb msg "" then ""
                     else " " +:+ msg
                          +:+ spaces (25 - utf8.RuneCountInString msg))
                +:+ (if String.eqb (bytes e) "" then "" else " " +:+ bytes e)
                +:+ LF], r), w').
Proof.
  intros Hok. split.
  - destruct (NewColorEncoder_run pick1 w Hok)
      as (enc & f & p & Hnew & Hencp & Hnd & Hsub).
    unfold login_scenario. erewrite bind_run by exact Hnew.
    erewrite bind_run by (apply on_run; cbn [heap]; apply lookup_insert_eq).
    cbn [heap textPool fst snd]. rewrite insert_insert_eq.
    set (e2 := AddString "user" "alice" (set_timeFmt time.RFC3339 (truncate f))).
    set (w2 := World (<[enc := e2]> (heap w)) p).
    destruct (WriteEntry_run pick2 enc sink "login" InfoLevel t e2 w2)
      as (final & f' & p' & _ & Hrun & _).
    + apply pool_allocated_after; [apply Hok | exact Hsub].
    + apply lookup_insert_eq.
    + exact Hencp.
    + rewrite Hrun. eexists _, _. do 3 f_equal.
  - intros enc e msg lvl He Hout.
    destruct (WriteEntry_run pick2 enc sink msg lvl t e w (proj2 Hok) He Hout)
      as (final & f & p & _ & Hrun & _).
    rewrite Hrun. eexists _, _. reflexivity.
Qed.

(** ** Instances *)

Ltac by_decide :=
  apply (bool_decide_unpack _); vm_compute; exact I.

Lemma example_world_ok : pool_ok example_world.
Proof. unfold pool_ok. by_decide. Defined.

Lemma C1_witness :
  key_color "user" = palette_index "user"
  ∧ 1 <= palette_index "user" <= 7
  ∧ bytes (dispatch (CallAddString "user" "alice") textPool_New).1 =
      bytes textPool_New +:+ separator (at_start textPool_New)
      +:+ ESC +:+ "[3"
      +:+ String (ascii_of_N (Z.to_N (48 + palette_index "user"))) ""
      +:+ ";1m" +:+ "user" +:+ ESC +:+ "[0m"
      +:+ "=" +:+ "alice".
Proof.
  apply (C1_key_colour (CallAddString "user" "alice") textPool_New).
  vm_compute. discriminate.
Defined.

Lemma C5_witness :
  (AddMarshaler "obj" failing_marshaler textPool_New).2 = Some (foreignError 7)
  ∧ bytes (AddMarshaler "obj" failing_marshaler textPool_New).1 =
      bytes textPool_New +:+ separator (at_start textPool_New)
      +:+ Sprintf_key (key_color "obj") "obj" +:+ "=" +:+ "{"
      +:+ render_fields true (emitted_by failing_marshaler).1 +:+ "}".
Proof.
  apply (C5_nested_error "obj" failing_marshaler textPool_New (foreignError 7)).
  reflexivity.
Defined.

Lemma C4_witness :
  ∃ final w1 line w',
    Get (Some 0%nat) example_world = Some (final, w1)
    ∧ line = entry_line example_encoder "login" InfoLevel example_time
    ∧ WriteEntry (Some 0%nat) 0%nat (Some short_sink) "login" InfoLevel
        example_time example_world =
        Some (([line],
               match Write short_sink line with
               | (_, Some err) => Some err
               | (n, None) =>
                   if n =? len line then None
                   else Some (incomplete_write n (len line))
               end), w')
    ∧ textPool w' = final :: textPool w1.
Proof.
  apply (C4_short_write_and_release (Some 0%nat) 0%nat short_sink "login"
           InfoLevel example_time example_encoder example_world).
  - exact (proj2 example_world_ok).
  - reflexivity.
  - by_decide.
Defined.

Lemma C9_witness :
  ∃ r w',
    WriteEntry (Some 0%nat) 0%nat (Some short_sink) "login" InfoLevel
      example_time example_world = Some (r, w')
    ∧ heap w' !! 0%nat = Some example_encoder
    ∧ 0%nat ∉ textPool w'.
Proof.
  apply (C9_WriteEntry_keeps_encoder (Some 0%nat) 0%nat (Some short_sink)
           "login" InfoLevel example_time example_encoder example_world).
  - exact (proj2 example_world_ok).
  - reflexivity.
  - by_decide.
Defined.

Lemma C8_witness_separate_buffers :
  ∃ clone m' c e,
    Mem.Clone Mem.example_growslice (Some 0%nat) 0%nat Mem.example_memory
    = Some (clone, m')
    ∧ clone ≠ 0%nat
    ∧ Mem.heap m' !! clone = Some c ∧ Mem.heap m' !! 0%nat = Some e
    ∧ Mem.ptr (Mem.bytes c) ≠ Mem.ptr (Mem.bytes e)
    ∧ is_Some (Mem.snapshot Mem.example_memory 0%nat)
    ∧ Mem.snapshot m' clone = Mem.snapshot Mem.example_memory 0%nat
    ∧ Mem.snapshot m' 0%nat = Mem.snapshot Mem.example_memory 0%nat
    ∧ Mem.mem_ok m' ∧ NoDup (Mem.textPool m')
    ∧ (clone ∉ Mem.textPool m') ∧ (0%nat ∉ Mem.textPool m')
    ∧ ∀ turns, ∃ m1,
        Mem.perform_turns Mem.example_growslice turns 0%nat clone m'
        = Some (tt, m1)
        ∧ Mem.mem_ok m1
        ∧ ∀ op,
            (clone ∉ Mem.textPool m1 →
             ∃ m2, Mem.perform Mem.example_growslice op 0%nat m1
                   = Some (tt, m2)
                   ∧ Mem.snapshot m2 clone = Mem.snapshot m1 clone
                   ∧ (clone ∉ Mem.textPool m2))
            ∧ (0%nat ∉ Mem.textPool m1 →
               ∃ m2, Mem.perform Mem.example_growslice op clone m1
                     = Some (tt, m2)
                     ∧ Mem.snapshot m2 0%nat = Mem.snapshot m1 0%nat
                     ∧ (0%nat ∉ Mem.textPool m2)).
Proof.
  apply (C8_Clone_separate_buffers Mem.example_growslice (Some 0%nat) 0%nat
           Mem.example_memory).
  - exact example_memory_ok.
  - apply (bool_decide_unpack _). vm_compute. exact I.
  - eexists. vm_compute. reflexivity.
  - apply (bool_decide_unpack _). vm_compute. exact I.
Defined.

(** The clone of the instance: the pooled encoder, whose buffer of 4 bytes
    was too small and was moved to a new array. *)
Example Clone_example :
  ∃ m', Mem.Clone Mem.example_growslice (Some 0%nat) 0%nat Mem.example_memory
        = Some (1%nat, m')
        ∧ Mem.bytes <$> Mem.heap m' !! 1%nat
          = Some (Mem.Slice 2%nat (length example_bytes) (length example_bytes))
        ∧ Mem.snapshot m' 1%nat
          = Some (example_bytes, time.RFC3339, false).
Proof. eexists. split_and!; vm_compute; reflexivity. Qed.

(** Where two buffers lie on one array, the memory is not well formed, and a
    field added to one encoder changes what the other shows: the encoders of
    the memory model are not independent by construction. *)
Example shared_array_interferes :
  ¬ Mem.mem_ok Mem.shared_memory
  ∧ ∃ m2, Mem.perform Mem.example_growslice (OpAdd (CallAddString "k" "v"))
            1%nat Mem.shared_memory = Some (tt, m2)
          ∧ Mem.snapshot m2 0%nat ≠ Mem.snapshot Mem.shared_memory 0%nat.
Proof.
  split.
  - intros (_ & HB & _).
    specialize (HB 0%nat 1%nat _ _ eq_refl eq_refl eq_refl). discriminate.
  - eexists. split; [vm_compute; reflexivity|]. vm_compute. discriminate.
Qed.

Lemma C6_witness :
  ∃ r w',
    login_scenario (Some 0%nat) None full_sink example_time example_world =
    Some (([login_line example_time], r), w').
Proof.
  exact (proj1 (C6_login_line (Some 0%nat) None full_sink example_time
                  example_world example_world_ok)).
Defined.

(** The pool contract cannot be dropped from the statements above: an encoder
    that was released may be the one [WriteEntry] takes from the pool for the
    assembly, and its buffer is then overwritten. *)
Example released_encoder_is_reused :
  ∃ r w',
    WriteEntry (Some 0%nat) 0%nat (Some full_sink) "login" InfoLevel
      example_time (World (<[0%nat := example_encoder]> ∅) [0%nat])
    = Some (r, w')
    ∧ heap w' !! 0%nat ≠ Some example_encoder.
Proof.
  eexists _, _. split; [vm_compute; reflexivity|].
  vm_compute. discriminate.
Qed.

(** * Further properties of the code *)

(** ** Accumulation *)

(** X7: every accumulation call leaves the time format alone, leaves the flag
    cleared, and only appends to the buffer, at least one byte; a callback as
    a whole leaves the time format alone and only appends. *)
Theorem accumulation_appends (c : call) (obj : LogMarshaler)
    (enc : textEncoder) :
  (timeFmt (dispatch c enc).1 = timeFmt enc
   ∧ firstNested (dispatch c enc).1 = false
   ∧ ∃ suffix, bytes (dispatch c enc).1 = bytes enc +:+ suffix
               ∧ (0 < String.length suffix)%nat)
  ∧ (timeFmt (MarshalLog obj enc).1 = timeFmt enc
     ∧ ∃ suffix, bytes (MarshalLog obj enc).1 = bytes enc +:+ suffix).
Proof.
  split.
  - pose proof (dispatch_post c enc) as Hpost. unfold call_post in Hpost.
    destruct (dispatch c enc) as [enc' r]. injection Hpost as -> _.
    cbn [fst timeFmt firstNested bytes].
    split_and!; [reflexivity.. |].
    eexists. split; [reflexivity | apply render_field_length].
  - destruct (MarshalLog_post obj enc) as (Hb & Ht & _).
    split; [exact Ht|]. eexists. exact Hb.
Qed.

(** X8: [AddMarshaler] in general: it returns what the callback returns, error or
    not; the fields of the callback stand between braces after the key; the
    flag is cleared afterwards.  A callback that emits nothing leaves [{}]. *)
Theorem AddMarshaler_frame (key : string) (obj : LogMarshaler)
    (enc : textEncoder) (err : option error) :
  AddMarshaler key obj enc =
    ({| bytes := bytes enc +:+ separator (at_start enc)
                 +:+ Sprintf_key (key_color key) key +:+ "=" +:+ "{"
                 +:+ render_fields true (emitted_by obj).1 +:+ "}";
        timeFmt := timeFmt enc;
        firstNested := false |},
     (MarshalLog obj
        (append_bytes "{" (set_firstNested true (addKey key enc)))).2)
  ∧ bytes (AddMarshaler key (Return err) enc).1 =
      bytes enc +:+ separator (at_start enc)
      +:+ Sprintf_key (key_color key) key +:+ "={}"
  ∧ (AddMarshaler key (Return err) enc).2 = err.
Proof.
  split; [|split; [|reflexivity]].
  - pose proof (MarshalLog_post obj
      (append_bytes "{" (set_firstNested true (addKey key enc))))
      as (_ & _ & _ & _ & He).
    rewrite He. rewrite AddMarshaler_dispatch, (dispatch_post _ enc).
    cbn [emitted_by_call]. destruct (emitted_by obj) as [fs err'].
    cbn [fst snd]. now rewrite render_field_Nested.
  - rewrite AddMarshaler_dispatch, (dispatch_post _ enc).
    cbn [fst bytes emitted_by_call emitted_by].
    rewrite render_field_Nested. cbn [render_fields].
    now rewrite !app_empty_l.
Qed.

(** ** The colour of a key, in general *)

Lemma int_wrap_range (z : Z) : - 2 ^ 63 <= int_wrap z <= MaxInt.
Proof.
  unfold int_wrap, MaxInt, intSize.
  change (2 ^ (64 - 1)) with 9223372036854775808.
  change (2 ^ 64) with 18446744073709551616.
  change (2 ^ 63) with 9223372036854775808.
  pose proof (Z.mod_pos_bound (z + 9223372036854775808) 18446744073709551616
                ltac:(lia)).
  lia.
Qed.

Lemma int_wrap_add (a b : Z) : int_wrap (int_wrap a + b) = int_wrap (a + b).
Proof.
  unfold int_wrap. f_equal.
  replace ((a + 2 ^ (intSize - 1)) mod 2 ^ intSize - 2 ^ (intSize - 1) + b
           + 2 ^ (intSize - 1))
    with ((a + 2 ^ (intSize - 1)) mod 2 ^ intSize + b) by lia.
  rewrite Zplus_mod_idemp_l. f_equal. lia.
Qed.

Lemma sum_loop_wrapped (key : string) (acc : Z) :
  int_wrap acc = acc → sum_loop acc key = int_wrap (acc + byte_sum key).
Proof.
  revert acc. induction key as [|c key IH]; intros acc Hacc; simpl.
  - now rewrite Z.add_0_r, Hacc.
  - rewrite IH.
    + rewrite int_wrap_add. f_equal. lia.
    + apply int_wrap_small, int_wrap_range.
Qed.

Lemma byte_sum_total (key : string) :
  byte_sum key = bytes_total (list_ascii_of_string key).
Proof. induction key as [|c key IH]; simpl; [reflexivity | now rewrite IH]. Qed.

Lemma bytes_total_perm (l1 l2 : list ascii) :
  l1 ≡ₚ l2 → bytes_total l1 = bytes_total l2.
Proof.
  induction 1 as [| c l1 l2 _ IH | c d l | l1 l2 l3 _ IH1 _ IH2]; simpl.
  - reflexivity.
  - now rewrite IH.
  - lia.
  - now rewrite IH1.
Qed.

(** X10: the colour of a key does not depend on the order of its bytes: two keys
    that are made of the same bytes get the same colour, of whatever length
    they are. *)
Theorem key_color_anagram (key1 key2 : string) :
  list_ascii_of_string key1 ≡ₚ list_ascii_of_string key2 →
  key_color key1 = key_color key2.
Proof.
  intros Hperm. unfold key_color.
  rewrite !sum_loop_wrapped by reflexivity.
  rewrite !byte_sum_total. now rewrite (bytes_total_perm _ _ Hperm).
Qed.

(** X9: whatever the length of the key, the colour index is the remainder of the
    wrapped sum of its bytes, plus one; it never exceeds 7 and never falls
    below -5. *)
Theorem key_color_wrapped (key : string) :
  key_color key = Z.rem (int_wrap (byte_sum key)) 7 + 1
  ∧ -5 <= key_color key <= 7.
Proof.
  assert (key_color key = Z.rem (int_wrap (byte_sum key)) 7 + 1) as Heq.
  { unfold key_color. rewrite sum_loop_wrapped by reflexivity.
    rewrite Z.add_0_l.
    pose proof (Z.rem_bound_abs (int_wrap (byte_sum key)) 7 ltac:(lia)).
    apply int_wrap_small. rewrite MaxInt_eq.
    change (2 ^ 63) with 9223372036854775808. lia. }
  split; [exact Heq|]. rewrite Heq.
  pose proof (Z.rem_bound_abs (int_wrap (byte_sum key)) 7 ltac:(lia)). lia.
Qed.

(** ** The message column *)

Lemma spaces_length (n : nat) : String.length (spaces n) = n.
Proof. induction n as [|n IH]; simpl; [reflexivity | now rewrite IH]. Qed.

Lemma rune_width_ascii (c : ascii) (rest : string) :
  is_ascii c = true → utf8.rune_width c rest = 1%nat.
Proof.
  unfold is_ascii, utf8.rune_width, utf8.first. intros Hc.
  apply N.ltb_lt in Hc.
  destruct (N.ltb_spec (N_of_ascii c) 194) as [_ | Hge]; [reflexivity | lia].
Qed.

Lemma count_runes_ascii (s : string) (fuel : nat) :
  all_bytes is_ascii s = true → (String.length s <= fuel)%nat →
  utf8.count_runes fuel s = String.length s.
Proof.
  revert fuel. induction s as [|c s IH]; intros fuel Hs Hfuel.
  - now destruct fuel.
  - simpl in Hs. apply andb_prop in Hs as [Hc Hs].
    destruct fuel as [|fuel]; [simpl in Hfuel; lia|].
    cbn [utf8.count_runes]. rewrite rune_width_ascii by exact Hc.
    cbn [Nat.sub utf8.skip]. simpl String.length. f_equal.
    apply IH; [exact Hs | simpl in Hfuel; lia].
Qed.

(** X11: a message of ASCII bytes is written after one space, followed by as many
    spaces as it lacks to 25 bytes: the column is [max 25 (len msg)] bytes
    wide, and a message of 25 bytes or more is written as it is. *)
Theorem addMessage_ascii (enc final : textEncoder) (msg : string) :
  all_bytes is_ascii msg = true → msg ≠ "" →
  bytes (addMessage enc final msg) =
    bytes final +:+ " " +:+ msg +:+ spaces (25 - String.length msg)
  ∧ String.length (bytes (addMessage enc final msg)) =
      (String.length (bytes final) + 1 + Nat.max 25 (String.length msg))%nat
  ∧ ((25 <= String.length msg)%nat →
     bytes (addMessage enc final msg) = bytes final +:+ " " +:+ msg).
Proof.
  intros Hascii Hne.
  assert (bytes (addMessage enc final msg) =
          bytes final +:+ " " +:+ msg +:+ spaces (25 - String.length msg))
    as Hb.
  { unfold addMessage.
    destruct (String.eqb_spec msg "") as [-> | _]; [done|].
    unfold append_bytes, set_bytes, fmt.Sprintf_left25,
      utf8.RuneCountInString. cbn [negb bytes].
    rewrite count_runes_ascii by (exact Hascii || lia).
    now rewrite app_assoc_s. }
  split; [exact Hb|]. split.
  - rewrite Hb, !length_app_s, spaces_length.
    change (String.length " ") with 1%nat. lia.
  - intros Hlong. rewrite Hb.
    replace (25 - String.length msg)%nat with 0%nat by lia.
    cbn [spaces]. now rewrite app_empty_r.
Qed.

(** ** Building an encoder *)

Lemma set_timeFmt_twice (a b : string) (x : textEncoder) :
  set_timeFmt a (set_timeFmt b x) = set_timeFmt a x.
Proof. reflexivity. Qed.

Lemma apply_layouts_run (enc : loc) (layouts : list string) (d : string)
    (x : textEncoder) (h : gmap loc textEncoder) (p : list loc) :
  apply_options enc (TextTimeFormat <$> layouts)
    (World (<[enc := set_timeFmt d x]> h) p)
  = Some (tt, World (<[enc := set_timeFmt (default d (last layouts)) x]> h) p).
Proof.
  revert d. induction layouts as [|layout layouts IH]; intros d.
  - reflexivity.
  - cbn [fmap list_fmap apply_options]. run_update.
    unfold TextTimeFormat at 1. rewrite set_timeFmt_twice, IH.
    destruct layouts as [|layout' layouts]; [reflexivity|].
    rewrite last_cons_cons.
    destruct (last (layout' :: layouts)) eqn:Hlast; [reflexivity|].
    now apply last_None in Hlast.
Qed.

Lemma NewColorEncoder_layouts_run (pick : option nat) (layouts : list string)
    (w : world) :
  pool_ok w →
  ∃ enc f p,
    NewColorEncoder pick (TextTimeFormat <$> layouts) w =
      Some (enc,
            World (<[enc := set_timeFmt (final_layout layouts) (truncate f)]>
                     (heap w)) p)
    ∧ (enc ∉ p) ∧ NoDup p ∧ p ⊆ textPool w
    ∧ (∀ b, is_Some (heap w !! b) → b ∉ textPool w → enc ≠ b).
Proof.
  intros [Hnd Halloc].
  destruct (Get_alloc pick w Halloc) as (enc & f & p & HG & Hsub & Hne & Hp).
  destruct (Hp Hnd) as [Hl Hndp].
  exists enc, f, p. split; [|done].
  unfold NewColorEncoder. erewrite bind_run by exact HG.
  run_update. run_update.
  erewrite bind_run by apply apply_layouts_run. reflexivity.
Qed.

(** X1: [NewColorEncoder] with the options [TextTimeFormat layout], which are all
    the options there are: the encoder it returns has an empty buffer,
    whatever the pooled encoder held, and the layout of the last option, or
    RFC3339 when there is none; it is not in the pool, it is none of the
    encoders in use, and these are left as they were. *)
Theorem NewColorEncoder_options (pick : option nat) (layouts : list string)
    (w : world) :
  pool_ok w →
  ∃ enc w',
    NewColorEncoder pick (TextTimeFormat <$> layouts) w = Some (enc, w')
    ∧ (∃ flag, heap w' !! enc =
               Some {| bytes := ""; timeFmt := final_layout layouts;
                       firstNested := flag |})
    ∧ (enc ∉ textPool w')
    ∧ pool_ok w'
    ∧ (∀ b eb, heap w !! b = Some eb → b ∉ textPool w →
               b ≠ enc ∧ heap w' !! b = Some eb ∧ b ∉ textPool w').
Proof.
  intros Hok.
  destruct (NewColorEncoder_layouts_run pick layouts w Hok)
    as (enc & f & p & Hrun & Hencp & Hnd & Hsub & Hne).
  eexists enc, _. split; [exact Hrun|]. cbn [heap textPool]. split_and!.
  - exists (firstNested f). apply lookup_insert_eq.
  - exact Hencp.
  - now apply pool_ok_after.
  - intros b eb Hb Hbp.
    assert (enc ≠ b) as Hneq by (apply Hne; eauto).
    split_and!; [congruence | now rewrite lookup_insert_ne |].
    intros Hin. apply Hbp, Hsub, Hin.
Qed.

(** X2: a released encoder that the pool hands out again comes back with an empty
    buffer and the time format of the options; only its flag is the one it
    was released with. *)
Theorem recycle_resets (enc : loc) (e : textEncoder) (layouts : list string)
    (w : world) :
  heap w !! enc = Some e →
  recycle enc (TextTimeFormat <$> layouts) w =
  Some (enc,
        World (<[enc := {| bytes := ""; timeFmt := final_layout layouts;
                           firstNested := firstNested e |}]> (heap w))
              (textPool w)).
Proof.
  intros He. unfold recycle, Free.
  erewrite bind_run by reflexivity.
  unfold NewColorEncoder. erewrite bind_run by reflexivity.
  cbn [heap textPool delete list_delete default].
  erewrite bind_run by (apply update_run; cbn [heap]; exact He).
  cbn [heap textPool]. run_update.
  erewrite bind_run by apply apply_layouts_run. reflexivity.
Qed.

(** ** Whole entries *)

Lemma render_fields_empty (fs : list emitted) :
  String.eqb (render_fields true fs) "" = match fs with [] => true | _ => false end.
Proof.
  destruct fs as [|f fs]; [reflexivity|].
  cbn [render_fields]. apply String.eqb_neq. intros Heq.
  pose proof (render_field_length true f) as Hlen.
  apply (f_equal String.length) in Heq. rewrite length_app_s in Heq.
  simpl in Heq. lia.
Qed.

Lemma keeps_pool_allocated (L : list loc) (b : loc) (eb : textEncoder)
    (w : world) :
  keeps L b eb w → pool_allocated w.
Proof. intros (_ & _ & Hpool & _). now apply Forall_forall. Qed.

(** [WriteEntry] on an encoder in use: what it returns, and what it keeps. *)
Lemma WriteEntry_step (pick : option nat) (enc : loc) (sink : Writer)
    (msg : string) (lvl : Level) (t : time.Time) (e : textEncoder)
    (w : world) :
  pool_allocated w → heap w !! enc = Some e → enc ∉ textPool w →
  ∃ w',
    WriteEntry pick enc (Some sink) msg lvl t w =
      Some (([entry_line e msg lvl t],
             write_outcome sink (entry_line e msg lvl t)), w')
    ∧ pool_allocated w'
    ∧ (∀ b eb, heap w !! b = Some eb → b ∉ textPool w →
               heap w' !! b = Some eb ∧ b ∉ textPool w').
Proof.
  intros Halloc He Hout.
  destruct (WriteEntry_run pick enc sink msg lvl t e w Halloc He Hout)
    as (final & f & p & _ & Hrun & _).
  eexists. split; [exact Hrun|].
  pose proof (keeps_in_use enc e w Halloc He Hout) as HK.
  destruct (frame_WriteEntry [enc] enc e pick enc (Some sink) msg lvl t w HK)
    as (r & w' & Hrun' & HK'); [set_solver|].
  rewrite Hrun in Hrun'. injection Hrun' as _ Hw. rewrite Hw.
  split; [eapply keeps_pool_allocated, HK'|].
  intros b eb Hb Hbp.
  assert (keeps [enc] b eb w) as HKb.
  { destruct HK as (_ & _ & ? & ?). repeat split; done. }
  destruct (frame_WriteEntry [enc] b eb pick enc (Some sink) msg lvl t w HKb)
    as (r' & w'' & Hrun'' & Hb' & Hbp' & _); [set_solver|].
  rewrite Hrun in Hrun''. injection Hrun'' as _ Hw'. rewrite Hw', <- Hw in *.
  done.
Qed.

(** X5: an encoder in use can be rendered any number of times: each call hands
    its sink the line of the fields accumulated so far, and the encoder is
    the same afterwards and still in use. *)
Theorem write_entries_same_fields (enc : loc) (e : textEncoder)
    (reqs : list request) (w : world) :
  pool_allocated w → heap w !! enc = Some e → enc ∉ textPool w →
  ∃ w',
    write_entries enc reqs w = Some (answer e <$> reqs, w')
    ∧ heap w' !! enc = Some e
    ∧ enc ∉ textPool w'.
Proof.
  revert w. induction reqs as [|[[[[pick sink] msg] lvl] t] reqs IH];
    intros w Halloc He Hout.
  - exists w. done.
  - destruct (WriteEntry_step pick enc sink msg lvl t e w Halloc He Hout)
      as (w1 & Hrun & Halloc1 & Hframe).
    destruct (Hframe enc e He Hout) as [He1 Hout1].
    destruct (IH w1 Halloc1 He1 Hout1) as (w' & Hrest & He' & Hout').
    exists w'. split; [|done].
    cbn [write_entries]. erewrite bind_run by exact Hrun.
    erewrite bind_run by exact Hrest. reflexivity.
Qed.

Lemma log_entry_run (pick1 pick2 : option nat) (layouts : list string)
    (obj : LogMarshaler) (sink : Writer) (msg : string) (lvl : Level)
    (t : time.Time) (w : world) :
  pool_ok w →
  ∃ line w',
    log_entry pick1 pick2 (TextTimeFormat <$> layouts) obj sink msg lvl t w
      = Some (([line], write_outcome sink line), w')
    ∧ line =
        level_text lvl
        +:+ (if String.eqb (final_layout layouts) "" then ""
             else " " +:+ time.Format t (final_layout layouts))
        +:+ (if String.eqb msg "" then "" else " " +:+ padded msg)
        +:+ (match (emitted_by obj).1 with
             | [] => ""
             | fs => " " +:+ render_fields true fs
             end)
        +:+ LF.
Proof.
  intros Hok.
  destruct (NewColorEncoder_layouts_run pick1 layouts w Hok)
    as (enc & f & p & Hnew & Hencp & Hnd & Hsub & _).
  set (e1 := set_timeFmt (final_layout layouts) (truncate f)) in *.
  destruct (MarshalLog_post obj e1) as (Hb & Ht & _).
  set (e2 := (MarshalLog obj e1).1) in *.
  set (w2 := World (<[enc := e2]> (heap w)) p).
  destruct (WriteEntry_step pick2 enc sink msg lvl t e2 w2)
    as (w' & Hrun & _).
  { apply pool_allocated_after; [apply Hok | exact Hsub]. }
  { apply lookup_insert_eq. }
  { exact Hencp. }
  exists (entry_line e2 msg lvl t), w'. split.
  - unfold log_entry. erewrite bind_run by exact Hnew.
    erewrite bind_run by (apply on_run; cbn [heap]; apply lookup_insert_eq).
    cbn [heap textPool]. rewrite insert_insert_eq. exact Hrun.
  - unfold entry_line. rewrite Ht, Hb. cbn [e1 set_timeFmt timeFmt bytes truncate set_bytes].
    rewrite app_empty_l.
    replace (at_start e1) with true by reflexivity.
    rewrite render_fields_empty.
    now destruct ((emitted_by obj).1).
Qed.

(** X3: an entry from start to end.  Whatever the pool hands out, the sink
    receives the level tag, the time in the layout of the last option (or
    nothing when that layout is empty), the message, and the fields of the
    caller in the order of the calls, the first one after a single space. *)
Theorem log_entry_line (pick1 pick2 : option nat) (layouts : list string)
    (obj : LogMarshaler) (sink : Writer) (msg : string) (lvl : Level)
    (t : time.Time) (w : world) :
  pool_ok w →
  ∃ line w',
    log_entry pick1 pick2 (TextTimeFormat <$> layouts) obj sink msg lvl t w
      = Some (([line], write_outcome sink line), w')
    ∧ line =
        level_text lvl
        +:+ (if String.eqb (final_layout layouts) "" then ""
             else " " +:+ time.Format t (final_layout layouts))
        +:+ (if String.eqb msg "" then "" else " " +:+ padded msg)
        +:+ (match (emitted_by obj).1 with
             | [] => ""
             | fs => " " +:+ render_fields true fs
             end)
        +:+ LF.
Proof. apply log_entry_run. Qed.

(** X4: with [TextNoTime] as the last option the time is never formatted: the
    line is the same whatever the time, and holds the level tag, the message
    and the fields only. *)
Theorem log_entry_no_time (pick1 pick2 : option nat)
    (options : list string) (obj : LogMarshaler) (sink : Writer)
    (msg : string) (lvl : Level) (w : world) :
  pool_ok w →
  ∃ line,
    line =
      level_text lvl
      +:+ (if String.eqb msg "" then "" else " " +:+ padded msg)
      +:+ (match (emitted_by obj).1 with
           | [] => ""
           | fs => " " +:+ render_fields true fs
           end)
      +:+ LF
    ∧ ∀ t, ∃ w',
        log_entry pick1 pick2 ((TextTimeFormat <$> options) ++ [TextNoTime])
          obj sink msg lvl t w
        = Some (([line], write_outcome sink line), w').
Proof.
  intros Hok. eexists. split; [reflexivity|]. intros t.
  destruct (log_entry_run pick1 pick2 (options ++ [""]) obj sink msg lvl t w
              Hok) as (line & w' & Hrun & ->).
  exists w'. rewrite fmap_app in Hrun. cbn [fmap list_fmap] in Hrun.
  unfold final_layout in Hrun. rewrite last_snoc in Hrun.
  cbn [default String.eqb] in Hrun. rewrite app_empty_l in Hrun.
  exact Hrun.
Qed.

(** X6: a clone that receives one more field is rendered with the fields of the
    original followed by the new one; the original is rendered afterwards
    with its own fields only. *)
Theorem child_entries_lines (pick1 pick2 pick3 : option nat) (enc : loc)
    (c : call) (sink : Writer) (msg : string) (lvl : Level) (t : time.Time)
    (e : textEncoder) (w : world) :
  pool_ok w → heap w !! enc = Some e → enc ∉ textPool w →
  ∃ w',
    child_entries pick1 pick2 pick3 enc c sink msg lvl t w =
      Some (([entry_line
                {| bytes := bytes e
                            +:+ render_field (at_start e) (emitted_by_call c).1;
                   timeFmt := timeFmt e; firstNested := false |} msg lvl t],
             [entry_line e msg lvl t]), w').
Proof.
  intros Hok He Hout.
  destruct (Clone_run pick1 enc e w Hok He Hout)
    as (clone & p & Hclone & Hne & Hcp & Hep & Hnd & Hsub).
  pose proof (dispatch_post c e) as Hpost. unfold call_post in Hpost.
  set (e2 := {| bytes := bytes e
                         +:+ render_field (at_start e) (emitted_by_call c).1;
                timeFmt := timeFmt e; firstNested := false |}) in *.
  set (w2 := World (<[clone := e2]> (heap w)) p).
  destruct (WriteEntry_step pick2 clone sink msg lvl t e2 w2)
    as (w3 & Hrun2 & Halloc3 & Hframe).
  { apply pool_allocated_after; [apply Hok | exact Hsub]. }
  { apply lookup_insert_eq. }
  { exact Hcp. }
  destruct (Hframe enc e) as [He3 Hout3].
  { cbn [heap w2]. now rewrite lookup_insert_ne. }
  { exact Hep. }
  destruct (WriteEntry_step pick3 enc sink msg lvl t e w3 Halloc3 He3 Hout3)
    as (w4 & Hrun3 & _).
  exists w4. unfold child_entries.
  erewrite bind_run by exact Hclone.
  erewrite bind_run by (apply on_run; cbn [heap]; apply lookup_insert_eq).
  rewrite Hpost. cbn [heap textPool fst snd]. rewrite insert_insert_eq.
  fold w2. erewrite bind_run by exact Hrun2.
  erewrite bind_run by exact Hrun3. reflexivity.
Qed.

(** ** What the memory shows *)

Section shows.
#[local] Existing Instance Mem.M_ret.
#[local] Existing Instance Mem.M_bind.

Lemma string_of_list_ascii_app (xs ys : list ascii) :
  string_of_list_ascii (xs ++ ys)
  = string_of_list_ascii xs +:+ string_of_list_ascii ys.
Proof. induction xs as [|x xs IH]; cbn; [reflexivity | now rewrite IH]. Qed.

Lemma length_string_of_list_ascii (xs : list ascii) :
  String.length (string_of_list_ascii xs) = length xs.
Proof. induction xs as [|x xs IH]; cbn; [reflexivity | now rewrite IH]. Qed.

Lemma view_lookup (m : Mem.memory) (l : loc) :
  heap (view m) !! l = Mem.heap m !! l ≫= view_enc (Mem.arrays m).
Proof. unfold view. cbn [heap]. apply lookup_omap. Qed.

Lemma view_enc_ok (m : Mem.memory) (l : loc) (e : Mem.textEncoder) :
  Mem.mem_ok m → Mem.heap m !! l = Some e →
  ∃ arr, Mem.arrays m !! Mem.ptr (Mem.bytes e) = Some arr
    ∧ (Mem.slen (Mem.bytes e) <= Mem.scap (Mem.bytes e))%nat
    ∧ (Mem.scap (Mem.bytes e) <= length arr)%nat
    ∧ view_enc (Mem.arrays m) e
      = Some {| bytes := string_of_list_ascii
                           (take (Mem.slen (Mem.bytes e)) arr);
                timeFmt := Mem.timeFmt e;
                firstNested := Mem.firstNested e |}.
Proof.
  intros (HA & _ & _) He. destruct (HA l e He) as (arr & Harr & Hlen & Hcap).
  exists arr. split_and!; try done. unfold view_enc. now rewrite Harr.
Qed.

Lemma view_allocated (m : Mem.memory) (l : loc) :
  Mem.mem_ok m → is_Some (heap (view m) !! l) ↔ is_Some (Mem.heap m !! l).
Proof.
  intros Hok. rewrite view_lookup. split.
  - intros [ea Hea]. destruct (Mem.heap m !! l); [eauto | discriminate].
  - intros [e He]. rewrite He. cbn [mbind option_bind].
    destruct (view_enc_ok m l e Hok He) as (arr & _ & _ & _ & ->). eauto.
Qed.

Lemma view_dom (m : Mem.memory) :
  Mem.mem_ok m → dom (heap (view m)) = dom (Mem.heap m).
Proof.
  intros Hok. apply set_eq. intros l. rewrite !elem_of_dom.
  now apply view_allocated.
Qed.

(** An encoder other than [l] has its buffer elsewhere than the array that
    [l] has or is given. *)
Lemma other_array (m : Mem.memory) (l l2 : loc) (e e2 : Mem.textEncoder)
    (p : Mem.addr) :
  Mem.mem_ok m → Mem.heap m !! l = Some e → Mem.heap m !! l2 = Some e2 →
  l2 ≠ l → p = Mem.ptr (Mem.bytes e) ∨ Mem.arrays m !! p = None →
  Mem.ptr (Mem.bytes e2) ≠ p.
Proof.
  intros (HA & HB & _) Hl H2 Hne Hp Heq. destruct Hp as [-> | Hp].
  - apply Hne. now apply (HB l2 l e2 e).
  - destruct (HA l2 e2 H2) as (arr2 & Harr2 & _). congruence.
Qed.

(** The buffer of the encoder at [l] is given a slice on its array or on a
    new one: the world shown changes at [l] only. *)
Lemma view_set_slice (m : Mem.memory) (l : loc) (e e' : Mem.textEncoder)
    (arr' : list ascii) (ea' : textEncoder) :
  Mem.mem_ok m → Mem.heap m !! l = Some e →
  Mem.ptr (Mem.bytes e') = Mem.ptr (Mem.bytes e)
  ∨ Mem.arrays m !! Mem.ptr (Mem.bytes e') = None →
  view_enc (<[Mem.ptr (Mem.bytes e') := arr']> (Mem.arrays m)) e' = Some ea' →
  view (Mem.Memory (<[Mem.ptr (Mem.bytes e') := arr']> (Mem.arrays m))
                   (<[l := e']> (Mem.heap m)) (Mem.textPool m))
  = World (<[l := ea']> (heap (view m))) (textPool (view m)).
Proof.
  intros Hok Hl Hp Hea'. unfold view at 1.
  cbn [Mem.arrays Mem.heap Mem.textPool]. f_equal.
  apply map_eq. intros i. rewrite lookup_omap.
  destruct (decide (i = l)) as [-> | Hne].
  - rewrite !lookup_insert_eq. exact Hea'.
  - rewrite !lookup_insert_ne by done. rewrite view_lookup.
    destruct (Mem.heap m !! i) as [e2|] eqn:H2; [|reflexivity].
    cbn [mbind option_bind]. unfold view_enc.
    rewrite lookup_insert_ne; [reflexivity|].
    intros Heq.
    apply (other_array m l i e e2 (Mem.ptr (Mem.bytes e')) Hok Hl H2 Hne);
      [|now symmetry].
    destruct Hp as [Hp | Hp]; [now left | now right].
Qed.

(** The record of the encoder at [l] changes, the arrays do not. *)
Lemma view_set_record (m : Mem.memory) (l : loc) (e' : Mem.textEncoder)
    (ea' : textEncoder) :
  view_enc (Mem.arrays m) e' = Some ea' →
  view (Mem.Memory (Mem.arrays m) (<[l := e']> (Mem.heap m)) (Mem.textPool m))
  = World (<[l := ea']> (heap (view m))) (textPool (view m)).
Proof.
  intros Hea'. unfold view. cbn [Mem.arrays Mem.heap Mem.textPool heap textPool].
  f_equal. now apply omap_insert_Some.
Qed.

(** *** One encoder followed through a computation *)

Lemma view_shows (L : list loc) (P : list Mem.kept) (l : loc)
    (ea : textEncoder) (m : Mem.memory) :
  Mem.keeps L P m → heap (view m) !! l = Some ea →
  ∃ e arr,
    Mem.heap m !! l = Some e
    ∧ Mem.arrays m !! Mem.ptr (Mem.bytes e) = Some arr
    ∧ (Mem.slen (Mem.bytes e) <= Mem.scap (Mem.bytes e))%nat
    ∧ (Mem.scap (Mem.bytes e) <= length arr)%nat
    ∧ view_enc (Mem.arrays m) e = Some ea
    ∧ ea = {| bytes := string_of_list_ascii
                         (take (Mem.slen (Mem.bytes e)) arr);
              timeFmt := Mem.timeFmt e;
              firstNested := Mem.firstNested e |}.
Proof.
  intros (Hok & _ & _) Hea. rewrite view_lookup in Hea.
  destruct (Mem.heap m !! l) as [e|] eqn:He; [|discriminate].
  cbn [mbind option_bind] in Hea.
  destruct (view_enc_ok m l e Hok He) as (arr & Harr & Hlen & Hcap & Hve).
  exists e, arr. split_and!; try done. congruence.
Qed.

Lemma tracks_shows (L : list loc) (P : list Mem.kept) (l : loc)
    (ea : textEncoder) (w0 : world) (m : Mem.memory) :
  tracks L P l ea w0 m → heap (view m) !! l = Some ea.
Proof. intros (_ & _ & ->). cbn [heap]. apply lookup_insert_eq. Qed.

Lemma tracks_start (L : list loc) (P : list Mem.kept) (l : loc)
    (ea : textEncoder) (m : Mem.memory) :
  Mem.keeps L P m → l ∈ L → heap (view m) !! l = Some ea →
  tracks L P l ea (view m) m.
Proof.
  intros HK Hl Hea. split_and!; [done | done |].
  rewrite insert_id by exact Hea. reflexivity.
Qed.

Lemma tracks_append_bytes (growslice : nat → nat → nat) (L : list loc)
    (P : list Mem.kept) (l : loc) (ea : textEncoder) (w0 : world)
    (xs : list ascii) (Q : unit → Mem.memory → Prop) (m : Mem.memory) :
  tracks L P l ea w0 m →
  (∀ m', tracks L P l (append_bytes (string_of_list_ascii xs) ea) w0 m' →
         Q tt m') →
  Mem.wp (Mem.append_bytes growslice l xs) Q m.
Proof.
  intros HT HQ. pose proof (tracks_shows _ _ _ _ _ _ HT) as Hea.
  destruct HT as (HK & Hl & Hview).
  destruct (view_shows L P l ea m HK Hea)
    as (e & arr & He & Harr & Hlen & Hcap & _ & ->).
  destruct (append_bytes_run growslice l e arr xs m He Harr Hlen Hcap)
    as (s' & arr' & Hrun & Hptr & _ & Hlen' & Hcap' & Htake).
  eexists tt, _. split; [exact Hrun|]. apply HQ. split_and!; [| done |].
  - now apply (keeps_set_slice L P m l e (Mem.set_bytes s' e) arr').
  - pose proof (view_set_slice m l e (Mem.set_bytes s' e) arr'
                  (append_bytes (string_of_list_ascii xs)
                     {| bytes := string_of_list_ascii
                                   (take (Mem.slen (Mem.bytes e)) arr);
                        timeFmt := Mem.timeFmt e;
                        firstNested := Mem.firstNested e |})
                  (proj1 HK) He Hptr) as Hv.
    cbn [Mem.bytes Mem.set_bytes] in Hv. rewrite Hv.
    + rewrite Hview. cbn [heap textPool]. now rewrite insert_insert_eq.
    + unfold view_enc. cbn [Mem.bytes Mem.set_bytes Mem.timeFmt
                            Mem.firstNested].
      rewrite lookup_insert_eq. cbn [mbind option_bind].
      rewrite Htake, string_of_list_ascii_app. reflexivity.
Qed.

Lemma tracks_append_string (growslice : nat → nat → nat) (L : list loc)
    (P : list Mem.kept) (l : loc) (ea : textEncoder) (w0 : world)
    (s : string) (Q : unit → Mem.memory → Prop) (m : Mem.memory) :
  tracks L P l ea w0 m →
  (∀ m', tracks L P l (append_bytes s ea) w0 m' → Q tt m') →
  Mem.wp (Mem.append_string growslice l s) Q m.
Proof.
  intros HT HQ. unfold Mem.append_string.
  apply (tracks_append_bytes growslice L P l ea w0 _ Q m HT).
  now rewrite string_of_list_ascii_of_string.
Qed.

(** An assignment to the record that leaves the buffer on its array. *)
Lemma tracks_update (L : list loc) (P : list Mem.kept) (l : loc)
    (ea : textEncoder) (w0 : world)
    (F : Mem.textEncoder → Mem.textEncoder) (f : textEncoder → textEncoder)
    (Q : unit → Mem.memory → Prop) (m : Mem.memory) :
  tracks L P l ea w0 m →
  (∀ e, Mem.ptr (Mem.bytes (F e)) = Mem.ptr (Mem.bytes e)
        ∧ Mem.scap (Mem.bytes (F e)) = Mem.scap (Mem.bytes e)
        ∧ (Mem.slen (Mem.bytes (F e)) <= Mem.slen (Mem.bytes e))%nat) →
  (∀ arrs e x, view_enc arrs e = Some x → view_enc arrs (F e) = Some (f x)) →
  (∀ m', tracks L P l (f ea) w0 m' → Q tt m') →
  Mem.wp (Mem.update l F) Q m.
Proof.
  intros HT HF Hf HQ. pose proof (tracks_shows _ _ _ _ _ _ HT) as Hea.
  destruct HT as (HK & Hl & Hview).
  destruct (view_shows L P l ea m HK Hea)
    as (e & arr & He & Harr & Hlen & Hcap & Hve & _).
  destruct (HF e) as (Hp & Hc & Hs).
  eexists tt, _. split; [exact (update_run_mem l e F m He)|].
  apply HQ. split_and!; [| done |].
  - apply (keeps_set_record L P m l e (F e)); try done. lia.
  - rewrite (view_set_record m l (F e) (f ea)) by now apply Hf.
    rewrite Hview. cbn [heap textPool]. now rewrite insert_insert_eq.
Qed.

Lemma tracks_truncate (L : list loc) (P : list Mem.kept) (l : loc)
    (ea : textEncoder) (w0 : world) (Q : unit → Mem.memory → Prop)
    (m : Mem.memory) :
  tracks L P l ea w0 m →
  (∀ m', tracks L P l (truncate ea) w0 m' → Q tt m') →
  Mem.wp (Mem.truncate l) Q m.
Proof.
  intros HT HQ. unfold Mem.truncate.
  apply (tracks_update L P l ea w0 _ truncate Q m HT); [| | exact HQ].
  - intros e. cbn [Mem.bytes Mem.set_bytes Mem.reslice0 Mem.ptr Mem.scap
                   Mem.slen]. split_and!; [done | done | lia].
  - intros arrs e x. unfold view_enc.
    cbn [Mem.bytes Mem.set_bytes Mem.reslice0 Mem.ptr Mem.slen Mem.timeFmt
         Mem.firstNested].
    destruct (arrs !! Mem.ptr (Mem.bytes e)); [|discriminate].
    cbn [mbind option_bind]. intros [= <-]. reflexivity.
Qed.

Lemma tracks_set_timeFmt (L : list loc) (P : list Mem.kept) (l : loc)
    (ea : textEncoder) (w0 : world) (layout : string)
    (Q : unit → Mem.memory → Prop) (m : Mem.memory) :
  tracks L P l ea w0 m →
  (∀ m', tracks L P l (set_timeFmt layout ea) w0 m' → Q tt m') →
  Mem.wp (Mem.update l (Mem.set_timeFmt layout)) Q m.
Proof.
  intros HT HQ.
  apply (tracks_update L P l ea w0 _ (set_timeFmt layout) Q m HT);
    [| | exact HQ].
  - intros e. cbn [Mem.bytes Mem.set_timeFmt]. split_and!; [done | done | lia].
  - intros arrs e x. unfold view_enc.
    cbn [Mem.bytes Mem.set_timeFmt Mem.timeFmt Mem.firstNested].
    destruct (arrs !! Mem.ptr (Mem.bytes e)); [|discriminate].
    cbn [mbind option_bind]. intros [= <-]. reflexivity.
Qed.

Lemma tracks_set_firstNested (L : list loc) (P : list Mem.kept) (l : loc)
    (ea : textEncoder) (w0 : world) (flag : bool)
    (Q : unit → Mem.memory → Prop) (m : Mem.memory) :
  tracks L P l ea w0 m →
  (∀ m', tracks L P l (set_firstNested flag ea) w0 m' → Q tt m') →
  Mem.wp (Mem.update l (Mem.set_firstNested flag)) Q m.
Proof.
  intros HT HQ.
  apply (tracks_update L P l ea w0 _ (set_firstNested flag) Q m HT);
    [| | exact HQ].
  - intros e. cbn [Mem.bytes Mem.set_firstNested].
    split_and!; [done | done | lia].
  - intros arrs e x. unfold view_enc.
    cbn [Mem.bytes Mem.set_firstNested Mem.timeFmt Mem.firstNested].
    destruct (arrs !! Mem.ptr (Mem.bytes e)); [|discriminate].
    cbn [mbind option_bind]. intros [= <-]. reflexivity.
Qed.

(** The encoder that is followed is read. *)
Lemma tracks_load (L : list loc) (P : list Mem.kept) (l : loc)
    (ea : textEncoder) (w0 : world) (Q : Mem.textEncoder → Mem.memory → Prop)
    (m : Mem.memory) :
  tracks L P l ea w0 m →
  (∀ e, Z.of_nat (Mem.slen (Mem.bytes e)) = len (bytes ea) →
        Mem.timeFmt e = timeFmt ea → Mem.firstNested e = firstNested ea →
        Q e m) →
  Mem.wp (Mem.load l) Q m.
Proof.
  intros HT HQ. pose proof (tracks_shows _ _ _ _ _ _ HT) as Hea.
  destruct HT as (HK & Hl & Hview).
  destruct (view_shows L P l ea m HK Hea)
    as (e & arr & He & Harr & Hlen & Hcap & _ & ->).
  exists e, m. split; [now apply load_run_mem|]. apply HQ; try reflexivity.
  unfold len. cbn [bytes]. rewrite length_string_of_list_ascii, length_take.
  lia.
Qed.

(** An encoder that is kept as it is is read. *)
Lemma kept_load (L : list loc) (P : list Mem.kept) (b : loc)
    (eb : Mem.textEncoder) (arrb : list ascii)
    (Q : Mem.textEncoder → Mem.memory → Prop) (m : Mem.memory) :
  Mem.keeps L P m → (b, eb, arrb) ∈ P → Q eb m → Mem.wp (Mem.load b) Q m.
Proof.
  intros (_ & _ & HP) Hin HQ. destruct (HP _ Hin) as (Hb & _).
  exists eb, m. split; [now apply load_run_mem | exact HQ].
Qed.

(** *** The methods on the memory show the methods on values *)

Ltac track_step :=
  lazymatch goal with
  | |- Mem.wp (_ ≫= _) _ _ => apply wp_bind_mem
  | HT : tracks _ _ ?l _ _ ?m |- Mem.wp (Mem.append_string _ ?l _) _ ?m =>
      eapply tracks_append_string; [exact HT | clear HT; intros ? HT]
  | HT : tracks _ _ ?l _ _ ?m |- Mem.wp (Mem.append_bytes _ ?l _) _ ?m =>
      eapply tracks_append_bytes; [exact HT | clear HT; intros ? HT]
  | HT : tracks _ _ ?l _ _ ?m
    |- Mem.wp (Mem.update ?l (Mem.set_firstNested _)) _ ?m =>
      eapply tracks_set_firstNested; [exact HT | clear HT; intros ? HT]
  | HT : tracks _ _ ?l _ _ ?m
    |- Mem.wp (Mem.update ?l (Mem.set_timeFmt _)) _ ?m =>
      eapply tracks_set_timeFmt; [exact HT | clear HT; intros ? HT]
  | HT : tracks _ _ ?l _ _ ?m |- Mem.wp (Mem.truncate ?l) _ ?m =>
      eapply tracks_truncate; [exact HT | clear HT; intros ? HT]
  | |- Mem.wp (mret _) _ _ => apply wp_ret_mem
  end.

Lemma addKey_shows (growslice : nat → nat → nat) (L : list loc)
    (P : list Mem.kept) (l : loc) (ea : textEncoder) (w0 : world)
    (key : string) (Q : unit → Mem.memory → Prop) (m : Mem.memory) :
  tracks L P l ea w0 m →
  (∀ m', tracks L P l (addKey key ea) w0 m' → Q tt m') →
  Mem.wp (Mem.addKey growslice l key) Q m.
Proof.
  intros HT HQ. unfold Mem.addKey. apply wp_bind_mem.
  apply (tracks_load L P l ea w0 _ m HT). intros e Hs _ Hf.
  rewrite Hs, Hf.
  unfold len.
  destruct ((0 <=? Z.of_nat (String.length (bytes ea)) - 1)
            && negb (firstNested ea)) eqn:Hc.
  all: repeat track_step.
  all: apply HQ; unfold addKey; rewrite Hc; exact HT.
Qed.

Ltac track_call :=
  lazymatch goal with
  | HT : tracks _ _ ?l _ _ ?m |- Mem.wp (Mem.addKey _ ?l _) _ ?m =>
      eapply addKey_shows; [exact HT | clear HT; intros ? HT]
  | _ => track_step
  end.

Lemma dispatch_MarshalLog_shows (growslice : nat → nat → nat) (L : list loc)
    (P : list Mem.kept) (l : loc) (w0 : world) :
  (∀ c ea m, tracks L P l ea w0 m →
     Mem.wp (Mem.dispatch growslice c l)
       (λ r m', tracks L P l (dispatch c ea).1 w0 m' ∧ r = (dispatch c ea).2)
       m)
  ∧ (∀ obj ea m, tracks L P l ea w0 m →
       Mem.wp (Mem.MarshalLog growslice obj l)
         (λ r m', tracks L P l (MarshalLog obj ea).1 w0 m'
                  ∧ r = (MarshalLog obj ea).2) m).
Proof.
  apply call_LogMarshaler_ind.
  all: try (intros key val ea m HT; cbn [Mem.dispatch dispatch];
            unfold Mem.AddString, Mem.AddBool, Mem.AddInt, Mem.AddInt64,
              Mem.AddUint, Mem.AddUint64, Mem.AddUintptr, Mem.AddFloat64,
              Mem.AddObject, Mem.AddString;
            repeat track_call; split; [exact HT | reflexivity]).
  - intros key obj IH ea m HT. cbn [Mem.dispatch dispatch].
    repeat track_call.
    eapply wp_mono_mem; [apply IH, HT|]. clear HT.
    intros err ? [HT ->]. repeat track_call.
    destruct (MarshalLog obj _) as [enc' err']. cbn [fst snd] in *.
    split; [exact HT | reflexivity].
  - intros err ea m HT. cbn [Mem.MarshalLog MarshalLog]. now apply wp_ret_mem.
  - intros c IHc k IHk ea m HT. cbn [Mem.MarshalLog MarshalLog].
    apply wp_bind_mem.
    eapply wp_mono_mem; [apply IHc, HT|]. intros r m' [HT' ->].
    destruct (dispatch c ea) as [enc' r']. cbn [fst snd] in *.
    now apply IHk.
Qed.

Lemma addLevel_shows (growslice : nat → nat → nat) (L : list loc)
    (P : list Mem.kept) (enc final : loc) (ea fa : textEncoder) (w0 : world)
    (lvl : Level) (Q : unit → Mem.memory → Prop) (m : Mem.memory) :
  tracks L P final fa w0 m →
  (∀ m', tracks L P final (addLevel ea fa lvl) w0 m' → Q tt m') →
  Mem.wp (Mem.addLevel growslice enc final lvl) Q m.
Proof.
  intros HT HQ. unfold Mem.addLevel.
  repeat lazymatch goal with
         | |- Mem.wp (if ?c then _ else _) _ _ =>
             let Hlvl := fresh "Hlvl" in destruct c eqn:Hlvl
         end.
  all: track_step; apply HQ; unfold addLevel.
  all: repeat match goal with
              | Hlvl : (_ =? _) = _ |- _ => rewrite Hlvl; clear Hlvl
              end.
  all: exact HT.
Qed.

Lemma addTime_shows (growslice : nat → nat → nat) (L : list loc)
    (P : list Mem.kept) (enc final : loc) (e : Mem.textEncoder)
    (arr : list ascii) (ea fa : textEncoder) (w0 : world) (t : time.Time)
    (Q : unit → Mem.memory → Prop) (m : Mem.memory) :
  tracks L P final fa w0 m → (enc, e, arr) ∈ P →
  Mem.timeFmt e = timeFmt ea →
  (∀ m', tracks L P final (addTime ea fa t) w0 m' → Q tt m') →
  Mem.wp (Mem.addTime growslice enc final t) Q m.
Proof.
  intros HT Hin Ht HQ. unfold Mem.addTime. apply wp_bind_mem.
  apply (kept_load L P enc e arr); [apply HT | exact Hin|].
  rewrite Ht. destruct (String.eqb (timeFmt ea) "") eqn:Hc.
  - apply wp_ret_mem, HQ. unfold addTime. now rewrite Hc.
  - do 2 track_step. apply wp_bind_mem.
    apply (kept_load L P enc e arr); [apply HT | exact Hin|].
    rewrite Ht. track_step. apply HQ. unfold addTime. rewrite Hc. exact HT.
Qed.

Lemma addMessage_shows (growslice : nat → nat → nat) (L : list loc)
    (P : list Mem.kept) (enc final : loc) (ea fa : textEncoder) (w0 : world)
    (msg : string) (Q : unit → Mem.memory → Prop) (m : Mem.memory) :
  tracks L P final fa w0 m →
  (∀ m', tracks L P final (addMessage ea fa msg) w0 m' → Q tt m') →
  Mem.wp (Mem.addMessage growslice enc final msg) Q m.
Proof.
  intros HT HQ. unfold Mem.addMessage.
  destruct (negb (String.eqb msg "")) eqn:Hc.
  - repeat track_step. apply HQ. unfold addMessage. rewrite Hc. exact HT.
  - apply wp_ret_mem, HQ. unfold addMessage. now rewrite Hc.
Qed.

(** *** Computations on the memory and on the world, side by side *)

Lemma sim_ret {A B : Type} (a : A) (b : B) (Q : A → B → Mem.memory → Prop)
    (m : Mem.memory) :
  Q a b m → sim (mret a) (mret b) Q m.
Proof. intros HQ. exists a, b, m. split_and!; [reflexivity.. | exact HQ]. Qed.

Lemma sim_bind {A A' B B' : Type} (c : Mem.M A) (c' : M A')
    (f : A → Mem.M B) (f' : A' → M B') (Q : B → B' → Mem.memory → Prop)
    (m : Mem.memory) :
  sim c c' (λ a a' m', sim (f a) (f' a') Q m') m →
  sim (c ≫= f) (c' ≫= f') Q m.
Proof.
  intros (a & a' & m' & Hc & Hc' & b & b' & m'' & Hf & Hf' & HQ).
  exists b, b', m''. split_and!; [| | exact HQ].
  - now rewrite (bind_run_mem _ _ _ _ _ Hc).
  - now rewrite (bind_run _ _ _ _ _ Hc').
Qed.

Lemma sim_mono {A B : Type} (c : Mem.M A) (c' : M B)
    (Q Q' : A → B → Mem.memory → Prop) (m : Mem.memory) :
  sim c c' Q m → (∀ a b m', Q a b m' → Q' a b m') → sim c c' Q' m.
Proof. intros (a & b & m' & Hc & Hc' & HQ) H. exists a, b, m'. auto. Qed.

(** A step on the memory that has no counterpart on the world. *)
Lemma sim_left {A B B' : Type} (c : Mem.M A) (a : A) (f : A → Mem.M B)
    (c' : M B') (Q : B → B' → Mem.memory → Prop) (m : Mem.memory) :
  c m = Some (a, m) → sim (f a) c' Q m → sim (c ≫= f) c' Q m.
Proof.
  intros Hc (b & b' & m' & Hf & Hc' & HQ). exists b, b', m'.
  split_and!; [| done | done]. now rewrite (bind_run_mem _ _ _ _ _ Hc).
Qed.

(** A step on the world that has no counterpart on the memory. *)
Lemma sim_right {A B B' : Type} (c : Mem.M B) (c' : M A) (a : A)
    (f' : A → M B') (Q : B → B' → Mem.memory → Prop) (m : Mem.memory) :
  c' (view m) = Some (a, view m) → sim c (f' a) Q m → sim c (c' ≫= f') Q m.
Proof.
  intros Hc' (b & b' & m' & Hc & Hf' & HQ). exists b, b', m'.
  split_and!; [done | | done]. now rewrite (bind_run _ _ _ _ _ Hc').
Qed.

Lemma keeps_allocated (L : list loc) (P : list Mem.kept) (l : loc)
    (m : Mem.memory) :
  Mem.keeps L P m → l ∈ L → is_Some (Mem.heap m !! l).
Proof. intros (_ & HL & _). apply HL. Qed.

Lemma kept_allocated (L : list loc) (P : list Mem.kept) (b : loc)
    (eb : Mem.textEncoder) (arrb : list ascii) (m : Mem.memory) :
  Mem.keeps L P m → (b, eb, arrb) ∈ P → Mem.heap m !! b = Some eb.
Proof. intros (_ & _ & HP) Hin. now destruct (HP _ Hin). Qed.

(** What an allocated encoder shows. *)
Lemma shown (L : list loc) (P : list Mem.kept) (l : loc)
    (e : Mem.textEncoder) (m : Mem.memory) :
  Mem.keeps L P m → Mem.heap m !! l = Some e →
  ∃ ea, heap (view m) !! l = Some ea
        ∧ Z.of_nat (Mem.slen (Mem.bytes e)) = len (bytes ea)
        ∧ Mem.timeFmt e = timeFmt ea
        ∧ Mem.firstNested e = firstNested ea
        ∧ ∀ xs, Mem.contents (Mem.bytes e) m = Some (xs, m) →
                string_of_list_ascii xs = bytes ea.
Proof.
  intros HK He. pose proof HK as (Hok & _).
  destruct (view_enc_ok m l e Hok He) as (arr & Harr & Hlen & Hcap & Hve).
  eexists. split_and!.
  - rewrite view_lookup, He. cbn [mbind option_bind]. exact Hve.
  - unfold len. cbn [bytes].
    rewrite length_string_of_list_ascii, length_take. lia.
  - reflexivity.
  - reflexivity.
  - intros xs. rewrite (contents_run _ arr m Harr). now intros [= <-].
Qed.

Lemma sim_load (L : list loc) (P : list Mem.kept) (l : loc)
    (Q : Mem.textEncoder → textEncoder → Mem.memory → Prop) (m : Mem.memory) :
  Mem.keeps L P m → is_Some (Mem.heap m !! l) →
  (∀ e ea, Mem.heap m !! l = Some e → heap (view m) !! l = Some ea →
           Z.of_nat (Mem.slen (Mem.bytes e)) = len (bytes ea) →
           Mem.timeFmt e = timeFmt ea →
           Mem.firstNested e = firstNested ea →
           Q e ea m) →
  sim (Mem.load l) (load l) Q m.
Proof.
  intros HK [e He] HQ.
  destruct (shown L P l e m HK He) as (ea & Hea & Hs & Ht & Hf & _).
  exists e, ea, m. split_and!.
  - now apply load_run_mem.
  - now apply load_run.
  - now apply HQ.
Qed.

(** The encoder is read on the world only. *)
Lemma sim_right_load (L : list loc) (P : list Mem.kept) (l : loc)
    (e : Mem.textEncoder) {B B' : Type} (c : Mem.M B)
    (f' : textEncoder → M B') (Q : B → B' → Mem.memory → Prop)
    (m : Mem.memory) :
  Mem.keeps L P m → Mem.heap m !! l = Some e →
  (∀ ea, heap (view m) !! l = Some ea → Mem.timeFmt e = timeFmt ea →
         sim c (f' ea) Q m) →
  sim c (load l ≫= f') Q m.
Proof.
  intros HK He H.
  destruct (shown L P l e m HK He) as (ea & Hea & _ & Ht & _).
  apply (sim_right _ (load l) ea); [now apply load_run | now apply H].
Qed.

(** The bytes of a buffer are read, on the memory only. *)
Lemma sim_left_contents (L : list loc) (P : list Mem.kept) (l : loc)
    (e : Mem.textEncoder) (ea : textEncoder) {B B' : Type}
    (f : list ascii → Mem.M B) (c' : M B')
    (Q : B → B' → Mem.memory → Prop) (m : Mem.memory) :
  Mem.keeps L P m → Mem.heap m !! l = Some e →
  heap (view m) !! l = Some ea →
  (∀ xs, string_of_list_ascii xs = bytes ea → sim (f xs) c' Q m) →
  sim (Mem.contents (Mem.bytes e) ≫= f) c' Q m.
Proof.
  intros HK He Hea H. pose proof HK as (Hok & _).
  destruct (view_enc_ok m l e Hok He) as (arr & Harr & _).
  destruct (shown L P l e m HK He) as (ea' & Hea' & _ & _ & _ & Hxs).
  assert (ea' = ea) as -> by congruence.
  eapply sim_left; [exact (contents_run _ arr m Harr)|].
  apply H, Hxs. exact (contents_run _ arr m Harr).
Qed.

(** A computation on the memory that changes what one encoder shows as a
    function does. *)
Lemma sim_update (L : list loc) (P : list Mem.kept) (l : loc)
    (c : Mem.M unit) (f : textEncoder → textEncoder)
    (Q : unit → unit → Mem.memory → Prop) (m : Mem.memory) :
  Mem.keeps L P m → l ∈ L →
  (∀ ea, heap (view m) !! l = Some ea →
         Mem.wp c (λ _ m', tracks L P l (f ea) (view m) m') m) →
  (∀ m', Mem.keeps L P m' → Q tt tt m') →
  sim c (update l f) Q m.
Proof.
  intros HK Hl Hc HQ. destruct (keeps_allocated L P l m HK Hl) as [e He].
  destruct (shown L P l e m HK He) as (ea & Hea & _).
  destruct (Hc ea Hea) as ([] & m' & Hrun & HK' & _ & Hview).
  exists tt, tt, m'. split_and!; [exact Hrun | | now apply HQ].
  rewrite (update_run l ea f (view m) Hea). now rewrite Hview.
Qed.

Lemma sim_on {A : Type} (L : list loc) (P : list Mem.kept) (l : loc)
    (c : Mem.M A) (method : textEncoder → textEncoder * A)
    (Q : A → A → Mem.memory → Prop) (m : Mem.memory) :
  Mem.keeps L P m → l ∈ L →
  (∀ ea, heap (view m) !! l = Some ea →
         Mem.wp c (λ r m', tracks L P l (method ea).1 (view m) m'
                           ∧ r = (method ea).2) m) →
  (∀ r m', Mem.keeps L P m' → Q r r m') →
  sim c (on l method) Q m.
Proof.
  intros HK Hl Hc HQ. destruct (keeps_allocated L P l m HK Hl) as [e He].
  destruct (shown L P l e m HK He) as (ea & Hea & _).
  destruct (Hc ea Hea) as (r & m' & Hrun & (HK' & _ & Hview) & ->).
  eexists _, _, m'. split_and!; [exact Hrun | | now apply HQ].
  rewrite (on_run l ea method (view m) Hea). now rewrite Hview.
Qed.

Lemma sim_Put (L : list loc) (P : list Mem.kept) (l : loc)
    (Q : unit → unit → Mem.memory → Prop) (m : Mem.memory) :
  Mem.keeps L P m → l ∈ L →
  (∀ m', Mem.keeps L P m' → Q tt tt m') →
  sim (Mem.Put l) (Put l) Q m.
Proof.
  intros HK Hl HQ.
  destruct (wp_Put_keeps_mem L P l (λ _ m', Mem.keeps L P m') m HK Hl)
    as ([] & m' & Hrun & HK'); [auto|].
  exists tt, tt, m'. split_and!; [exact Hrun | | now apply HQ].
  injection Hrun as <-. reflexivity.
Qed.

(** A new encoder on a new array shows the encoder that [New] makes. *)
Lemma view_new (m : Mem.memory) (l : loc) (a : Mem.addr) :
  Mem.mem_ok m → Mem.heap m !! l = None → Mem.arrays m !! a = None →
  view (Mem.Memory
          (<[a := replicate Mem.initialBufSize zero]> (Mem.arrays m))
          (<[l := {| Mem.bytes := Mem.Slice a 0 Mem.initialBufSize;
                     Mem.timeFmt := ""; Mem.firstNested := false |}]>
             (Mem.heap m))
          (Mem.textPool m))
  = World (<[l := textPool_New]> (heap (view m))) (textPool (view m)).
Proof.
  intros (HA & _ & _) Hl Ha. unfold view at 1.
  cbn [Mem.arrays Mem.heap Mem.textPool]. f_equal.
  apply map_eq. intros i. rewrite lookup_omap.
  destruct (decide (i = l)) as [-> | Hne].
  - rewrite !lookup_insert_eq. cbn [mbind option_bind]. unfold view_enc.
    cbn [Mem.bytes Mem.ptr Mem.slen Mem.timeFmt Mem.firstNested].
    rewrite lookup_insert_eq. reflexivity.
  - rewrite !lookup_insert_ne by done. rewrite view_lookup.
    destruct (Mem.heap m !! i) as [e2|] eqn:H2; [|reflexivity].
    cbn [mbind option_bind]. unfold view_enc.
    rewrite lookup_insert_ne; [reflexivity|].
    intros Heq. destruct (HA i e2 H2) as (arr2 & Harr2 & _). congruence.
Qed.

Lemma sim_Get (L : list loc) (P : list Mem.kept) (pick : option nat)
    (Q : loc → loc → Mem.memory → Prop) (m : Mem.memory) :
  Mem.keeps L P m →
  (∀ l m1, Mem.keeps (l :: L) P m1 → Q l l m1) →
  sim (Mem.Get pick) (Get pick) Q m.
Proof.
  intros HK HQ.
  destruct (wp_Get_keeps L P pick
              (λ l m1, Mem.Get pick m = Some (l, m1)
                       ∧ Mem.keeps (l :: L) P m1) m HK)
    as (l & m1 & HG & _ & HK1); [auto|].
  exists l, l, m1. split_and!; [exact HG | | now apply HQ].
  pose proof HK as (Hok & _).
  unfold Mem.Get in HG. unfold Get. cbn [textPool view] in *.
  destruct (pick ≫= λ i, Mem.textPool m !! i) as [l'|] eqn:Hpick.
  - injection HG as <- <-. reflexivity.
  - injection HG as <- <-.
    fold (view m). rewrite (view_dom m Hok).
    rewrite view_new; [reflexivity | exact Hok | |].
    + apply not_elem_of_dom, is_fresh.
    + apply not_elem_of_dom, is_fresh.
Qed.

(** *** The operations *)

Lemma Clone_sim (growslice : nat → nat → nat) (L : list loc)
    (P : list Mem.kept) (pick : option nat) (enc : loc) (m : Mem.memory) :
  Mem.keeps L P m → enc ∈ L →
  sim (Mem.Clone growslice pick enc) (Clone pick enc)
      (λ clone clone' m', clone = clone' ∧ Mem.keeps (clone :: L) P m') m.
Proof.
  intros HK Henc. unfold Mem.Clone, Clone.
  apply sim_bind, (sim_Get L P); [exact HK|].
  clear HK. intros clone m1 HK.
  assert (clone ∈ clone :: L) as Hc by left.
  assert (enc ∈ clone :: L) as He by now right.
  (* truncate *)
  apply sim_bind, (sim_update (clone :: L) P clone); [exact HK | exact Hc | |].
  { intros ca Hca. apply (tracks_truncate (clone :: L) P clone ca (view m1));
      [now apply tracks_start | auto]. }
  clear HK. intros m2 HK.
  (* the bytes *)
  apply sim_bind, (sim_load (clone :: L) P enc);
    [exact HK | now apply (keeps_allocated (clone :: L) P) |].
  intros e ea Hee Hea _ _ _.
  apply (sim_left_contents (clone :: L) P enc e ea); [done | done | done |].
  intros xs Hxs.
  apply sim_bind, (sim_update (clone :: L) P clone); [exact HK | exact Hc | |].
  { intros ca Hca. rewrite <- Hxs.
    apply (tracks_append_bytes growslice (clone :: L) P clone ca (view m2));
      [now apply tracks_start | auto]. }
  clear HK e ea Hee Hea xs Hxs. intros m3 HK.
  (* the time format *)
  apply sim_bind, (sim_load (clone :: L) P enc);
    [exact HK | now apply (keeps_allocated (clone :: L) P) |].
  intros e ea _ _ _ Ht _. rewrite Ht.
  apply sim_bind, (sim_update (clone :: L) P clone); [exact HK | exact Hc | |].
  { intros ca Hca.
    apply (tracks_set_timeFmt (clone :: L) P clone ca (view m3));
      [now apply tracks_start | auto]. }
  clear HK e ea Ht. intros m4 HK.
  (* the flag *)
  apply sim_bind, (sim_load (clone :: L) P enc);
    [exact HK | now apply (keeps_allocated (clone :: L) P) |].
  intros e ea _ _ _ _ Hf. rewrite Hf.
  apply sim_bind, (sim_update (clone :: L) P clone); [exact HK | exact Hc | |].
  { intros ca Hca.
    apply (tracks_set_firstNested (clone :: L) P clone ca (view m4));
      [now apply tracks_start | auto]. }
  clear HK. intros m5 HK.
  apply sim_ret. now split.
Qed.

Lemma WriteEntry_sim (growslice : nat → nat → nat) (L : list loc)
    (P : list Mem.kept) (pick : option nat) (enc : loc)
    (e : Mem.textEncoder) (arr : list ascii) (sink : option Writer)
    (msg : string) (lvl : Level) (t : time.Time) (m : Mem.memory) :
  Mem.keeps L P m → (enc, e, arr) ∈ P →
  sim (Mem.WriteEntry growslice pick enc sink msg lvl t)
      (WriteEntry pick enc sink msg lvl t)
      (λ r r' m', r = r' ∧ Mem.keeps L P m') m.
Proof.
  intros HK Hin. unfold Mem.WriteEntry, WriteEntry.
  destruct sink as [sink|]; [|now apply sim_ret].
  apply sim_bind, (sim_Get L P); [exact HK|].
  clear HK. intros final m1 HK.
  assert (final ∈ final :: L) as Hf by left.
  (* truncate *)
  apply sim_bind, (sim_update (final :: L) P final); [exact HK | exact Hf | |].
  { intros fa Hfa. apply (tracks_truncate (final :: L) P final fa (view m1));
      [now apply tracks_start | auto]. }
  clear HK. intros m2 HK.
  (* the level *)
  apply (sim_right_load (final :: L) P enc e);
    [exact HK | now apply (kept_allocated (final :: L) P enc e arr) |].
  intros ea _ Ht.
  apply sim_bind, (sim_update (final :: L) P final); [exact HK | exact Hf | |].
  { intros fa Hfa.
    apply (addLevel_shows growslice (final :: L) P enc final ea fa (view m2));
      [now apply tracks_start | auto]. }
  clear HK ea Ht. intros m3 HK.
  (* the time *)
  apply (sim_right_load (final :: L) P enc e);
    [exact HK | now apply (kept_allocated (final :: L) P enc e arr) |].
  intros ea _ Ht.
  apply sim_bind, (sim_update (final :: L) P final); [exact HK | exact Hf | |].
  { intros fa Hfa.
    apply (addTime_shows growslice (final :: L) P enc final e arr ea fa
             (view m3)); [now apply tracks_start | done | done | auto]. }
  clear HK ea Ht. intros m4 HK.
  (* the message *)
  apply (sim_right_load (final :: L) P enc e);
    [exact HK | now apply (kept_allocated (final :: L) P enc e arr) |].
  intros ea _ Ht.
  apply sim_bind, (sim_update (final :: L) P final); [exact HK | exact Hf | |].
  { intros fa Hfa.
    apply (addMessage_shows growslice (final :: L) P enc final ea fa
             (view m4)); [now apply tracks_start | auto]. }
  clear HK ea Ht. intros m5 HK.
  (* the fields *)
  assert (∀ m6, Mem.keeps (final :: L) P m6 →
            sim (Mem.append_string growslice final LF ≫= λ _,
                 Mem.load final ≫= λ f,
                 Mem.contents (Mem.bytes f) ≫= λ line,
                 let '(n, err) := Write sink (string_of_list_ascii line) in
                 Mem.Free final ≫= λ _,
                 match err with
                 | Some err0 => mret ([string_of_list_ascii line], Some err0)
                 | None =>
                     if negb (n =? Z.of_nat (Mem.slen (Mem.bytes f)))
                     then mret ([string_of_list_ascii line],
                                Some (incomplete_write n
                                        (Z.of_nat (Mem.slen (Mem.bytes f)))))
                     else mret ([string_of_list_ascii line], None)
                 end)
                (update final (append_bytes LF) ≫= λ _,
                 load final ≫= λ f,
                 let '(n, err) := Write sink (bytes f) in
                 Free final ≫= λ _,
                 match err with
                 | Some err0 => mret ([bytes f], Some err0)
                 | None =>
                     if negb (n =? len (bytes f))
                     then mret ([bytes f],
                                Some (incomplete_write n (len (bytes f))))
                     else mret ([bytes f], None)
                 end)
                (λ r r' m', r = r' ∧ Mem.keeps L P m') m6) as Hrest.
  { clear HK. intros m6 HK.
    apply sim_bind, (sim_update (final :: L) P final);
      [exact HK | exact Hf | |].
    { intros fa Hfa.
      apply (tracks_append_string growslice (final :: L) P final fa
               (view m6)); [now apply tracks_start | auto]. }
    clear HK. intros m7 HK.
    apply sim_bind, (sim_load (final :: L) P final);
      [exact HK | now apply (keeps_allocated (final :: L) P) |].
    intros f fa Hff Hfa Hs _ _.
    apply (sim_left_contents (final :: L) P final f fa); [done | done | done |].
    intros line ->. rewrite Hs.
    destruct (Write sink (bytes fa)) as [n err].
    unfold Mem.Free, Free.
    apply sim_bind, (sim_Put (final :: L) P final); [exact HK | exact Hf |].
    clear HK. intros m8 HK.
    assert (Mem.keeps L P m8) as HK'
      by (apply (keeps_weaken_mem (final :: L)); [exact HK|];
          intros x Hx; now right).
    destruct err as [err|]; [|destruct (negb (n =? len (bytes fa)))].
    all: now apply sim_ret. }
  apply sim_bind, (sim_load (final :: L) P enc);
    [exact HK | rewrite (kept_allocated (final :: L) P enc e arr m5 HK Hin);
                eauto |].
  intros e1 ea He1 Hea Hs _ _.
  replace (0 <? Mem.slen (Mem.bytes e1))%nat with (0 <? len (bytes ea))
    by (rewrite <- Hs; destruct (Mem.slen (Mem.bytes e1)); reflexivity).
  apply sim_bind. destruct (0 <? len (bytes ea)).
  - apply sim_bind, (sim_update (final :: L) P final);
      [exact HK | exact Hf | |].
    { intros fa Hfa.
      apply (tracks_append_string growslice (final :: L) P final fa
               (view m5)); [now apply tracks_start | auto]. }
    clear HK e1 ea He1 Hea Hs. intros m6 HK.
    apply sim_bind, (sim_load (final :: L) P enc);
      [exact HK | rewrite (kept_allocated (final :: L) P enc e arr m6 HK Hin);
                  eauto |].
    intros e1 ea He1 Hea _ _ _.
    apply (sim_left_contents (final :: L) P enc e1 ea); [done | done | done |].
    intros xs Hxs.
    apply (sim_update (final :: L) P final); [exact HK | exact Hf | |].
    { intros fa Hfa. rewrite <- Hxs.
      apply (tracks_append_bytes growslice (final :: L) P final fa (view m6));
        [now apply tracks_start | auto]. }
    intros m7 HK7. now apply Hrest.
  - apply sim_ret. now apply Hrest.
Qed.

Lemma apply_options_sim (L : list loc) (P : list Mem.kept) (enc : loc)
    (layouts : list string) (m : Mem.memory) :
  Mem.keeps L P m → enc ∈ L →
  sim (Mem.apply_options enc (Mem.TextTimeFormat <$> layouts))
      (apply_options enc (TextTimeFormat <$> layouts))
      (λ _ _ m', Mem.keeps L P m') m.
Proof.
  intros HK Henc. revert m HK.
  induction layouts as [|layout layouts IH]; intros m HK;
    cbn [fmap list_fmap Mem.apply_options apply_options].
  - now apply sim_ret.
  - unfold Mem.TextTimeFormat at 1. unfold TextTimeFormat at 1.
    apply sim_bind, (sim_update L P enc); [exact HK | exact Henc | |].
    { intros ea Hea. apply (tracks_set_timeFmt L P enc ea (view m));
        [now apply tracks_start | auto]. }
    intros m' HK'. now apply IH.
Qed.

Lemma NewColorEncoder_sim (L : list loc) (P : list Mem.kept)
    (pick : option nat) (layouts : list string) (m : Mem.memory) :
  Mem.keeps L P m →
  sim (Mem.NewColorEncoder pick (Mem.TextTimeFormat <$> layouts))
      (NewColorEncoder pick (TextTimeFormat <$> layouts))
      (λ enc enc' m', enc = enc' ∧ Mem.keeps (enc :: L) P m') m.
Proof.
  intros HK. unfold Mem.NewColorEncoder, NewColorEncoder.
  apply sim_bind, (sim_Get L P); [exact HK|].
  clear HK. intros enc m1 HK.
  assert (enc ∈ enc :: L) as Henc by left.
  apply sim_bind, (sim_update (enc :: L) P enc); [exact HK | exact Henc | |].
  { intros ea Hea. apply (tracks_truncate (enc :: L) P enc ea (view m1));
      [now apply tracks_start | auto]. }
  clear HK. intros m2 HK.
  apply sim_bind, (sim_update (enc :: L) P enc); [exact HK | exact Henc | |].
  { intros ea Hea.
    apply (tracks_set_timeFmt (enc :: L) P enc ea (view m2));
      [now apply tracks_start | auto]. }
  clear HK. intros m3 HK.
  apply sim_bind.
  eapply sim_mono;
    [exact (apply_options_sim (enc :: L) P enc layouts m3 HK Henc)|].
  intros [] [] m4 HK4. now apply sim_ret.
Qed.

Lemma perform_sim (growslice : nat → nat → nat) (op : operation) (enc : loc)
    (e : Mem.textEncoder) (arr : list ascii) (m : Mem.memory) :
  Mem.keeps [enc] [] m → Mem.keeps [] [(enc, e, arr)] m →
  sim (Mem.perform growslice op enc) (perform op enc)
      (λ _ _ m', Mem.mem_ok m') m.
Proof.
  intros HK HK'. assert (enc ∈ [enc]) as Henc by left.
  destruct op as [c | pick | pick sink msg lvl t |];
    cbn [Mem.perform perform].
  - apply sim_bind, (sim_on [enc] [] enc); [exact HK | exact Henc | |].
    { intros ea Hea.
      apply (proj1 (dispatch_MarshalLog_shows growslice [enc] [] enc (view m))).
      now apply tracks_start. }
    intros r m' HK2. apply sim_ret, HK2.
  - apply sim_bind.
    eapply sim_mono;
      [exact (Clone_sim growslice [enc] [] pick enc m HK Henc)|].
    intros clone ? m' [_ HK2]. apply sim_ret, HK2.
  - apply sim_bind.
    assert ((enc, e, arr) ∈ [(enc, e, arr)]) as Hin by left.
    eapply sim_mono;
      [exact (WriteEntry_sim growslice [] [(enc, e, arr)] pick enc e arr
                sink msg lvl t m HK' Hin)|].
    intros r ? m' [_ HK2]. apply sim_ret, HK2.
  - unfold Mem.Free, Free. apply (sim_Put [enc] [] enc); [done | done |].
    intros m' HK2. apply HK2.
Qed.

End shows.

(** An operation on an encoder in use does on the memory what it does on the
    world of values that the memory shows, and leaves the memory well
    formed. *)
Theorem perform_shows (growslice : nat → nat → nat) (op : operation)
    (enc : loc) (m : Mem.memory) :
  Mem.mem_ok m → is_Some (Mem.heap m !! enc) → enc ∉ Mem.textPool m →
  ∃ m', Mem.perform growslice op enc m = Some (tt, m')
        ∧ perform op enc (view m) = Some (tt, view m')
        ∧ Mem.mem_ok m'.
Proof.
  intros Hok [e He] Hnp. pose proof Hok as (HA & _ & _).
  destruct (HA enc e He) as (arr & Harr & _).
  assert (Mem.keeps [enc] [] m) as HK.
  { split_and!; [done | |].
    - intros l ->%list_elem_of_singleton. eauto.
    - intros x Hx. now apply elem_of_nil in Hx. }
  assert (Mem.keeps [] [(enc, e, arr)] m) as HK'.
  { split_and!; [done | |].
    - intros l Hl. now apply elem_of_nil in Hl.
    - intros x ->%list_elem_of_singleton. split_and!; [done | done | done |].
      apply not_elem_of_nil. }
  destruct (perform_sim growslice op enc e arr m HK HK')
    as ([] & [] & m' & Hrun & Hrun' & Hok').
  now exists m'.
Qed.

(** [Clone] returns on the memory the encoder it returns on the world of
    values, and the memory it leaves shows the world it leaves there. *)
Theorem Clone_shows (growslice : nat → nat → nat) (pick : option nat)
    (enc : loc) (m : Mem.memory) :
  Mem.mem_ok m → is_Some (Mem.heap m !! enc) →
  ∃ clone m', Mem.Clone growslice pick enc m = Some (clone, m')
              ∧ Clone pick enc (view m) = Some (clone, view m')
              ∧ Mem.mem_ok m'.
Proof.
  intros Hok Henc.
  assert (Mem.keeps [enc] [] m) as HK.
  { split_and!; [done | |].
    - now intros l ->%list_elem_of_singleton.
    - intros x Hx. now apply elem_of_nil in Hx. }
  assert (enc ∈ [enc]) as Hin by left.
  destruct (Clone_sim growslice [enc] [] pick enc m HK Hin)
    as (clone & ? & m' & Hrun & Hrun' & <- & HK2).
  exists clone, m'. split_and!; [done | done | apply HK2].
Qed.

(** [WriteEntry] hands to the sink and returns on the memory what it does on
    the world of values. *)
Theorem WriteEntry_shows (growslice : nat → nat → nat) (pick : option nat)
    (enc : loc) (sink : option Writer) (msg : string) (lvl : Level)
    (t : time.Time) (m : Mem.memory) :
  Mem.mem_ok m → is_Some (Mem.heap m !! enc) → enc ∉ Mem.textPool m →
  ∃ r m', Mem.WriteEntry growslice pick enc sink msg lvl t m = Some (r, m')
          ∧ WriteEntry pick enc sink msg lvl t (view m) = Some (r, view m')
          ∧ Mem.mem_ok m'.
Proof.
  intros Hok [e He] Hnp. pose proof Hok as (HA & _ & _).
  destruct (HA enc e He) as (arr & Harr & _).
  assert (Mem.keeps [] [(enc, e, arr)] m) as HK.
  { split_and!; [done | |].
    - intros l Hl. now apply elem_of_nil in Hl.
    - intros x ->%list_elem_of_singleton. split_and!; [done | done | done |].
      apply not_elem_of_nil. }
  assert ((enc, e, arr) ∈ [(enc, e, arr)]) as Hin by left.
  destruct (WriteEntry_sim growslice [] _ pick enc e arr sink msg lvl t m
              HK Hin) as (r & ? & m' & Hrun & Hrun' & <- & HK2).
  exists r, m'. split_and!; [done | done | apply HK2].
Qed.

(** [NewColorEncoder] with options made by [TextTimeFormat] likewise. *)
Theorem NewColorEncoder_shows (pick : option nat) (layouts : list string)
    (m : Mem.memory) :
  Mem.mem_ok m →
  ∃ enc m',
    Mem.NewColorEncoder pick (Mem.TextTimeFormat <$> layouts) m
    = Some (enc, m')
    ∧ NewColorEncoder pick (TextTimeFormat <$> layouts) (view m)
      = Some (enc, view m')
    ∧ Mem.mem_ok m'.
Proof.
  intros Hok.
  assert (Mem.keeps [] [] m) as HK.
  { split_and!; [done | |].
    - intros l Hl. now apply elem_of_nil in Hl.
    - intros x Hx. now apply elem_of_nil in Hx. }
  destruct (NewColorEncoder_sim [] [] pick layouts m HK)
    as (enc & ? & m' & Hrun & Hrun' & <- & HK2).
  exists enc, m'. split_and!; [done | done | apply HK2].
Qed.

(** ** Instances of the further properties *)

Lemma AddInt64_read_back_witness :
  ∃ text, bytes (AddInt64 "n" (-42) textPool_New) =
            bytes (addKey "n" textPool_New) +:+ text
          ∧ strconv.ParseInt text = Some (-42).
Proof. apply (AddInt64_read_back "n" (-42) textPool_New). lia. Defined.

Lemma AddUint64_read_back_witness :
  ∃ text, bytes (AddUint64 "n" 42 textPool_New) =
            bytes (addKey "n" textPool_New) +:+ text
          ∧ strconv.ParseUint text 10 = Some 42%N.
Proof. apply (AddUint64_read_back "n" 42 textPool_New). lia. Defined.

Lemma AddUintptr_read_back_witness :
  ∃ text, bytes (AddUintptr "p" 48879 textPool_New) =
            bytes (addKey "p" textPool_New) +:+ "0x" +:+ text
          ∧ strconv.ParseUint text 16 = Some 48879%N.
Proof. apply (AddUintptr_read_back "p" 48879 textPool_New). lia. Defined.

Lemma key_color_anagram_witness : key_color "user" = key_color "resu".
Proof. apply (key_color_anagram "user" "resu"). by_decide. Defined.

Lemma addMessage_ascii_witness :
  bytes (addMessage textPool_New textPool_New "login") =
    bytes textPool_New +:+ " " +:+ "login" +:+ spaces (25 - String.length "login")
  ∧ String.length (bytes (addMessage textPool_New textPool_New "login")) =
      (String.length (bytes textPool_New) + 1
       + Nat.max 25 (String.length "login"))%nat
  ∧ ((25 <= String.length "login")%nat →
     bytes (addMessage textPool_New textPool_New "login") =
       bytes textPool_New +:+ " " +:+ "login").
Proof.
  apply (addMessage_ascii textPool_New textPool_New "login");
    [reflexivity | discriminate].
Defined.

Lemma NewColorEncoder_options_witness :
  ∃ enc w',
    NewColorEncoder (Some 0%nat) (TextTimeFormat <$> ["15:04"; ""])
      example_world = Some (enc, w')
    ∧ (∃ flag, heap w' !! enc =
               Some {| bytes := ""; timeFmt := final_layout ["15:04"; ""];
                       firstNested := flag |})
    ∧ (enc ∉ textPool w')
    ∧ pool_ok w'
    ∧ (∀ b eb, heap example_world !! b = Some eb → b ∉ textPool example_world →
               b ≠ enc ∧ heap w' !! b = Some eb ∧ b ∉ textPool w').
Proof.
  apply (NewColorEncoder_options (Some 0%nat) ["15:04"; ""] example_world).
  exact example_world_ok.
Defined.

Lemma recycle_resets_witness :
  recycle 0%nat (TextTimeFormat <$> ["15:04"]) example_world =
  Some (0%nat,
        World (<[0%nat := {| bytes := ""; timeFmt := final_layout ["15:04"];
                             firstNested := firstNested example_encoder |}]>
                 (heap example_world))
              (textPool example_world)).
Proof.
  apply (recycle_resets 0%nat example_encoder ["15:04"] example_world).
  reflexivity.
Defined.

Lemma write_entries_same_fields_witness :
  ∃ w',
    write_entries 0%nat
      [(Some 0%nat, short_sink, "login", InfoLevel, example_time);
       (None, full_sink, "logout", WarnLevel, example_time)] example_world
    = Some (answer example_encoder <$>
              [(Some 0%nat, short_sink, "login", InfoLevel, example_time);
               (None, full_sink, "logout", WarnLevel, example_time)], w')
    ∧ heap w' !! 0%nat = Some example_encoder
    ∧ 0%nat ∉ textPool w'.
Proof.
  apply (write_entries_same_fields 0%nat example_encoder
           [(Some 0%nat, short_sink, "login", InfoLevel, example_time);
            (None, full_sink, "logout", WarnLevel, example_time)]
           example_world).
  - exact (proj2 example_world_ok).
  - reflexivity.
  - by_decide.
Defined.

Lemma log_entry_line_witness :
  ∃ line w',
    log_entry (Some 0%nat) None (TextTimeFormat <$> ["15:04"])
      failing_marshaler full_sink "login" InfoLevel example_time example_world
      = Some (([line], write_outcome full_sink line), w')
    ∧ line =
        level_text InfoLevel
        +:+ (if String.eqb (final_layout ["15:04"]) "" then ""
             else " " +:+ time.Format example_time (final_layout ["15:04"]))
        +:+ (if String.eqb "login" "" then "" else " " +:+ padded "login")
        +:+ (match (emitted_by failing_marshaler).1 with
             | [] => ""
             | fs => " " +:+ render_fields true fs
             end)
        +:+ LF.
Proof.
  apply (log_entry_line (Some 0%nat) None ["15:04"] failing_marshaler
           full_sink "login" InfoLevel example_time example_world).
  exact example_world_ok.
Defined.

Lemma log_entry_no_time_witness :
  ∃ line,
    line =
      level_text InfoLevel
      +:+ (if String.eqb "login" "" then "" else " " +:+ padded "login")
      +:+ (match (emitted_by failing_marshaler).1 with
           | [] => ""
           | fs => " " +:+ render_fields true fs
           end)
      +:+ LF
    ∧ ∀ t, ∃ w',
        log_entry (Some 0%nat) None
          ((TextTimeFormat <$> ["15:04"]) ++ [TextNoTime])
          failing_marshaler full_sink "login" InfoLevel t example_world
        = Some (([line], write_outcome full_sink line), w').
Proof.
  apply (log_entry_no_time (Some 0%nat) None ["15:04"] failing_marshaler
           full_sink "login" InfoLevel example_world).
  exact example_world_ok.
Defined.

Lemma child_entries_lines_witness :
  ∃ w',
    child_entries (Some 0%nat) None None 0%nat (CallAddBool "ok" true)
      full_sink "login" InfoLevel example_time example_world =
      Some (([entry_line
                {| bytes := bytes example_encoder
                            +:+ render_field (at_start example_encoder)
                                  (emitted_by_call (CallAddBool "ok" true)).1;
                   timeFmt := timeFmt example_encoder;
                   firstNested := false |} "login" InfoLevel example_time],
             [entry_line example_encoder "login" InfoLevel example_time]), w').
Proof.
  apply (child_entries_lines (Some 0%nat) None None 0%nat
           (CallAddBool "ok" true) full_sink "login" InfoLevel example_time
           example_encoder example_world).
  - exact example_world_ok.
  - reflexivity.
  - by_decide.
Defined.

(** The memory of the instances shows the world of the instances. *)
Example example_memory_shows : view Mem.example_memory = example_world.
Proof. vm_compute. reflexivity. Qed.

Lemma perform_shows_witness :
  ∃ m', Mem.perform Mem.example_growslice (OpAdd (CallAddInt "n" 5)) 0%nat
          Mem.example_memory = Some (tt, m')
        ∧ perform (OpAdd (CallAddInt "n" 5)) 0%nat (view Mem.example_memory)
          = Some (tt, view m')
        ∧ Mem.mem_ok m'.
Proof.
  apply (perform_shows Mem.example_growslice (OpAdd (CallAddInt "n" 5)) 0%nat
           Mem.example_memory).
  - exact example_memory_ok.
  - eexists. vm_compute. reflexivity.
  - apply (bool_decide_unpack _). vm_compute. exact I.
Defined.

Lemma Clone_shows_witness :
  ∃ clone m',
    Mem.Clone Mem.example_growslice (Some 0%nat) 0%nat Mem.example_memory
    = Some (clone, m')
    ∧ Clone (Some 0%nat) 0%nat (view Mem.example_memory)
      = Some (clone, view m')
    ∧ Mem.mem_ok m'.
Proof.
  apply (Clone_shows Mem.example_growslice (Some 0%nat) 0%nat
           Mem.example_memory).
  - exact example_memory_ok.
  - eexists. vm_compute. reflexivity.
Defined.

Lemma WriteEntry_shows_witness :
  ∃ r m',
    Mem.WriteEntry Mem.example_growslice (Some 0%nat) 0%nat (Some full_sink)
      "login" InfoLevel example_time Mem.example_memory = Some (r, m')
    ∧ WriteEntry (Some 0%nat) 0%nat (Some full_sink) "login" InfoLevel
        example_time (view Mem.example_memory) = Some (r, view m')
    ∧ Mem.mem_ok m'.
Proof.
  apply (WriteEntry_shows Mem.example_growslice (Some 0%nat) 0%nat
           (Some full_sink) "login" InfoLevel example_time
           Mem.example_memory).
  - exact example_memory_ok.
  - eexists. vm_compute. reflexivity.
  - apply (bool_decide_unpack _). vm_compute. exact I.
Defined.

Lemma NewColorEncoder_shows_witness :
  ∃ enc m',
    Mem.NewColorEncoder None (Mem.TextTimeFormat <$> ["15:04"])
      Mem.example_memory = Some (enc, m')
    ∧ NewColorEncoder None (TextTimeFormat <$> ["15:04"])
        (view Mem.example_memory) = Some (enc, view m')
    ∧ Mem.mem_ok m'.
Proof.
  apply (NewColorEncoder_shows None ["15:04"] Mem.example_memory).
  exact example_memory_ok.
Defined.
